(** * Symmetry-breaking order parameters: the notebooks' numerical pipeline

    A shallow embedding of the tensor pipeline of the perovskite notebooks
    (feature composition, structure alignment, the two-phase training loop,
    the order-parameter regulariser and the reconstruction step).

    Scalars are real numbers: tensor arithmetic is exact, and the rounding of
    the 64-bit floats of the notebooks is not modelled, except for the two
    readings of the reconstruction error, which are also given in binary64
    because they add the same numbers in a different order.  A tensor is its
    shape together with its entries read by multi-index; the operations follow
    the shape rules of the tensor library (dimension wrapping, broadcasting,
    concatenation checks), and raise where the library raises. *)

From Stdlib Require Import String PrimFloat.
From Stdlib Require Import Reals List ZArith Lia Lra Bool Arith Permutation.
Import ListNotations.

(** ** Exceptions *)

Inductive Exn : Set :=
| RuntimeError
| IndexError
| ValueError
| AssertionError
| StructureError.

Inductive Result (A : Type) : Type :=
| Ok (a : A)
| Raise (e : Exn).

Arguments Ok {A} a.
Arguments Raise {A} e.

Definition bind {A B : Type} (c : Result A) (k : A -> Result B) : Result B :=
  match c with
  | Ok a => k a
  | Raise e => Raise e
  end.

Notation "x <- c ;; k" := (bind c (fun x => k))
  (at level 61, c at next level, right associativity).

Fixpoint mapM {A B : Type} (f : A -> Result B) (l : list A) : Result (list B) :=
  match l with
  | [] => Ok []
  | a :: l' => b <- f a ;; bs <- mapM f l' ;; Ok (b :: bs)
  end.

Definition assert (b : bool) : Result unit :=
  if b then Ok tt else Raise AssertionError.

(** ** Finite sums and list surgery *)

Fixpoint Rsum (n : nat) (f : nat -> R) : R :=
  match n with
  | O => 0%R
  | S m => (Rsum m f + f m)%R
  end.

Definition insert_at {A : Type} (k : nat) (x : A) (l : list A) : list A :=
  firstn k l ++ x :: skipn k l.

Definition remove_at {A : Type} (k : nat) (l : list A) : list A :=
  firstn k l ++ skipn (S k) l.

Definition set_at {A : Type} (k : nat) (x : A) (l : list A) : list A :=
  firstn k l ++ x :: skipn (S k) l.

Fixpoint shape_eqb (a b : list nat) : bool :=
  match a, b with
  | [], [] => true
  | x :: a', y :: b' => (x =? y) && shape_eqb a' b'
  | _, _ => false
  end.

(** ** Tensors *)

Record Tensor : Type := mkTensor {
  shape : list nat;
  val : list nat -> R
}.

Definition rank (t : Tensor) : nat := length (shape t).

Definition numel (t : Tensor) : nat := fold_right Nat.mul 1 (shape t).

(** A dimension argument [d] of a tensor of rank [rk]: negative values count
    from the end, anything outside [-rk, rk-1] is an IndexError. *)
Definition norm_dim (rk : nat) (d : Z) : Result nat :=
  let r := Z.of_nat rk in
  if ((- r <=? d) && (d <? r))%Z
  then Ok (Z.to_nat (if (d <? 0)%Z then d + r else d))
  else Raise IndexError.

(** [torch.zeros] of the given sizes: a negative size is refused. *)
Definition zeros (sizes : list Z) : Result Tensor :=
  if forallb (fun n => (0 <=? n)%Z) sizes
  then Ok (mkTensor (map Z.to_nat sizes) (fun _ => 0%R))
  else Raise RuntimeError.

(** A two-dimensional tensor given by its rows. *)
Definition tensor2 (rows : list (list R)) : Tensor :=
  mkTensor [length rows; length (hd [] rows)]
    (fun idx => nth (nth 1 idx 0) (nth (nth 0 idx 0) rows []) 0%R).

(** [t.unsqueeze(d)] *)
Definition unsqueeze (t : Tensor) (d : Z) : Result Tensor :=
  k <- norm_dim (S (rank t)) d ;;
  Ok (mkTensor (insert_at k 1 (shape t)) (fun idx => val t (remove_at k idx))).

(** [t.sum(d)] *)
Definition tsum (t : Tensor) (d : Z) : Result Tensor :=
  k <- norm_dim (rank t) d ;;
  Ok (mkTensor (remove_at k (shape t))
        (fun idx => Rsum (nth k (shape t) 0) (fun j => val t (insert_at k j idx)))).

(** Elementwise functions ([torch.cos], [.abs()], multiplication by a scalar). *)
Definition tmap (f : R -> R) (t : Tensor) : Tensor :=
  mkTensor (shape t) (fun idx => f (val t idx)).

(** Broadcasting: shapes are aligned on their last dimension; two sizes are
    compatible when they are equal or one of them is 1. *)
Definition bdim (x y : nat) : option nat :=
  if x =? 1 then Some y
  else if y =? 1 then Some x
  else if x =? y then Some x
  else None.

Fixpoint bshape_rev (a b : list nat) : option (list nat) :=
  match a, b with
  | [], _ => Some b
  | _, [] => Some a
  | x :: a', y :: b' =>
      match bdim x y, bshape_rev a' b' with
      | Some n, Some s => Some (n :: s)
      | _, _ => None
      end
  end.

Definition broadcast_shapes (a b : list nat) : option (list nat) :=
  option_map (@rev nat) (bshape_rev (rev a) (rev b)).

(** The entry of an operand of shape [s] read at index [idx] of the broadcast
    result: a dimension of size 1 is read at 0. *)
Fixpoint bidx_rev (s idx : list nat) : list nat :=
  match s, idx with
  | n :: s', i :: idx' => (if n =? 1 then 0 else i) :: bidx_rev s' idx'
  | _, _ => []
  end.

Definition bidx (s idx : list nat) : list nat :=
  rev (bidx_rev (rev s) (rev idx)).

Definition map2 (f : R -> R -> R) (a b : Tensor) : Result Tensor :=
  match broadcast_shapes (shape a) (shape b) with
  | Some s =>
      Ok (mkTensor s (fun idx => f (val a (bidx (shape a) idx)) (val b (bidx (shape b) idx))))
  | None => Raise RuntimeError
  end.

Definition tmul : Tensor -> Tensor -> Result Tensor := map2 Rmult.
Definition tsub : Tensor -> Tensor -> Result Tensor := map2 Rminus.
Definition tadd : Tensor -> Tensor -> Result Tensor := map2 Rplus.

(** [torch.cat(ts, dim=d)]: all tensors have the rank of the first one and
    its sizes outside dimension [d]. *)
Definition same_except (k : nat) (s1 s2 : list nat) : bool :=
  shape_eqb (set_at k 0 s1) (set_at k 0 s2).

Fixpoint cat_size (k : nat) (ts : list Tensor) : nat :=
  match ts with
  | [] => 0
  | t :: ts' => nth k (shape t) 0 + cat_size k ts'
  end.

Fixpoint cat_val (k : nat) (ts : list Tensor) (idx : list nat) : R :=
  match ts with
  | [] => 0%R
  | t :: ts' =>
      let n := nth k (shape t) 0 in
      let i := nth k idx 0 in
      if i <? n then val t idx else cat_val k ts' (set_at k (i - n) idx)
  end.

Definition cat (ts : list Tensor) (d : Z) : Result Tensor :=
  match ts with
  | [] => Raise RuntimeError
  | t0 :: _ =>
      k <- norm_dim (rank t0) d ;;
      if forallb (fun t => same_except k (shape t0) (shape t)) ts
      then Ok (mkTensor (set_at k (cat_size k ts) (shape t0)) (cat_val k ts))
      else Raise RuntimeError
  end.

(** [torch.stack(ts, dim=d)]: equal shapes, then the concatenation of the
    unsqueezed tensors. *)
Definition stack (ts : list Tensor) (d : Z) : Result Tensor :=
  match ts with
  | [] => Raise RuntimeError
  | t0 :: _ =>
      if forallb (fun t => shape_eqb (shape t0) (shape t)) ts
      then us <- mapM (fun t => unsqueeze t d) ts ;; cat us d
      else Raise RuntimeError
  end.

(** [t[:, ix]] with a list of column indices. *)
Definition index_cols (t : Tensor) (ix : list Z) : Result Tensor :=
  if rank t <? 2 then Raise IndexError
  else
    js <- mapM (norm_dim (nth 1 (shape t) 0)) ix ;;
    Ok (mkTensor (set_at 1 (length ix) (shape t))
          (fun idx => val t (set_at 1 (nth (nth 1 idx 0) js 0) idx))).

(** [t[:, j]] *)
Definition select_col (t : Tensor) (j : Z) : Result Tensor :=
  if rank t <? 2 then Raise IndexError
  else
    j' <- norm_dim (nth 1 (shape t) 0) j ;;
    Ok (mkTensor (remove_at 1 (shape t)) (fun idx => val t (insert_at 1 j' idx))).

(** [t[:, start:stop]] for non-negative bounds: a slice is clamped to the
    number of columns and never raises on a tensor with at least two
    dimensions. *)
Definition slice_cols (t : Tensor) (start stop : nat) : Result Tensor :=
  if rank t <? 2 then Raise IndexError
  else
    let c := nth 1 (shape t) 0 in
    let a := Nat.min start c in
    let b := Nat.min stop c in
    Ok (mkTensor (set_at 1 (b - a) (shape t))
          (fun idx => val t (set_at 1 (a + nth 1 idx 0) idx))).

(** [t.repeat(n)] with one repetition count: [t] has at most one dimension. *)
Definition repeat1 (t : Tensor) (n : nat) : Result Tensor :=
  match shape t with
  | [] => Ok (mkTensor [n] (fun _ => val t []))
  | [len] => Ok (mkTensor [n * len] (fun idx => val t [nth 0 idx 0 mod len]))
  | _ => Raise RuntimeError
  end.

(** The sum of all entries, the first dimension outermost. *)
Fixpoint sum_all (s : list nat) (f : list nat -> R) : R :=
  match s with
  | [] => f []
  | n :: s' => Rsum n (fun i => sum_all s' (fun idx => f (i :: idx)))
  end.

(** [t.mean()]: [None] stands for the not-a-number that the mean of an empty
    tensor is. *)
Definition tmean (t : Tensor) : option R :=
  if numel t =? 0 then None
  else Some (sum_all (shape t) (val t) / INR (numel t))%R.

(** ** Irreducible representations: [rs.dim] *)

(** An entry [(mul, L, p)] of an [Rs] list. *)
Definition Irrep : Type := (nat * nat * Z)%type.

Definition irrep_mul (r : Irrep) : nat := fst (fst r).
Definition irrep_L (r : Irrep) : nat := snd (fst r).

Fixpoint rs_dim (Rs : list Irrep) : nat :=
  match Rs with
  | [] => 0
  | r :: Rs' => irrep_mul r * (2 * irrep_L r + 1) + rs_dim Rs'
  end.

(** ** Feature composition *)

Definition A_input : Tensor := tensor2 [[1; 0; 0]%R].
Definition B_input : Tensor := tensor2 [[0; 1; 0]%R].
Definition X_input : Tensor := tensor2 [[0; 0; 1]%R].
Definition atom_inputs : list Tensor := [A_input; B_input; X_input].

Definition lookup_input (i : nat) : Result Tensor :=
  match nth_error atom_inputs i with
  | Some t => Ok t
  | None => Raise IndexError
  end.

Section Features.

(** The notebook globals the composer reads: the atom-type index of every
    atom of the reference structure, and the irreps of the order parameter. *)
Variable atom_indices : list nat.
Variable Rs_order_param : list Irrep.

Definition N_atoms : nat := length atom_indices.

(** [zeros = torch.zeros(N - 4, rs.dim(Rs_order_param))] *)
Definition zeros_block : Result Tensor :=
  zeros [(Z.of_nat N_atoms - 4)%Z; Z.of_nat (rs_dim Rs_order_param)].

(** The common tail of the three variants: pad the special-site block with
    [zeros] and put it to the right of the one-hot atom types. *)
Definition stitch (order_param_input : Tensor) : Result Tensor :=
  z <- zeros_block ;;
  order_param <- cat [z; order_param_input] 0 ;;
  inputs <- mapM lookup_input atom_indices ;;
  all_atom_types <- cat inputs 0 ;;
  cat [all_atom_types; order_param] (-1).

(** [create_features] of the notebook that determines the irreps. *)
Definition create_features (order_param_input : Tensor) : Result Tensor :=
  stitch order_param_input.

(** [create_features] of the notebook with the constrained order parameter:
    the middle component is fixed to zero and the two learnable rows are
    repeated over the two pairs of special sites. *)
Definition constrained_block (order_param_input : Tensor) : Result Tensor :=
  c0 <- select_col order_param_input 0 ;;
  r0 <- repeat1 c0 2 ;;
  z4 <- zeros [4%Z] ;;
  c1 <- select_col order_param_input 1 ;;
  r1 <- repeat1 c1 2 ;;
  stack [r0; z4; r1] (-1).

Definition create_features_constrained (order_param_input : Tensor) : Result Tensor :=
  new_order_param <- constrained_block order_param_input ;;
  stitch new_order_param.

(** [create_features] of the notebook with explicit k-vectors, up to the
    shape assertion: the cosine synthesis over the k-vectors. *)
Definition kvec_block (kvecs pseudo_order_param_input normalized_B_coords : Tensor)
  : Result Tensor :=
  perm_normalized_B_coords <- index_cols normalized_B_coords [1; 2; 0]%Z ;;
  let vol := 1%R in
  ku <- unsqueeze kvecs 0 ;;
  pu <- unsqueeze perm_normalized_B_coords 1 ;;
  prod <- tmul ku pu ;;
  phase <- tsum prod (-1) ;;
  let order_param_input := tmap cos (tmap (Rmult (2 * PI / vol)) phase) in
  ou <- unsqueeze order_param_input (-1) ;;
  qu <- unsqueeze pseudo_order_param_input 0 ;;
  weighted <- tmul ou qu ;;
  tsum weighted (-2).

Definition create_features_kvec (kvecs pseudo_order_param_input normalized_B_coords : Tensor)
  : Result Tensor :=
  order_param_input <- kvec_block kvecs pseudo_order_param_input normalized_B_coords ;;
  _ <- assert (shape_eqb (shape order_param_input) [4; 3]) ;;
  stitch order_param_input.

End Features.

(** ** Losses *)

(** Scalars of the loss computation: [None] is not-a-number, which every
    operation propagates. *)
Definition fmul (c : R) (x : option R) : option R := option_map (Rmult c) x.

Definition fadd (x y : option R) : option R :=
  match x, y with
  | Some a, Some b => Some (a + b)%R
  | _, _ => None
  end.

(** The loop of [order_param_loss] from its [i]-th irrep on, [loss] being the
    value accumulated so far. *)
Fixpoint penalty_loop (order_param_input : Tensor) (Rs_order_param : list Irrep)
  (scale : R) (i : nat) (todo : list Irrep) (loss : option R) : Result (option R) :=
  match todo with
  | [] => Ok loss
  | r :: rest =>
      let start := rs_dim (firstn i Rs_order_param) in
      let stop := rs_dim (firstn (i + 1) Rs_order_param) in
      block <- slice_cols order_param_input start stop ;;
      penalty_loop order_param_input Rs_order_param scale (S i) rest
        (fadd loss (fmul (scale * INR (irrep_L r ^ 6)) (tmean (tmap Rabs block))))
  end.

Definition order_param_loss (order_param_input : Tensor) (Rs_order_param : list Irrep)
  (scale : R) : Result (option R) :=
  penalty_loop order_param_input Rs_order_param scale 0 Rs_order_param
    (fmul scale (tmean (tmap Rabs order_param_input))).

(** The irreps of the notebook that determines them. *)
Definition Rs_irreps : list Irrep :=
  [(1, 0, 1%Z); (1, 0, (-1)%Z); (1, 1, 1%Z); (1, 1, (-1)%Z); (1, 2, 1%Z); (1, 2, (-1)%Z)].

(** The reconstruction loss of the training loop:
    [((output - y[:, [1, 2, 0]]).abs()).mean()]. *)
Definition reconstruction_loss (output y : Tensor) : Result (option R) :=
  yp <- index_cols y [1; 2; 0]%Z ;;
  diff <- tsub output yp ;;
  Ok (tmean (tmap Rabs diff)).

(** The same error measured in the frame of the reconstruction step, which
    reads the prediction as [output[:, [2, 0, 1]]]. *)
Definition reconstruction_frame_loss (output y : Tensor) : Result (option R) :=
  op <- index_cols output [2; 0; 1]%Z ;;
  diff <- tsub op y ;;
  Ok (tmean (tmap Rabs diff)).

(** ** The two readings of the reconstruction error in binary64 *)

(** A tensor of shape (n, 3) of 64-bit floats, by rows. *)
Definition F3 : Type := (float * float * float)%type.
Definition FRows : Type := list F3.

(** [row[[1, 2, 0]]] and [row[[2, 0, 1]]] *)
Definition cols_120 (row : F3) : F3 := let '(a, b, c) := row in (b, c, a).
Definition cols_201 (row : F3) : F3 := let '(a, b, c) := row in (c, a, b).

Definition sub3 (x y : F3) : F3 :=
  let '(a, b, c) := x in
  let '(d, e, f) := y in
  (PrimFloat.sub a d, PrimFloat.sub b e, PrimFloat.sub c f).

Definition abs3 (x : F3) : F3 :=
  let '(a, b, c) := x in (PrimFloat.abs a, PrimFloat.abs b, PrimFloat.abs c).

(** [a - b]: a single row is broadcast over the rows of the other tensor;
    otherwise the numbers of rows must agree. *)
Definition fsub_rows (a b : FRows) : Result FRows :=
  match a, b with
  | [x], _ => Ok (map (fun y => sub3 x y) b)
  | _, [y] => Ok (map (fun x => sub3 x y) a)
  | _, _ =>
      if length a =? length b
      then Ok (map (fun p => sub3 (fst p) (snd p)) (combine a b))
      else Raise RuntimeError
  end.

(** The sum of all entries, added one after the other in the order of the
    memory: row by row, each row from its first column on.  (This is the order
    for a tensor of a few entries; the library adds long tensors in blocks.) *)
Definition fsum_rows (m : FRows) : float :=
  fold_left (fun acc row =>
               let '(a, b, c) := row in
               PrimFloat.add (PrimFloat.add (PrimFloat.add acc a) b) c)
            m 0%float.

Fixpoint float_of_nat (n : nat) : float :=
  match n with
  | O => 0%float
  | S m => PrimFloat.add (float_of_nat m) 1%float
  end.

(** [t.mean()]: the sum over the number of entries (not-a-number, 0 / 0, for
    a tensor without rows). *)
Definition fmean_rows (m : FRows) : float :=
  PrimFloat.div (fsum_rows m) (float_of_nat (3 * length m)).

(** [((output - y[:, [1, 2, 0]]).abs()).mean()] in binary64. *)
Definition reconstruction_loss_f64 (output y : FRows) : Result float :=
  diff <- fsub_rows output (map cols_120 y) ;;
  Ok (fmean_rows (map abs3 diff)).

(** [((output[:, [2, 0, 1]] - y).abs()).mean()] in binary64. *)
Definition reconstruction_frame_loss_f64 (output y : FRows) : Result float :=
  diff <- fsub_rows (map cols_201 output) y ;;
  Ok (fmean_rows (map abs3 diff)).

(** ** Structures and the alignment step *)

Definition Vec3 : Type := (R * R * R)%type.

Definition vsub (a b : Vec3) : Vec3 :=
  let '(ax, ay, az) := a in
  let '(bx, by_, bz) := b in
  (ax - bx, ay - by_, az - bz)%R.

Definition vadd (a b : Vec3) : Vec3 :=
  let '(ax, ay, az) := a in
  let '(bx, by_, bz) := b in
  (ax + bx, ay + by_, az + bz)%R.

Definition vnorm (a : Vec3) : R :=
  let '(ax, ay, az) := a in sqrt (ax * ax + ay * ay + az * az)%R.

Record Site : Type := mkSite {
  species : string;
  coords : Vec3
}.

Record Structure : Type := mkStructure {
  lattice : Vec3 * Vec3 * Vec3;
  sites : list Site
}.

(** An entry of the neighbour list: the image found, its distance to the
    centre of the sphere, the index of the site it is an image of, and the
    lattice translation. *)
Record Neighbor : Type := mkNeighbor {
  nn_site : Site;
  nn_distance : R;
  nn_index : nat;
  nn_image : Z * Z * Z
}.

(** [sorted(l, key=key)]: a stable sort, entries of equal key keep their order. *)
Fixpoint insert_sorted {A : Type} (key : A -> R) (x : A) (l : list A) : list A :=
  match l with
  | [] => [x]
  | y :: l' =>
      if Rle_dec (key x) (key y) then x :: y :: l' else y :: insert_sorted key x l'
  end.

Definition sorted {A : Type} (key : A -> R) (l : list A) : list A :=
  fold_right (insert_sorted key) [] l.

Definition np_stack (l : list Vec3) : Result (list Vec3) :=
  match l with
  | [] => Raise ValueError
  | _ => Ok l
  end.

Section Alignment.

(** The periodic neighbour search of the crystallography library, on a
    structure that has sites. *)
Variable get_sites_in_sphere : Structure -> Vec3 -> R -> list Neighbor.

(** The call [struct_62.get_sites_in_sphere(pt, r, ...)]: on a structure
    without sites the library raises a ValueError. *)
Definition sites_in_sphere (struct_62 : Structure) (pt : Vec3) (r : R)
  : Result (list Neighbor) :=
  match sites struct_62 with
  | [] => Raise ValueError
  | _ :: _ => Ok (get_sites_in_sphere struct_62 pt r)
  end.

(** One pass of the loop body: the displacement of one reference site. *)
Definition displacement (struct_62 : Structure) (site : Site) : Result Vec3 :=
  found <- sites_in_sphere struct_62 (coords site) 1%R ;;
  let sorted_sites := sorted nn_distance found in
  match sorted_sites with
  | [] => Raise IndexError
  | first :: _ => Ok (vsub (coords (nn_site first)) (coords site))
  end.

Definition relative_vecs (struct_221 struct_62 : Structure) : Result (list Vec3) :=
  vecs <- mapM (displacement struct_62) (sites struct_221) ;;
  np_stack vecs.

End Alignment.

(** ** The joint training loop *)

Section Training.

(** Network weights and order parameters, with their optimizer states. *)
Variables (Wts Ord SW SO : Type).

(** Gradient accumulation and [zeros_like] on either parameter group. *)
Variable addW : Wts -> Wts -> Wts.
Variable addO : Ord -> Ord -> Ord.
Variable zeroW : Wts -> Wts.
Variable zeroO : Ord -> Ord.

(** [loss.backward()] of either phase: the gradients of the phase's loss with
    respect to the weights and to the order parameters, both of which require
    gradients. *)
Variable model_loss_grads : Wts -> Ord -> Wts * Ord.
Variable order_loss_grads : Wts -> Ord -> Wts * Ord.

(** One step of either optimizer: state, parameters, gradient. *)
Variable adam_w : SW -> Wts -> Wts -> SW * Wts.
Variable adam_o : SO -> Ord -> Ord -> SO * Ord.

Record TrainState : Type := mkTrainState {
  weights : Wts;
  weights_grad : option Wts;
  order_param : Ord;
  order_grad : option Ord;
  opt : SW;
  order_opt : SO
}.

Definition accumulate {A : Type} (add : A -> A -> A) (buf : option A) (g : A) : option A :=
  match buf with
  | None => Some g
  | Some b => Some (add b g)
  end.

(** [opt.zero_grad()] and [order_opt.zero_grad()]: each optimizer clears the
    gradients of its own parameters only. *)
Definition opt_zero_grad (s : TrainState) : TrainState :=
  mkTrainState (weights s) (option_map zeroW (weights_grad s))
    (order_param s) (order_grad s) (opt s) (order_opt s).

Definition order_opt_zero_grad (s : TrainState) : TrainState :=
  mkTrainState (weights s) (weights_grad s)
    (order_param s) (option_map zeroO (order_grad s)) (opt s) (order_opt s).

(** [loss.backward()]: gradients accumulate in every leaf that requires them. *)
Definition backward (g : Wts * Ord) (s : TrainState) : TrainState :=
  mkTrainState (weights s) (accumulate addW (weights_grad s) (fst g))
    (order_param s) (accumulate addO (order_grad s) (snd g)) (opt s) (order_opt s).

(** [opt.step()] and [order_opt.step()]: a parameter without gradient is
    skipped. *)
Definition opt_step (s : TrainState) : TrainState :=
  match weights_grad s with
  | None => s
  | Some g =>
      let '(st, w) := adam_w (opt s) (weights s) g in
      mkTrainState w (weights_grad s) (order_param s) (order_grad s) st (order_opt s)
  end.

Definition order_opt_step (s : TrainState) : TrainState :=
  match order_grad s with
  | None => s
  | Some g =>
      let '(st, o) := adam_o (order_opt s) (order_param s) g in
      mkTrainState (weights s) (weights_grad s) o (order_grad s) (opt s) st
  end.

Definition model_update (s : TrainState) : TrainState :=
  opt_step (backward (model_loss_grads (weights s) (order_param s)) (opt_zero_grad s)).

Definition order_update (s : TrainState) : TrainState :=
  order_opt_step
    (backward (order_loss_grads (weights s) (order_param s)) (order_opt_zero_grad s)).

Definition iteration (s : TrainState) : TrainState :=
  order_update (model_update s).

Fixpoint train (max_iter : nat) (s : TrainState) : TrainState :=
  match max_iter with
  | O => s
  | S n => train n (iteration s)
  end.

End Training.

Arguments weights {Wts Ord SW SO} t.
Arguments weights_grad {Wts Ord SW SO} t.
Arguments order_param {Wts Ord SW SO} t.
Arguments order_grad {Wts Ord SW SO} t.
Arguments opt {Wts Ord SW SO} t.
Arguments order_opt {Wts Ord SW SO} t.
Arguments mkTrainState {Wts Ord SW SO}.

(** ** Reconstruction *)

Definition tensor_of_vecs (l : list Vec3) : Tensor :=
  tensor2 (map (fun v => let '(x, y, z) := v in [x; y; z]) l).

Definition cart_coords (s : Structure) : Tensor :=
  mkTensor [length (sites s); 3]
    (val (tensor_of_vecs (map coords (sites s)))).

Definition row3 (t : Tensor) (i : nat) : Vec3 :=
  (val t [i; 0], val t [i; 1], val t [i; 2]).

(** [Structure(lattice, species, coords, coords_are_cartesian=True)]: one
    Cartesian 3-vector per species. *)
Definition make_structure (latt : Vec3 * Vec3 * Vec3) (sp : list string)
  (cs : Tensor) : Result Structure :=
  if shape_eqb (shape cs) [length sp; 3]
  then Ok (mkStructure latt
             (map (fun p => mkSite (snd p) (row3 cs (fst p)))
                (combine (seq 0 (length sp)) sp)))
  else Raise StructureError.

Section Reconstruction.

(** The symmetry detector of the crystallography library, with its
    tolerance. *)
Variable get_space_group_number : Structure -> R -> nat.

Definition new_struct (new_lattice : Vec3 * Vec3 * Vec3) (struct_221 : Structure)
  (output : Tensor) : Result Structure :=
  permuted <- index_cols output [2; 0; 1]%Z ;;
  cs <- tadd (cart_coords struct_221) permuted ;;
  make_structure new_lattice (map species (sites struct_221)) cs.

Definition recovered_space_group (new_lattice : Vec3 * Vec3 * Vec3)
  (struct_221 : Structure) (output : Tensor) (symprec : R) : Result nat :=
  s <- new_struct new_lattice struct_221 output ;;
  Ok (get_space_group_number s symprec).

End Reconstruction.

Arguments opt_zero_grad {Wts Ord SW SO}.
Arguments order_opt_zero_grad {Wts Ord SW SO}.
Arguments backward {Wts Ord SW SO}.
Arguments opt_step {Wts Ord SW SO}.
Arguments order_opt_step {Wts Ord SW SO}.
Arguments model_update {Wts Ord SW SO}.
Arguments order_update {Wts Ord SW SO}.
Arguments iteration {Wts Ord SW SO}.
Arguments train {Wts Ord SW SO}.

(** * Vocabulary of the properties *)

(** ** Feature composition *)

(** The one-hot encoding of atom type [a], read at column [j]. *)
Definition onehot (a j : nat) : R := if j =? a then 1%R else 0%R.

(** The cosine synthesis over [K] k-vectors at a site of coordinate [coord],
    component [c]:
    sum over k of cos(2 pi (kvecs[k] . coord)) * pseudo[k][c]. *)
Definition fourier_synthesis (kvecs pseudo : Tensor) (K : nat) (coord : Vec3) (c : nat) : R :=
  let '(x, y, z) := coord in
  Rsum K (fun k =>
    cos (2 * PI * (val kvecs [k; 0%nat] * x + val kvecs [k; 1%nat] * y
                   + val kvecs [k; 2%nat] * z))
    * val pseudo [k; c])%R.

(** Row [r] of a coordinate array, as it is given and with the composer's
    axis permutation [1, 2, 0]. *)
Definition coord_row (t : Tensor) (r : nat) : Vec3 :=
  (val t [r; 0], val t [r; 1], val t [r; 2]).

Definition coord_row_permuted (t : Tensor) (r : nat) : Vec3 :=
  (val t [r; 1], val t [r; 2], val t [r; 0]).

(** ** The regulariser *)

(** The sum of the absolute values of the columns [a .. a+n-1] over [r] rows. *)
Definition abs_block_sum (t : Tensor) (r a n : nat) : R :=
  Rsum r (fun i => Rsum n (fun j => Rabs (val t [i; a + j]))).

Definition in_block (a n j : nat) : bool := (a <=? j) && (j <? a + n).

(** [t] with the entry at [idx] replaced by [v]. *)
Definition set_entry (t : Tensor) (idx : list nat) (v : R) : Tensor :=
  mkTensor (shape t) (fun i => if shape_eqb idx i then v else val t i).

(** The columns of the [b]-th irrep, as [order_param_loss] slices them, and
    its order [L]. *)
Definition block_start (Rs : list Irrep) (b : nat) : nat := rs_dim (firstn b Rs).
Definition block_stop (Rs : list Irrep) (b : nat) : nat := rs_dim (firstn (b + 1) Rs).
Definition block_L (Rs : list Irrep) (b : nat) : nat := irrep_L (nth b Rs (0, 0, 0%Z)).

(** The closed form of the regulariser on [Rs_irreps], up to the factor
    [scale / rows]: the blocks of order 0 carry no weight of their own. *)
Definition weighted_blocks (x : Tensor) (r : nat) : R :=
  (abs_block_sum x r 0 18 / 18
   + (abs_block_sum x r 2 3 + abs_block_sum x r 5 3) / 3
   + 64 * (abs_block_sum x r 8 5 + abs_block_sum x r 13 5) / 5)%R.

Definition irrep_parity (r : Irrep) : Z := snd r.

(** The number of columns of the block of an irrep. *)
Definition irrep_width (r : Irrep) : nat := irrep_mul r * (2 * irrep_L r + 1).

(** The multiplicity and the width of the [b]-th irrep of a list. *)
Definition block_mul (Rs : list Irrep) (b : nat) : nat := irrep_mul (nth b Rs (0, 0, 0%Z)).
Definition block_width (Rs : list Irrep) (b : nat) : nat := irrep_width (nth b Rs (0, 0, 0%Z)).

(** An irrep that the regulariser can weigh: [rs.dim] accepts its parity, its
    block has columns (the mean of an empty block is not a number), and
    [L ** 6] is within the floats ([scale * L ** 6] overflows beyond them). *)
Definition weighable (r : Irrep) : Prop :=
  0 < irrep_mul r /\ (-1 <= irrep_parity r <= 1)%Z /\
  (Z.of_nat (irrep_L r) ^ 6 <= 2 ^ 1024 - 2 ^ 971)%Z.

(** What the loop of the regulariser adds over the irreps [todo], whose
    blocks start at column [start], up to the factor [scale / rows]: for
    every irrep, L ** 6 times the sum of the absolute values of its block over
    the width of the block. *)
Fixpoint block_terms (x : Tensor) (r start : nat) (todo : list Irrep) : R :=
  match todo with
  | [] => 0%R
  | ir :: rest =>
      (INR (irrep_L ir ^ 6) * (abs_block_sum x r start (irrep_width ir) / INR (irrep_width ir))
       + block_terms x r (start + irrep_width ir) rest)%R
  end.

(** The weight that an entry of column [j] carries in [block_terms]. *)
Fixpoint column_weight (start : nat) (todo : list Irrep) (j : nat) : R :=
  match todo with
  | [] => 0%R
  | ir :: rest =>
      ((if in_block start (irrep_width ir) j
        then INR (irrep_L ir ^ 6) / INR (irrep_width ir) else 0)
       + column_weight (start + irrep_width ir) rest j)%R
  end.

(** ** The neighbour search *)

Definition scale3 (c : R) (v : Vec3) : Vec3 :=
  let '(x, y, z) := v in (c * x, c * y, c * z)%R.

(** The periodic image of a point under a lattice translation. *)
Definition translate (latt : Vec3 * Vec3 * Vec3) (p : Vec3) (img : Z * Z * Z) : Vec3 :=
  let '(l1, l2, l3) := latt in
  let '(a, b, c) := img in
  vadd p (vadd (scale3 (IZR a) l1) (vadd (scale3 (IZR b) l2) (scale3 (IZR c) l3))).

(** What a search vouches for about the list it returns: every entry is a
    periodic image of the site it is indexed by, reports its distance to the
    centre, and lies inside the sphere of radius [r].  The search of the
    library keeps sites up to a numerical tolerance beyond the radius it is
    asked for: it is sound for that radius plus the tolerance, not for the
    radius itself. *)
Definition search_sound (s : Structure) (pt : Vec3) (r : R) (found : list Neighbor) : Prop :=
  forall e, In e found ->
    exists sj, nth_error (sites s) (nn_index e) = Some sj /\
      coords (nn_site e) = translate (lattice s) (coords sj) (nn_image e) /\
      nn_distance e = vnorm (vsub (coords (nn_site e)) pt) /\
      (nn_distance e < r)%R.

(** No periodic image of any site of [s] lies inside the sphere. *)
Definition no_site_within (s : Structure) (pt : Vec3) (r : R) : Prop :=
  forall j sj img, nth_error (sites s) j = Some sj ->
    ~ (vnorm (vsub (translate (lattice s) (coords sj) img) pt) < r)%R.

(** Every periodic image of every site of [s] is farther than [r] from the
    point. *)
Definition all_images_beyond (s : Structure) (pt : Vec3) (r : R) : Prop :=
  forall j sj img, nth_error (sites s) j = Some sj ->
    (r < vnorm (vsub (translate (lattice s) (coords sj) img) pt))%R.

(** [e] is the entry that [sorted(found, key=distance)[0]] selects: the
    earliest entry of minimal distance. *)
Definition first_nearest (found : list Neighbor) (e : Neighbor) : Prop :=
  exists pre post, found = pre ++ e :: post /\
    (forall x, In x pre -> (nn_distance e < nn_distance x)%R) /\
    (forall x, In x post -> (nn_distance e <= nn_distance x)%R).

(** The alignment as a reader expecting index correspondence would have it:
    the [i]-th displacement points to the nearest found image of the [i]-th
    site of the distorted structure. *)
Definition aligned_by_index (search : Structure -> Vec3 -> R -> list Neighbor)
  (struct_221 struct_62 : Structure) (vecs : list Vec3) : Prop :=
  forall i site, nth_error (sites struct_221) i = Some site ->
    exists e, In e (search struct_62 (coords site) 1%R) /\
      nn_index e = i /\
      nth_error vecs i = Some (vsub (coords (nn_site e)) (coords site)) /\
      forall e', In e' (search struct_62 (coords site) 1%R) -> nn_index e' = i ->
        (nn_distance e <= nn_distance e')%R.

(** * Example data *)

(** Twenty atoms, the four special sites last. *)
Definition atom_indices_example : list nat :=
  repeat 0 4 ++ repeat 2 12 ++ repeat 1 4.

Definition Rs_pseudovector : list Irrep := [(1, 1, 1%Z)].

(** Irreps in which the block of the higher order is the wider one. *)
Definition Rs_wide : list Irrep := [(1, 2, 1%Z); (9, 3, 1%Z)].

(** The prediction (0.2, 0.3, 0.1) and the target zero. *)
Definition f64_prediction : FRows :=
  [(0x1.999999999999ap-3, 0x1.3333333333333p-2, 0x1.999999999999ap-4)%float].

Definition f64_target : FRows := [(0, 0, 0)%float].

Definition zero_tensor (s : list nat) : Tensor := mkTensor s (fun _ => 0%R).

(** The k-vectors R and M1 of the notebook, a pseudovector on M1, and four
    normalized site coordinates. *)
Definition kvecs_example : Tensor :=
  tensor2 [[1 / 2; 1 / 2; 1 / 2]; [1 / 2; 0; 1 / 2]]%R.

Definition pseudo_example : Tensor :=
  tensor2 [[0; 0; 0]; [1; 0; 0]]%R.

Definition B_coords_example : Tensor :=
  tensor2 [[0; 0; 0]; [0; 0; 1]; [0; 1; 0]; [0; 1; 1]]%R.

(** A neighbour search that looks at the home cell only. *)
Definition home_cell_search (s : Structure) (pt : Vec3) (r : R) : list Neighbor :=
  filter (fun e => if Rlt_dec (nn_distance e) r then true else false)
    (map (fun p => mkNeighbor (snd p) (vnorm (vsub (coords (snd p)) pt)) (fst p)
                     (0, 0, 0)%Z)
       (combine (seq 0 (length (sites s))) (sites s))).

Definition cubic (a : R) : Vec3 * Vec3 * Vec3 :=
  ((a, 0, 0), (0, a, 0), (0, 0, a))%R.

Definition site_at (sp : string) (x : R) : Site := mkSite sp (x, 0, 0)%R.

(** A reference chain of two atoms and a slightly displaced copy. *)
Definition ref_pair : Structure :=
  mkStructure (cubic 10) [site_at "A"%string 0; site_at "B"%string 5].


(** Two close reference atoms and a distorted structure that lists its sites
    in the other order. *)
Definition ref_close : Structure :=
  mkStructure (cubic 10) [site_at "A"%string 0; site_at "B"%string (1 / 2)].

Definition distorted_swapped : Structure :=
  mkStructure (cubic 10) [site_at "A"%string (3 / 5); site_at "B"%string (1 / 10)].

(** A distorted structure whose only site is far from the reference atom. *)
Definition far_single : Structure :=
  mkStructure (cubic 10) [mkSite "A"%string (5, 5, 5)%R].

(** The home-cell search with a tolerance: sites are kept up to a small
    distance beyond the radius, as the search of the library keeps them (it
    returns a site at exactly the radius, and one a billionth beyond it). *)
Definition numerical_tol : R := (1 / 100000000)%R.

Definition tolerant_search (s : Structure) (pt : Vec3) (r : R) : list Neighbor :=
  home_cell_search s pt (r + numerical_tol).

(** A distorted structure with three sites near the two reference atoms of
    [ref_close]: one at exactly 1 Angstrom from the first atom, and two at the
    same distance from it. *)
Definition distorted_three : Structure :=
  mkStructure (cubic 10)
    [site_at "A"%string 1; site_at "B"%string (1 / 10); site_at "B"%string (- (1 / 10))].

(** A distorted structure whose only site lies just beyond 1 Angstrom from
    the origin. *)
Definition just_outside : Structure :=
  mkStructure (cubic 10) [site_at "A"%string (1 + 1 / 1000000000)].

Definition ref_single : Structure :=
  mkStructure (cubic 10) [site_at "A"%string 0].

(** A scalar stand-in for the network and its optimizers: the prediction is
    the product of one weight and one order parameter, the regulariser adds
    a unit slope, a step subtracts the gradient and counts. *)
Definition toy_model_grads (w o : Z) : Z * Z := (o, w).
Definition toy_order_grads (w o : Z) : Z * Z := (o, (w + 1)%Z).
Definition toy_step (st : nat) (p g : Z) : nat * Z := (S st, (p - g)%Z).
Definition toy_zero (_ : Z) : Z := 0%Z.

Definition toy_initial : TrainState Z Z nat nat :=
  mkTrainState 3%Z None 0%Z None 0 0.

Definition toy_model_update : TrainState Z Z nat nat -> TrainState Z Z nat nat :=
  model_update Z.add Z.add toy_zero toy_model_grads toy_step.

Definition toy_order_update : TrainState Z Z nat nat -> TrainState Z Z nat nat :=
  order_update Z.add Z.add toy_zero toy_order_grads toy_step.

Definition toy_train : nat -> TrainState Z Z nat nat -> TrainState Z Z nat nat :=
  train Z.add Z.add toy_zero toy_zero toy_model_grads toy_order_grads toy_step toy_step.

(** * The remaining cells of the notebooks *)

(** ** Atom types from the species labels *)

Definition atom_types_list : list string := ["A"; "B"; "X"]%string.

(** [l.index(x)]: the first position of [x], a ValueError when absent. *)
Fixpoint list_index (x : string) (l : list string) : Result nat :=
  match l with
  | [] => Raise ValueError
  | y :: l' => if String.eqb x y then Ok 0 else n <- list_index x l' ;; Ok (S n)
  end.

(** [s[0]] on a string. *)
Definition first_char (s : string) : Result string :=
  match s with
  | EmptyString => Raise IndexError
  | String c _ => Ok (String c EmptyString)
  end.

(** [atom_types_list.index(str(s.species)[0])], the species of a site being
    kept as its printed label. *)
Definition atom_index (site : Site) : Result nat :=
  c <- first_char (species site) ;;
  list_index c atom_types_list.

Definition atom_indices_of (struct_221 : Structure) : Result (list nat) :=
  mapM atom_index (sites struct_221).

(** [Rs_in = [(3, 0, 1)] + Rs_order_param] *)
Definition Rs_in (Rs_order_param : list Irrep) : list Irrep :=
  (3, 0, 1%Z) :: Rs_order_param.

(** ** The origin of the distortion *)

(** A bound of a slice over [n] rows: negative bounds count from the end,
    and every bound is clamped to the rows there are. *)
Definition slice_bound (n : nat) (i : Z) : nat :=
  Z.to_nat (if (i <? 0)%Z then Z.max (i + Z.of_nat n) 0 else Z.min i (Z.of_nat n)).

(** [t[start:stop]] on the first dimension, [stop] being optional. *)
Definition slice_rows (t : Tensor) (start : Z) (stop : option Z) : Result Tensor :=
  if rank t <? 1 then Raise IndexError
  else
    let n := nth 0 (shape t) 0 in
    let a := slice_bound n start in
    let b := match stop with Some z => slice_bound n z | None => n end in
    Ok (mkTensor (set_at 0 (b - a) (shape t))
          (fun idx => val t (set_at 0 (a + nth 0 idx 0) idx))).

Definition lat : R := (4055964 / 1000000)%R.

(** [(cart_coords[-4:] - cart_coords[-4:-3]) / lat] *)
Definition normalized_B_coords (struct_62 : Structure) : Result Tensor :=
  last_four <- slice_rows (cart_coords struct_62) (-4) None ;;
  origin <- slice_rows (cart_coords struct_62) (-4) (Some (-3)%Z) ;;
  diff <- tsub last_four origin ;;
  Ok (tmap (fun x => x / lat)%R diff).

(** ** The losses of the order-update phase *)

(** Reconstruction loss plus [order_param_loss] at scale 1e-2 (the notebook
    that determines the irreps). *)
Definition order_update_loss (output y order_param_input : Tensor)
  (Rs_order_param : list Irrep) : Result (option R) :=
  loss <- reconstruction_loss output y ;;
  penalty <- order_param_loss order_param_input Rs_order_param (1 / 100) ;;
  Ok (fadd loss penalty).



(** ** Vocabulary *)

(** The entry of a two-dimensional tensor at row [i], column [j]. *)
Definition entry (t : Tensor) (i j : nat) : R := val t [i; j].


(** A tensor with every entry negated. *)
Definition negated (t : Tensor) : Tensor := tmap Ropp t.

(** The phase of k-vector [k] at site [r], as the composer forms it. *)
Definition kvec_phase (kvecs coords : Tensor) (k r : nat) : R :=
  (val kvecs [k; 0%nat] * val coords [r; 1%nat]
   + val kvecs [k; 1%nat] * val coords [r; 2%nat]
   + val kvecs [k; 2%nat] * val coords [r; 0%nat])%R.

Section TwoPhase.

Variables (Wts Ord SW SO : Type).
Variable model_loss_grads : Wts -> Ord -> Wts * Ord.
Variable order_loss_grads : Wts -> Ord -> Wts * Ord.
Variable adam_w : SW -> Wts -> Wts -> SW * Wts.
Variable adam_o : SO -> Ord -> Ord -> SO * Ord.

(** The loop without gradient buffers: a step of the weights on the gradient
    of the model loss, then a step of the order parameters on the gradient of
    the order loss at the new weights. *)
Definition two_phase_step (p : Wts * Ord * SW * SO) : Wts * Ord * SW * SO :=
  let '(w, o, sw, so) := p in
  let '(sw', w') := adam_w sw w (fst (model_loss_grads w o)) in
  let '(so', o') := adam_o so o (snd (order_loss_grads w' o)) in
  (w', o', sw', so').

Fixpoint two_phase_loop (n : nat) (p : Wts * Ord * SW * SO) : Wts * Ord * SW * SO :=
  match n with
  | O => p
  | S m => two_phase_loop m (two_phase_step p)
  end.

(** What a training state has learned: parameters and optimizer states,
    without the gradient buffers. *)
Definition learned (s : TrainState Wts Ord SW SO) : Wts * Ord * SW * SO :=
  (weights s, order_param s, opt s, order_opt s).

End TwoPhase.

Arguments two_phase_step {Wts Ord SW SO}.
Arguments two_phase_loop {Wts Ord SW SO}.
Arguments learned {Wts Ord SW SO}.


(** Column [j] of the prediction is compared with column [loss_column j]
    of the target. *)
Definition loss_column (j : nat) : nat := nth j [1; 2; 0] 0.

(** ** More example data *)

(** One A site and four B sites, labelled as the structure files print
    them. *)
Definition labelled_cell : Structure :=
  mkStructure (cubic 10)
    [ mkSite "A1" (1, 1, 1)%R; mkSite "B1" (2, 0, 0)%R; mkSite "B1" (2, 0, 5)%R;
      mkSite "B1" (7, 5, 0)%R; mkSite "B1" (7, 5, 5)%R ]%string.



(** The home-cell search with its list reversed. *)
Definition reversed_search (s : Structure) (pt : Vec3) (r : R) : list Neighbor :=
  rev (home_cell_search s pt r).

Definition ones_order_param : Tensor := mkTensor [4; 18] (fun _ => 1%R).

(** * Properties *)

(** ** Evaluation of dimension arguments and shapes *)

Ltac eval_dims :=
  repeat match goal with
  | |- context [norm_dim ?n ?z] =>
      let r := eval vm_compute in (norm_dim n z) in
      change (norm_dim n z) with r
  end; cbn [bind].

Ltac run :=
  repeat (progress (cbn [bind shape length mapM Nat.ltb Nat.leb nth insert_at remove_at
                           set_at firstn skipn app rev option_map]; eval_dims)).

Lemma shape_eqb_refl s : shape_eqb s s = true.
Proof. induction s; simpl; auto. rewrite Nat.eqb_refl; auto. Qed.

Lemma bdim_1_r x : bdim x 1 = Some x.
Proof.
  unfold bdim. destruct (x =? 1) eqn:E; [apply Nat.eqb_eq in E; subst|]; reflexivity.
Qed.

Lemma bdim_refl x : bdim x x = Some x.
Proof.
  unfold bdim. destruct (x =? 1) eqn:E; auto. rewrite Nat.eqb_refl. reflexivity.
Qed.

Ltac run_broadcast :=
  repeat (progress (run; cbn [bshape_rev bdim Nat.eqb]; rewrite ?bdim_refl, ?bdim_1_r)).

(** A broadcast dimension of the same size reads the index itself. *)
Lemma unit_index (K k : nat) : k < K -> (if K =? 1 then 0 else k) = k.
Proof. intros H. destruct (K =? 1) eqn:E; auto. apply Nat.eqb_eq in E. lia. Qed.

Lemma bind_not_assertion {A B : Type} (c : Result A) (k : A -> Result B) :
  c <> Raise AssertionError -> (forall a, k a <> Raise AssertionError) ->
  bind c k <> Raise AssertionError.
Proof. destruct c; simpl; auto. intros H _ E. apply H. congruence. Qed.

(** ** Finite sums *)

Lemma Rsum_ext n f g :
  (forall i, i < n -> f i = g i) -> Rsum n f = Rsum n g.
Proof.
  induction n as [|n IH]; simpl; intros H; auto.
  rewrite IH, H; auto.
Qed.

Lemma Rsum_le n f g :
  (forall i, i < n -> (f i <= g i)%R) -> (Rsum n f <= Rsum n g)%R.
Proof.
  induction n as [|n IH]; simpl; intros H; [lra|].
  apply Rplus_le_compat; auto.
Qed.

(** Zeroing the term at column [j0] of a sum over the columns [a .. a+n-1]. *)
Lemma Rsum_drop_one n a j0 (f : nat -> R) :
  Rsum n (fun j => if a + j =? j0 then 0%R else f j) =
  (Rsum n f - (if in_block a n j0 then f (j0 - a)%nat else 0))%R.
Proof.
  unfold in_block. induction n as [|n IH]; simpl.
  - replace (a + 0) with a by lia.
    destruct (a <=? j0) eqn:E1, (j0 <? a) eqn:E2; simpl; try lra.
    apply Nat.leb_le in E1. apply Nat.ltb_lt in E2. lia.
  - rewrite IH.
    destruct (a + n =? j0) eqn:E.
    + apply Nat.eqb_eq in E.
      replace (a <=? j0) with true by (symmetry; apply Nat.leb_le; lia).
      replace (j0 <? a + n) with false by (symmetry; apply Nat.ltb_ge; lia).
      replace (j0 <? a + S n) with true by (symmetry; apply Nat.ltb_lt; lia).
      simpl. replace (j0 - a) with n by lia. lra.
    + apply Nat.eqb_neq in E.
      destruct (a <=? j0) eqn:E1; simpl; [|lra].
      destruct (j0 <? a + n) eqn:E2.
      * replace (j0 <? a + S n) with true; [lra|].
        symmetry. apply Nat.ltb_lt. apply Nat.ltb_lt in E2. lia.
      * replace (j0 <? a + S n) with false; [lra|].
        symmetry. apply Nat.ltb_ge. apply Nat.ltb_ge in E2. lia.
Qed.

Lemma Rsum_change_one n i0 (f g : nat -> R) (delta : R) :
  i0 < n ->
  (forall i, i < n -> i <> i0 -> g i = f i) ->
  g i0 = (f i0 - delta)%R ->
  Rsum n g = (Rsum n f - delta)%R.
Proof.
  induction n as [|n IH]; intros Hi Hsame Hat; [lia|]. simpl.
  destruct (Nat.eq_dec i0 n) as [->|Hne].
  - rewrite Hat. rewrite (Rsum_ext n g f); [lra|]. intros i Hi'. apply Hsame; lia.
  - rewrite IH by (auto; lia). rewrite (Hsame n) by lia. lra.
Qed.

(** ** Feature composition *)

Lemma lookup_input_ok a :
  a < 3 -> exists t, lookup_input a = Ok t /\ shape t = [1; 3] /\
                     forall j, j < 3 -> val t [0; j] = onehot a j.
Proof.
  intros Ha. destruct a as [|[|[|a]]]; try lia; eexists;
    (split; [reflexivity|split; [reflexivity|]]);
    intros [|[|[|j]]] Hj; try lia; reflexivity.
Qed.

Lemma same_rows_check c ts :
  Forall (fun t => shape t = [1; c]) ts ->
  forallb (fun t => same_except 0 [1; c] (shape t)) ts = true.
Proof.
  induction 1 as [|t ts Ht _ IH]; simpl; auto.
  rewrite Ht, IH. unfold same_except. simpl. rewrite Nat.eqb_refl. reflexivity.
Qed.

Lemma cat_size_rows c ts :
  Forall (fun t => shape t = [1; c]) ts -> cat_size 0 ts = length ts.
Proof. induction 1 as [|t ts Ht _ IH]; simpl; auto. rewrite Ht, IH. reflexivity. Qed.

Lemma cat_val_rows c ts dflt :
  Forall (fun t => shape t = [1; c]) ts ->
  forall i j, i < length ts -> cat_val 0 ts [i; j] = val (nth i ts dflt) [0; j].
Proof.
  induction 1 as [|t ts Ht _ IH]; simpl; intros i j Hi; [lia|].
  rewrite Ht. simpl. destruct i as [|i]; simpl; auto.
  unfold set_at. simpl. rewrite Nat.sub_0_r. apply IH. lia.
Qed.

Lemma cat_rows_ok c ts :
  ts <> [] -> Forall (fun t => shape t = [1; c]) ts ->
  cat ts 0 = Ok (mkTensor [length ts; c] (cat_val 0 ts)).
Proof.
  intros Hne Hall. destruct ts as [|t0 ts']; [congruence|].
  unfold cat. pose proof (Forall_inv Hall) as H0. simpl in H0.
  unfold rank. rewrite H0. run.
  rewrite (same_rows_check c _ Hall).
  rewrite (cat_size_rows c _ Hall). reflexivity.
Qed.

Section FeatureFacts.

Variable atom_indices : list nat.
Variable Rs : list Irrep.

Lemma zeros_block_ok :
  4 <= N_atoms atom_indices ->
  zeros_block atom_indices Rs
  = Ok (mkTensor [N_atoms atom_indices - 4; rs_dim Rs] (fun _ => 0%R)).
Proof.
  intros HN. unfold zeros_block, zeros. simpl forallb.
  replace (0 <=? Z.of_nat (N_atoms atom_indices) - 4)%Z with true
    by (symmetry; apply Z.leb_le; lia).
  replace (0 <=? Z.of_nat (rs_dim Rs))%Z with true by (symmetry; apply Z.leb_le; lia).
  simpl. do 2 f_equal. f_equal; [lia|]. f_equal. lia.
Qed.

Lemma inputs_ok :
  Forall (fun a => a < 3) atom_indices ->
  exists inputs, mapM lookup_input atom_indices = Ok inputs /\
    length inputs = N_atoms atom_indices /\
    Forall (fun t => shape t = [1; 3]) inputs /\
    forall i j, i < N_atoms atom_indices -> j < 3 ->
      val (nth i inputs A_input) [0; j] = onehot (nth i atom_indices 0) j.
Proof.
  unfold N_atoms. induction 1 as [|a l Ha Hl IH].
  - exists []. simpl. repeat split; auto. intros; lia.
  - destruct IH as (inputs & E & Hlen & Hsh & Hval).
    destruct (lookup_input_ok a Ha) as (t & Et & St & Vt).
    exists (t :: inputs). simpl. rewrite Et. simpl. rewrite E. simpl.
    repeat split; auto.
    intros [|i] j Hi Hj; simpl; auto. apply Hval; auto. lia.
Qed.

(** What the stitched feature matrix is, for a special-site block of four
    rows: its shape, the one-hot columns, the zero rows and the rows of the
    block. *)
Lemma stitch_ok (op : Tensor) :
  4 <= N_atoms atom_indices -> Forall (fun a => a < 3) atom_indices ->
  shape op = [4; rs_dim Rs] ->
  exists f, stitch atom_indices Rs op = Ok f /\
    shape f = [N_atoms atom_indices; 3 + rs_dim Rs] /\
    (forall i j, i < N_atoms atom_indices -> j < 3 ->
       val f [i; j] = onehot (nth i atom_indices 0) j) /\
    (forall i c, i < N_atoms atom_indices - 4 -> c < rs_dim Rs ->
       val f [i; 3 + c] = 0%R) /\
    (forall r c, r < 4 -> c < rs_dim Rs ->
       val f [N_atoms atom_indices - 4 + r; 3 + c] = val op [r; c]).
Proof.
  intros HN Hai Hop.
  destruct (inputs_ok Hai) as (inputs & Ein & Hlen & Hsh & Hval).
  unfold stitch. rewrite (zeros_block_ok HN). cbn [bind].
  unfold cat at 1. unfold rank. run.
  simpl forallb. rewrite Hop. unfold same_except. simpl shape_eqb.
  rewrite Nat.eqb_refl. simpl andb. cbn [bind].
  rewrite Ein. cbn [bind].
  assert (Hne : inputs <> []) by (intros ->; simpl in Hlen; lia).
  rewrite (cat_rows_ok 3 inputs Hne Hsh). cbn [bind].
  unfold cat. unfold rank. run.
  simpl forallb. unfold same_except, set_at. simpl firstn. simpl skipn. simpl app.
  cbn [cat_size shape nth]. rewrite Hop. cbn [nth].
  replace (N_atoms atom_indices - 4 + (4 + 0)) with (N_atoms atom_indices) by lia.
  rewrite Hlen. rewrite !shape_eqb_refl. simpl andb.
  eexists. split; [reflexivity|]. cbn [shape val].
  split; [f_equal; f_equal; lia|].
  split; [|split].
  - intros i j Hi Hj. simpl. replace (j <? 3) with true by (symmetry; apply Nat.ltb_lt; lia).
    rewrite (cat_val_rows 3 inputs A_input Hsh) by lia. apply Hval; auto.
  - intros i c Hi Hc. simpl. replace (c - 0) with c by lia.
    replace (c <? rs_dim Rs) with true by (symmetry; apply Nat.ltb_lt; lia).
    replace (i <? N_atoms atom_indices - 4) with true by (symmetry; apply Nat.ltb_lt; lia).
    reflexivity.
  - intros r c Hr Hc. simpl. replace (c - 0) with c by lia.
    replace (c <? rs_dim Rs) with true by (symmetry; apply Nat.ltb_lt; lia).
    replace (N_atoms atom_indices - 4 + r <? N_atoms atom_indices - 4) with false
      by (symmetry; apply Nat.ltb_ge; lia).
    rewrite Hop. simpl.
    replace (N_atoms atom_indices - 4 + r - (N_atoms atom_indices - 4)) with r by lia.
    replace (r <? 4) with true by (symmetry; apply Nat.ltb_lt; lia). reflexivity.
Qed.

(** The stitching raises no assertion error: its failures are those of
    [zeros], [cat] and the lookup of an atom type. *)
Lemma stitch_not_assertion (op : Tensor) :
  stitch atom_indices Rs op <> Raise AssertionError.
Proof.
  assert (Hcat : forall ts d, cat ts d <> Raise AssertionError).
  { intros ts d. unfold cat. destruct ts as [|t0 ts]; [discriminate|].
    apply bind_not_assertion.
    - unfold norm_dim. destruct (_ && _)%bool; discriminate.
    - intros k. destruct (forallb _ _); discriminate. }
  assert (Hmap : forall l, mapM lookup_input l <> Raise AssertionError).
  { induction l as [|a l IH]; simpl; [discriminate|].
    apply bind_not_assertion.
    - unfold lookup_input. destruct (nth_error atom_inputs a); discriminate.
    - intros t. apply bind_not_assertion; auto. discriminate. }
  unfold stitch. apply bind_not_assertion.
  - unfold zeros_block, zeros. destruct (forallb _ _); discriminate.
  - intros z. apply bind_not_assertion; auto. intros o.
    apply bind_not_assertion; auto. intros ins.
    apply bind_not_assertion; auto.
Qed.

End FeatureFacts.

Lemma constrained_block_ok (op : Tensor) :
  shape op = [2; 2] ->
  exists t, constrained_block op = Ok t /\ shape t = [4; 3] /\
    forall r, r < 4 ->
      val t [r; 0] = val op [r mod 2; 0] /\
      val t [r; 1] = 0%R /\
      val t [r; 2] = val op [r mod 2; 1].
Proof.
  intros Hop.
  unfold constrained_block, select_col, repeat1, stack, unsqueeze, cat, rank, zeros.
  rewrite Hop. run.
  cbn [forallb Z.leb Z.compare andb map Z.to_nat Pos.to_nat Pos.iter_op Nat.add Nat.mul
       shape_eqb Nat.eqb]. run.
  cbn [forallb same_except set_at firstn skipn app shape_eqb Nat.eqb andb shape]. run.
  eexists. split; [reflexivity|]. split; [reflexivity|].
  intros r Hr.
  cbn [val cat_val shape nth Nat.ltb Nat.leb set_at firstn skipn app Nat.sub remove_at
       insert_at].
  repeat split.
Qed.

(** The constrained composer on [[1, 2], [3, 4]]: the rows of the block are
    (1, 0, 2), (3, 0, 4), (1, 0, 2), (3, 0, 4). *)
Example constrained_block_rows :
  exists t, constrained_block (tensor2 [[1; 2]; [3; 4]]%R) = Ok t /\
    shape t = [4; 3] /\
    map (fun r => map (fun c => val t [r; c]) [0; 1; 2]) [0; 1; 2; 3]
    = [[1; 0; 2]; [3; 0; 4]; [1; 0; 2]; [3; 0; 4]]%R.
Proof.
  destruct (constrained_block_ok (tensor2 [[1; 2]; [3; 4]]%R) eq_refl)
    as (t & Et & St & Vt).
  exists t. split; [exact Et|]. split; [exact St|].
  cbn [map].
  destruct (Vt 0 ltac:(lia)) as (-> & -> & ->).
  destruct (Vt 1 ltac:(lia)) as (-> & -> & ->).
  destruct (Vt 2 ltac:(lia)) as (-> & -> & ->).
  destruct (Vt 3 ltac:(lia)) as (-> & -> & ->).
  reflexivity.
Qed.

Lemma kvec_block_ok (kvecs pseudo coords : Tensor) (K : nat) :
  shape kvecs = [K; 3] -> shape pseudo = [K; 3] -> shape coords = [4; 3] ->
  exists t, kvec_block kvecs pseudo coords = Ok t /\ shape t = [4; 3] /\
    forall r c, r < 4 -> c < 3 ->
      val t [r; c] = fourier_synthesis kvecs pseudo K (coord_row_permuted coords r) c.
Proof.
  intros Hk Hp Hc.
  unfold kvec_block, index_cols, unsqueeze, tmul, map2, tsum, tmap, rank, broadcast_shapes.
  rewrite Hc, Hk, Hp. run_broadcast.
  eexists. split; [reflexivity|]. cbn [shape val remove_at firstn skipn app nth].
  split; [reflexivity|].
  intros r c Hr Hc3. unfold fourier_synthesis, coord_row_permuted.
  apply Rsum_ext. intros k Hk'.
  cbn [insert_at firstn skipn app bidx rev bidx_rev Nat.eqb remove_at set_at nth].
  cbn [Rsum]. rewrite !(unit_index K k Hk').
  f_equal. f_equal. field.
Qed.

(** The k-vector composer on well-shaped inputs. *)
Lemma create_features_kvec_ok atom_indices Rs (kvecs pseudo coords : Tensor) (K : nat) :
  4 <= N_atoms atom_indices -> Forall (fun a => a < 3) atom_indices -> rs_dim Rs = 3 ->
  shape kvecs = [K; 3] -> shape pseudo = [K; 3] -> shape coords = [4; 3] ->
  exists f, create_features_kvec atom_indices Rs kvecs pseudo coords = Ok f /\
    shape f = [N_atoms atom_indices; 3 + rs_dim Rs] /\
    (forall i c, i < N_atoms atom_indices - 4 -> c < 3 -> val f [i; 3 + c] = 0%R) /\
    (forall r c, r < 4 -> c < 3 ->
       val f [N_atoms atom_indices - 4 + r; 3 + c]
       = fourier_synthesis kvecs pseudo K (coord_row_permuted coords r) c).
Proof.
  intros HN Hai Hd Hk Hp Hc.
  destruct (kvec_block_ok kvecs pseudo coords K Hk Hp Hc) as (t & Et & St & Vt).
  destruct (stitch_ok atom_indices Rs t HN Hai) as (f & Ef & Sf & _ & Zf & Bf).
  { rewrite St, Hd. reflexivity. }
  exists f. unfold create_features_kvec. rewrite Et. cbn [bind].
  rewrite St. cbn [shape_eqb Nat.eqb andb assert bind].
  split; [exact Ef|]. split; [exact Sf|]. split.
  - intros i c Hi Hc3. apply Zf; lia.
  - intros r c Hr Hc3. rewrite Bf by lia. apply Vt; auto.
Qed.

Lemma create_features_constrained_ok atom_indices Rs (op : Tensor) :
  4 <= N_atoms atom_indices -> Forall (fun a => a < 3) atom_indices -> rs_dim Rs = 3 ->
  shape op = [2; 2] ->
  exists f, create_features_constrained atom_indices Rs op = Ok f /\
    shape f = [N_atoms atom_indices; 3 + rs_dim Rs] /\
    (forall i c, i < N_atoms atom_indices - 4 -> c < 3 -> val f [i; 3 + c] = 0%R).
Proof.
  intros HN Hai Hd Hop.
  destruct (constrained_block_ok op Hop) as (t & Et & St & _).
  destruct (stitch_ok atom_indices Rs t HN Hai) as (f & Ef & Sf & _ & Zf & _).
  { rewrite St, Hd. reflexivity. }
  exists f. unfold create_features_constrained. rewrite Et. cbn [bind].
  split; [exact Ef|]. split; [exact Sf|].
  intros i c Hi Hc3. apply Zf; lia.
Qed.

Lemma atom_indices_example_valid :
  4 <= N_atoms atom_indices_example /\ Forall (fun a => a < 3) atom_indices_example.
Proof.
  split; [unfold N_atoms; simpl; lia|].
  unfold atom_indices_example. simpl. repeat constructor.
Qed.

(** C7. For order-parameter tensors of the declared shape, every variant of
    [create_features] returns a matrix of shape (N_atoms, 3 + order_param_dim);
    two tensors of that shape, whatever their entries, give outputs of the
    same shape.  The declared shapes are (4, dim) for the direct variant,
    (2, 2) for the constrained one and (K, 3) for the k-vector one. *)
Theorem create_features_shape (atom_indices : list nat) (Rs : list Irrep) :
  4 <= N_atoms atom_indices -> Forall (fun a => a < 3) atom_indices ->
  (forall op op', shape op = [4; rs_dim Rs] -> shape op' = [4; rs_dim Rs] ->
     exists f f', create_features atom_indices Rs op = Ok f /\
       create_features atom_indices Rs op' = Ok f' /\
       shape f = [N_atoms atom_indices; 3 + rs_dim Rs] /\ shape f' = shape f)
  /\
  (rs_dim Rs = 3 -> forall op op', shape op = [2; 2] -> shape op' = [2; 2] ->
     exists f f', create_features_constrained atom_indices Rs op = Ok f /\
       create_features_constrained atom_indices Rs op' = Ok f' /\
       shape f = [N_atoms atom_indices; 3 + rs_dim Rs] /\ shape f' = shape f)
  /\
  (rs_dim Rs = 3 -> forall kvecs coords K pseudo pseudo',
     shape kvecs = [K; 3] -> shape coords = [4; 3] ->
     shape pseudo = [K; 3] -> shape pseudo' = [K; 3] ->
     exists f f', create_features_kvec atom_indices Rs kvecs pseudo coords = Ok f /\
       create_features_kvec atom_indices Rs kvecs pseudo' coords = Ok f' /\
       shape f = [N_atoms atom_indices; 3 + rs_dim Rs] /\ shape f' = shape f).
Proof.
  intros HN Hai. split; [|split].
  - intros op op' Hop Hop'.
    destruct (stitch_ok atom_indices Rs op HN Hai Hop) as (f & Ef & Sf & _).
    destruct (stitch_ok atom_indices Rs op' HN Hai Hop') as (f' & Ef' & Sf' & _).
    exists f, f'. unfold create_features. repeat split; auto. congruence.
  - intros Hd op op' Hop Hop'.
    destruct (create_features_constrained_ok atom_indices Rs op HN Hai Hd Hop)
      as (f & Ef & Sf & _).
    destruct (create_features_constrained_ok atom_indices Rs op' HN Hai Hd Hop')
      as (f' & Ef' & Sf' & _).
    exists f, f'. repeat split; auto. congruence.
  - intros Hd kvecs coords K pseudo pseudo' Hk Hc Hp Hp'.
    destruct (create_features_kvec_ok atom_indices Rs kvecs pseudo coords K
                HN Hai Hd Hk Hp Hc) as (f & Ef & Sf & _).
    destruct (create_features_kvec_ok atom_indices Rs kvecs pseudo' coords K
                HN Hai Hd Hk Hp' Hc) as (f' & Ef' & Sf' & _).
    exists f, f'. repeat split; auto. congruence.
Qed.

Lemma create_features_shape_witness :
  (exists f f',
     create_features atom_indices_example Rs_irreps (zero_tensor [4; 18]) = Ok f /\
     create_features atom_indices_example Rs_irreps
       (tmap (Rplus 1) (zero_tensor [4; 18])) = Ok f' /\
     shape f = [20; 21] /\ shape f' = shape f)
  /\
  (exists f f',
     create_features_constrained atom_indices_example Rs_pseudovector
       (zero_tensor [2; 2]) = Ok f /\
     create_features_constrained atom_indices_example Rs_pseudovector
       (tmap (Rplus 1) (zero_tensor [2; 2])) = Ok f' /\
     shape f = [20; 6] /\ shape f' = shape f)
  /\
  (exists f f',
     create_features_kvec atom_indices_example Rs_pseudovector
       kvecs_example (zero_tensor [2; 3]) B_coords_example = Ok f /\
     create_features_kvec atom_indices_example Rs_pseudovector
       kvecs_example pseudo_example B_coords_example = Ok f' /\
     shape f = [20; 6] /\ shape f' = shape f).
Proof.
  destruct atom_indices_example_valid as [HN Hai].
  split; [|split].
  - apply (create_features_shape atom_indices_example Rs_irreps HN Hai); reflexivity.
  - apply (create_features_shape atom_indices_example Rs_pseudovector HN Hai); reflexivity.
  - apply (create_features_shape atom_indices_example Rs_pseudovector HN Hai)
      with (K := 2); reflexivity.
Defined.

(** C8. In every variant of [create_features], each atom other than the last
    four (special) ones gets an all-zero order-parameter block, whatever the
    order-parameter tensor holds. *)
Theorem non_special_atoms_zero_block (atom_indices : list nat) (Rs : list Irrep) :
  4 <= N_atoms atom_indices -> Forall (fun a => a < 3) atom_indices ->
  (forall op, shape op = [4; rs_dim Rs] ->
     exists f, create_features atom_indices Rs op = Ok f /\
       forall i c, i < N_atoms atom_indices - 4 -> c < rs_dim Rs ->
         val f [i; 3 + c] = 0%R)
  /\
  (rs_dim Rs = 3 -> forall op, shape op = [2; 2] ->
     exists f, create_features_constrained atom_indices Rs op = Ok f /\
       forall i c, i < N_atoms atom_indices - 4 -> c < rs_dim Rs ->
         val f [i; 3 + c] = 0%R)
  /\
  (rs_dim Rs = 3 -> forall kvecs pseudo coords K,
     shape kvecs = [K; 3] -> shape pseudo = [K; 3] -> shape coords = [4; 3] ->
     exists f, create_features_kvec atom_indices Rs kvecs pseudo coords = Ok f /\
       forall i c, i < N_atoms atom_indices - 4 -> c < rs_dim Rs ->
         val f [i; 3 + c] = 0%R).
Proof.
  intros HN Hai. split; [|split].
  - intros op Hop.
    destruct (stitch_ok atom_indices Rs op HN Hai Hop) as (f & Ef & _ & _ & Zf & _).
    exists f. split; auto.
  - intros Hd op Hop.
    destruct (create_features_constrained_ok atom_indices Rs op HN Hai Hd Hop)
      as (f & Ef & _ & Zf).
    exists f. split; auto. intros i c Hi Hc. apply Zf; lia.
  - intros Hd kvecs pseudo coords K Hk Hp Hc.
    destruct (create_features_kvec_ok atom_indices Rs kvecs pseudo coords K
                HN Hai Hd Hk Hp Hc) as (f & Ef & _ & Zf & _).
    exists f. split; auto. intros i c Hi Hc3. apply Zf; lia.
Qed.

Lemma non_special_atoms_zero_block_witness :
  (exists f,
     create_features atom_indices_example Rs_irreps (tmap (Rplus 1) (zero_tensor [4; 18]))
     = Ok f /\
     forall i c, i < 16 -> c < 18 -> val f [i; 3 + c] = 0%R)
  /\
  (exists f,
     create_features_constrained atom_indices_example Rs_pseudovector
       (tmap (Rplus 1) (zero_tensor [2; 2])) = Ok f /\
     forall i c, i < 16 -> c < 3 -> val f [i; 3 + c] = 0%R)
  /\
  (exists f,
     create_features_kvec atom_indices_example Rs_pseudovector
       kvecs_example pseudo_example B_coords_example = Ok f /\
     forall i c, i < 16 -> c < 3 -> val f [i; 3 + c] = 0%R).
Proof.
  destruct atom_indices_example_valid as [HN Hai].
  split; [|split].
  - apply (non_special_atoms_zero_block atom_indices_example Rs_irreps HN Hai); reflexivity.
  - apply (non_special_atoms_zero_block atom_indices_example Rs_pseudovector HN Hai);
      reflexivity.
  - apply (non_special_atoms_zero_block atom_indices_example Rs_pseudovector HN Hai)
      with (K := 2); reflexivity.
Defined.

(** C10. In the k-vector variant, whenever [kvecs] and
    [pseudo_order_param_input] have shape (K, 3) and [normalized_B_coords]
    has shape (4, 3), the synthesized block has shape [4, 3]: the assertion
    passes and the composer goes on to the stitching, so that no assertion
    error is raised. *)
Theorem kvec_shape_assertion_holds (atom_indices : list nat) (Rs : list Irrep)
  (kvecs pseudo coords : Tensor) (K : nat) :
  shape kvecs = [K; 3] -> shape pseudo = [K; 3] -> shape coords = [4; 3] ->
  exists t, kvec_block kvecs pseudo coords = Ok t /\
    shape t = [4; 3] /\
    assert (shape_eqb (shape t) [4; 3]) = Ok tt /\
    create_features_kvec atom_indices Rs kvecs pseudo coords = stitch atom_indices Rs t /\
    create_features_kvec atom_indices Rs kvecs pseudo coords <> Raise AssertionError.
Proof.
  intros Hk Hp Hc.
  destruct (kvec_block_ok kvecs pseudo coords K Hk Hp Hc) as (t & Et & St & _).
  assert (E : create_features_kvec atom_indices Rs kvecs pseudo coords
              = stitch atom_indices Rs t).
  { unfold create_features_kvec. rewrite Et. cbn [bind]. rewrite St. reflexivity. }
  exists t. split; [exact Et|]. split; [exact St|]. split; [rewrite St; reflexivity|].
  split; [exact E|]. rewrite E. apply stitch_not_assertion.
Qed.

Lemma kvec_shape_assertion_holds_witness :
  exists t, kvec_block kvecs_example pseudo_example B_coords_example = Ok t /\
    shape t = [4; 3] /\
    assert (shape_eqb (shape t) [4; 3]) = Ok tt /\
    create_features_kvec atom_indices_example Rs_pseudovector
      kvecs_example pseudo_example B_coords_example
    = stitch atom_indices_example Rs_pseudovector t /\
    create_features_kvec atom_indices_example Rs_pseudovector
      kvecs_example pseudo_example B_coords_example <> Raise AssertionError.
Proof.
  apply (kvec_shape_assertion_holds atom_indices_example Rs_pseudovector
           kvecs_example pseudo_example B_coords_example 2); reflexivity.
Defined.

(** C2, as amended.  In the k-vector variant, for a pseudo-order-parameter
    tensor and k-vectors of shape (K, 3) and four normalized coordinates, the
    order-parameter block of special site [r] is the sum over the k-vectors of
    cos(2 pi (kvector_k . coord')) * order_param[k], where coord' is the
    site's coordinate with its axes permuted by [1, 2, 0]. *)
Theorem kvec_contribution_permuted (atom_indices : list nat) (Rs : list Irrep)
  (kvecs pseudo coords : Tensor) (K : nat) :
  4 <= N_atoms atom_indices -> Forall (fun a => a < 3) atom_indices -> rs_dim Rs = 3 ->
  shape kvecs = [K; 3] -> shape pseudo = [K; 3] -> shape coords = [4; 3] ->
  exists f, create_features_kvec atom_indices Rs kvecs pseudo coords = Ok f /\
    forall r c, r < 4 -> c < 3 ->
      val f [N_atoms atom_indices - 4 + r; 3 + c]
      = fourier_synthesis kvecs pseudo K (coord_row_permuted coords r) c.
Proof.
  intros HN Hai Hd Hk Hp Hc.
  destruct (create_features_kvec_ok atom_indices Rs kvecs pseudo coords K
              HN Hai Hd Hk Hp Hc) as (f & Ef & _ & _ & Bf).
  exists f. split; auto.
Qed.

Lemma kvec_contribution_permuted_witness :
  exists f, create_features_kvec atom_indices_example Rs_pseudovector
              kvecs_example pseudo_example B_coords_example = Ok f /\
    forall r c, r < 4 -> c < 3 ->
      val f [N_atoms atom_indices_example - 4 + r; 3 + c]
      = fourier_synthesis kvecs_example pseudo_example 2
          (coord_row_permuted B_coords_example r) c.
Proof.
  destruct atom_indices_example_valid as [HN Hai].
  apply (kvec_contribution_permuted atom_indices_example Rs_pseudovector
           kvecs_example pseudo_example B_coords_example 2 HN Hai); reflexivity.
Defined.

(** C2, the claim as stated, fails: at the special site of coordinate
    (0, 0, 1) the composer yields 1 for the first component, while the sum
    with the unpermuted coordinate is -1. *)
Lemma kvec_contribution_unpermuted_fails :
  exists f, create_features_kvec atom_indices_example Rs_pseudovector
              kvecs_example pseudo_example B_coords_example = Ok f /\
    val f [N_atoms atom_indices_example - 4 + 1; 3 + 0] = 1%R /\
    fourier_synthesis kvecs_example pseudo_example 2
      (coord_row B_coords_example 1) 0 = (-1)%R /\
    val f [N_atoms atom_indices_example - 4 + 1; 3 + 0]
    <> fourier_synthesis kvecs_example pseudo_example 2 (coord_row B_coords_example 1) 0.
Proof.
  destruct atom_indices_example_valid as [HN Hai].
  destruct (create_features_kvec_ok atom_indices_example Rs_pseudovector
              kvecs_example pseudo_example B_coords_example 2 HN Hai)
    as (f & Ef & _ & _ & Bf); try reflexivity.
  assert (Hcode : val f [N_atoms atom_indices_example - 4 + 1; 3 + 0] = 1%R).
  { rewrite Bf by lia.
    unfold fourier_synthesis, coord_row_permuted, kvecs_example, pseudo_example,
      B_coords_example, tensor2.
    cbn [Rsum val nth].
    replace (2 * PI * (1 / 2 * 0 + 0 * 1 + 1 / 2 * 0))%R with 0%R by field.
    rewrite cos_0. ring. }
  assert (Hclaim : fourier_synthesis kvecs_example pseudo_example 2
                     (coord_row B_coords_example 1) 0 = (-1)%R).
  { unfold fourier_synthesis, coord_row, kvecs_example, pseudo_example,
      B_coords_example, tensor2.
    cbn [Rsum val nth].
    replace (2 * PI * (1 / 2 * 0 + 0 * 0 + 1 / 2 * 1))%R with PI by field.
    rewrite cos_PI. ring. }
  exists f. split; [exact Ef|]. split; [exact Hcode|]. split; [exact Hclaim|].
  rewrite Hcode, Hclaim. lra.
Qed.

(** ** The regulariser *)

Lemma abs_block_sum_set_zero t r a n i0 j0 :
  i0 < r ->
  abs_block_sum (set_entry t [i0; j0] 0) r a n =
  (abs_block_sum t r a n
   - (if in_block a n j0 then Rabs (val t [i0; j0]) else 0))%R.
Proof.
  intros Hi. unfold abs_block_sum.
  apply Rsum_change_one with (i0 := i0); auto.
  - intros i _ Hne. apply Rsum_ext. intros j _. simpl.
    replace (i0 =? i) with false by (symmetry; apply Nat.eqb_neq; lia). reflexivity.
  - transitivity (Rsum n (fun j => if a + j =? j0 then 0%R else Rabs (val t [i0; a + j]))).
    + apply Rsum_ext. intros j _. simpl. rewrite Nat.eqb_refl. simpl.
      rewrite (Nat.eqb_sym j0). destruct (a + j =? j0); auto. apply Rabs_R0.
    + rewrite Rsum_drop_one. unfold in_block.
      destruct (a <=? j0) eqn:E; simpl; auto.
      apply Nat.leb_le in E. replace (a + (j0 - a)) with j0 by lia. reflexivity.
Qed.

Lemma abs_block_sum_le x y r a n c :
  a + n <= c ->
  (forall i j, i < r -> j < c -> (Rabs (val x [i; j]) <= Rabs (val y [i; j]))%R) ->
  (abs_block_sum x r a n <= abs_block_sum y r a n)%R.
Proof.
  intros Hc H. unfold abs_block_sum.
  apply Rsum_le. intros i Hi. apply Rsum_le. intros j Hj. apply H; lia.
Qed.

Lemma tmean_abs_slice x r c a b :
  shape x = [r; c] -> 0 < r -> a < b -> b <= c ->
  exists s, slice_cols x a b = Ok s /\
    tmean (tmap Rabs s) = Some (abs_block_sum x r a (b - a) / INR (r * (b - a)))%R.
Proof.
  intros Hx Hr Hab Hbc. unfold slice_cols, rank. rewrite Hx. run.
  eexists. split; [reflexivity|].
  unfold tmean, tmap, numel. cbn [shape val fold_right sum_all].
  rewrite !Nat.min_l by lia.
  replace (r * ((b - a) * 1) =? 0) with false
    by (symmetry; apply Nat.eqb_neq; nia).
  rewrite Nat.mul_1_r. reflexivity.
Qed.

Lemma tmean_abs_full x r c :
  shape x = [r; c] -> 0 < r -> 0 < c ->
  tmean (tmap Rabs x) = Some (abs_block_sum x r 0 c / INR (r * c))%R.
Proof.
  intros Hx Hr Hc. unfold tmean, tmap, numel. cbn [shape val]. rewrite Hx.
  cbn [fold_right sum_all].
  replace (r * (c * 1) =? 0) with false by (symmetry; apply Nat.eqb_neq; nia).
  rewrite Nat.mul_1_r. reflexivity.
Qed.

(** The value of the regulariser on the irreps of the notebook. *)
Lemma order_param_loss_closed x r scale :
  shape x = [r; 18] -> 0 < r ->
  order_param_loss x Rs_irreps scale = Ok (Some (scale / INR r * weighted_blocks x r)%R).
Proof.
  intros Hx Hr. unfold order_param_loss, Rs_irreps.
  rewrite (tmean_abs_full x r 18 Hx Hr) by lia.
  cbn [penalty_loop firstn rs_dim irrep_mul irrep_L fst snd Nat.add Nat.mul Nat.pow].
  repeat match goal with
  | |- context [slice_cols x ?a ?b] =>
      let H := fresh in
      let Hm := fresh in
      destruct (tmean_abs_slice x r 18 a b Hx Hr ltac:(lia) ltac:(lia)) as (? & H & Hm);
      rewrite H; cbn [bind]; rewrite Hm; cbn [Nat.sub]; clear H Hm
  end.
  cbn [fmul fadd option_map]. do 2 f_equal.
  unfold weighted_blocks. rewrite !mult_INR.
  assert (INR r <> 0%R) by (apply not_0_INR; lia).
  simpl INR. field. auto.
Qed.

(** The regulariser on the all-ones tensor at scale 1/100:
    (1 + 0 + 0 + 1 + 1 + 64 + 64) / 100. *)
Example order_param_loss_ones :
  order_param_loss (mkTensor [4; 18] (fun _ => 1%R)) Rs_irreps (1 / 100)
  = Ok (Some (131 / 100)%R).
Proof.
  rewrite (order_param_loss_closed (mkTensor [4; 18] (fun _ => 1%R)) 4 (1 / 100) eq_refl
             ltac:(lia)).
  do 2 f_equal. unfold weighted_blocks, abs_block_sum. cbn [Rsum val].
  rewrite Rabs_R1. simpl INR. field.
Qed.

Lemma scale_factor_nonneg scale r : (0 <= scale)%R -> 0 < r -> (0 <= scale / INR r)%R.
Proof.
  intros Hs Hr. apply Rmult_le_pos; auto.
  apply Rlt_le, Rinv_0_lt_compat. apply lt_0_INR. lia.
Qed.

Lemma rs_dim_app a b : rs_dim (a ++ b) = rs_dim a + rs_dim b.
Proof. induction a as [|x a IH]; simpl; auto. rewrite IH. lia. Qed.

Lemma weighable_width ir : weighable ir -> 0 < irrep_width ir.
Proof. intros (Hm & _). unfold irrep_width. nia. Qed.

Lemma firstn_length_app {A : Type} (a b : list A) : firstn (length a) (a ++ b) = a.
Proof. rewrite firstn_app, Nat.sub_diag, firstn_all. simpl. apply app_nil_r. Qed.

(** The loop of the regulariser, run over the irreps that remain. *)
Lemma penalty_loop_eval x r c scale :
  shape x = [r; c] -> 0 < r ->
  forall todo done acc,
    rs_dim (done ++ todo) <= c -> Forall weighable todo ->
    penalty_loop x (done ++ todo) scale (length done) todo (Some acc)
    = Ok (Some (acc + scale / INR r * block_terms x r (rs_dim done) todo)%R).
Proof.
  intros Hx Hr. induction todo as [|ir rest IH]; intros done acc Hc Hw.
  - simpl. do 2 f_equal. ring.
  - inversion Hw as [|? ? Hir Hrest]; subst.
    pose proof (weighable_width ir Hir) as Hpos.
    cbn [penalty_loop].
    rewrite firstn_length_app.
    replace (firstn (length done + 1) (done ++ ir :: rest)) with (done ++ [ir]).
    2:{ replace (length done + 1) with (length (done ++ [ir]))
          by (rewrite length_app; reflexivity).
        change (ir :: rest) with ([ir] ++ rest). rewrite app_assoc.
        symmetry. apply firstn_length_app. }
    rewrite rs_dim_app. cbn [rs_dim]. rewrite Nat.add_0_r.
    fold (irrep_width ir).
    rewrite rs_dim_app in Hc. cbn [rs_dim] in Hc. fold (irrep_width ir) in Hc.
    destruct (tmean_abs_slice x r c (rs_dim done) (rs_dim done + irrep_width ir) Hx Hr)
      as (s & Es & Em); [lia|lia|].
    rewrite Es. cbn [bind]. rewrite Em. cbn [fmul fadd option_map].
    replace (rs_dim done + irrep_width ir - rs_dim done) with (irrep_width ir) by lia.
    replace (S (length done)) with (length (done ++ [ir]))
      by (rewrite length_app; simpl; lia).
    change (ir :: rest) with ([ir] ++ rest). rewrite app_assoc.
    rewrite IH.
    + do 2 f_equal. rewrite rs_dim_app. cbn [app rs_dim block_terms]. rewrite Nat.add_0_r.
      fold (irrep_width ir). rewrite mult_INR.
      assert (INR r <> 0%R) by (apply not_0_INR; lia).
      assert (INR (irrep_width ir) <> 0%R) by (apply not_0_INR; lia).
      field. auto.
    + rewrite <- app_assoc. rewrite rs_dim_app. cbn [app rs_dim]. fold (irrep_width ir). lia.
    + exact Hrest.
Qed.

(** The value of the regulariser on a tensor of the declared shape. *)
Lemma order_param_loss_general x r Rs scale :
  shape x = [r; rs_dim Rs] -> 0 < r -> Rs <> [] -> Forall weighable Rs ->
  order_param_loss x Rs scale
  = Ok (Some (scale / INR r
              * (abs_block_sum x r 0 (rs_dim Rs) / INR (rs_dim Rs)
                 + block_terms x r 0 Rs))%R).
Proof.
  intros Hx Hr Hne Hw.
  assert (Hc : 0 < rs_dim Rs).
  { destruct Rs as [|ir Rs']; [congruence|]. inversion Hw; subst.
    pose proof (weighable_width ir H1). cbn [rs_dim]. fold (irrep_width ir). lia. }
  unfold order_param_loss.
  rewrite (tmean_abs_full x r (rs_dim Rs) Hx Hr Hc). cbn [fmul option_map].
  rewrite (penalty_loop_eval x r (rs_dim Rs) scale Hx Hr Rs [] _ (Nat.le_refl _) Hw).
  do 2 f_equal. cbn [rs_dim]. rewrite mult_INR.
  assert (INR r <> 0%R) by (apply not_0_INR; lia).
  assert (INR (rs_dim Rs) <> 0%R) by (apply not_0_INR; lia).
  field. auto.
Qed.

Lemma block_terms_le x y r c :
  (forall i j, i < r -> j < c -> (Rabs (val x [i; j]) <= Rabs (val y [i; j]))%R) ->
  forall todo start, start + rs_dim todo <= c -> Forall weighable todo ->
    (block_terms x r start todo <= block_terms y r start todo)%R.
Proof.
  intros H. induction todo as [|ir rest IH]; intros start Hc Hw; cbn [block_terms]; [lra|].
  inversion Hw as [|? ? Hir Hrest]; subst.
  pose proof (weighable_width ir Hir) as Hpos.
  cbn [rs_dim] in Hc. fold (irrep_width ir) in Hc.
  apply Rplus_le_compat.
  - apply Rmult_le_compat_l; [apply pos_INR|].
    apply Rmult_le_compat_r.
    + left. apply Rinv_0_lt_compat. apply lt_0_INR. exact Hpos.
    + apply (abs_block_sum_le x y r start (irrep_width ir) c); [lia|exact H].
  - apply IH; [lia|exact Hrest].
Qed.

Lemma block_terms_set_zero x r i0 j0 :
  i0 < r ->
  forall todo start,
    block_terms (set_entry x [i0; j0] 0) r start todo
    = (block_terms x r start todo - Rabs (val x [i0; j0]) * column_weight start todo j0)%R.
Proof.
  intros Hi. induction todo as [|ir rest IH]; intros start; cbn [block_terms column_weight].
  - ring.
  - rewrite IH. rewrite abs_block_sum_set_zero by exact Hi.
    destruct (in_block start (irrep_width ir) j0); unfold Rdiv; ring.
Qed.

Lemma column_weight_before todo : forall start j, j < start -> column_weight start todo j = 0%R.
Proof.
  induction todo as [|ir rest IH]; intros start j Hj; cbn [column_weight]; [reflexivity|].
  rewrite IH by lia.
  replace (in_block start (irrep_width ir) j) with false; [ring|].
  symmetry. unfold in_block. apply andb_false_iff. left. apply Nat.leb_gt. exact Hj.
Qed.

(** The weight of a column is that of the block it lies in. *)
Lemma column_weight_in_block todo :
  forall start b j, b < length todo ->
    start + rs_dim (firstn b todo) <= j < start + rs_dim (firstn (b + 1) todo) ->
    column_weight start todo j
    = Rdiv (INR (irrep_L (nth b todo (0, 0, 0%Z)) ^ 6))
           (INR (irrep_width (nth b todo (0, 0, 0%Z)))).
Proof.
  induction todo as [|ir rest IH]; intros start b j Hb Hj; simpl in Hb; [lia|].
  destruct b as [|b].
  - cbn [firstn rs_dim Nat.add nth] in *. fold (irrep_width ir) in Hj.
    cbn [column_weight].
    rewrite column_weight_before by lia.
    replace (in_block start (irrep_width ir) j) with true; [ring|].
    symmetry. unfold in_block. apply andb_true_iff. split;
      [apply Nat.leb_le|apply Nat.ltb_lt]; lia.
  - cbn [firstn rs_dim Nat.add nth] in *. fold (irrep_width ir) in Hj.
    cbn [column_weight].
    replace (in_block start (irrep_width ir) j) with false.
    + rewrite (IH (start + irrep_width ir) b j); [ring|lia|lia].
    + symmetry. unfold in_block. apply andb_false_iff. right. apply Nat.ltb_ge. lia.
Qed.

Lemma block_stop_le Rs b : block_stop Rs b <= rs_dim Rs.
Proof.
  unfold block_stop. rewrite <- (firstn_skipn (b + 1) Rs) at 2. rewrite rs_dim_app. lia.
Qed.

(** What the loss loses when one entry is set to zero. *)
Lemma order_param_loss_set_zero x r Rs scale b i0 j0 :
  shape x = [r; rs_dim Rs] -> 0 < r -> Rs <> [] -> Forall weighable Rs ->
  b < length Rs -> block_start Rs b <= j0 < block_stop Rs b -> i0 < r ->
  exists l l0,
    order_param_loss x Rs scale = Ok (Some l) /\
    order_param_loss (set_entry x [i0; j0] 0) Rs scale = Ok (Some l0) /\
    (l - l0 = scale / INR r * Rabs (val x [i0; j0])
              * (1 / INR (rs_dim Rs)
                 + INR (block_L Rs b ^ 6) / INR (block_width Rs b)))%R.
Proof.
  intros Hx Hr Hne Hw Hb Hj Hi.
  rewrite (order_param_loss_general x r Rs scale Hx Hr Hne Hw).
  rewrite (order_param_loss_general (set_entry x [i0; j0] 0) r Rs scale Hx Hr Hne Hw).
  do 2 eexists. split; [reflexivity|]. split; [reflexivity|].
  rewrite block_terms_set_zero by exact Hi.
  rewrite abs_block_sum_set_zero by exact Hi.
  pose proof (block_stop_le Rs b) as Hle.
  replace (in_block 0 (rs_dim Rs) j0) with true.
  2:{ symmetry. unfold in_block. apply andb_true_iff. split;
        [apply Nat.leb_le|apply Nat.ltb_lt]; lia. }
  rewrite (column_weight_in_block Rs 0 b j0 Hb) by exact Hj.
  unfold block_L, block_width, Rdiv. ring.
Qed.

Lemma sixth_power_weight (L1 L2 m1 m2 : nat) :
  L1 <= L2 -> m2 <= m1 ->
  L1 ^ 6 * (m2 * (2 * L2 + 1)) <= L2 ^ 6 * (m1 * (2 * L1 + 1)).
Proof.
  intros HL Hm.
  assert (H1 : L1 ^ 6 * (2 * L2 + 1) <= L2 ^ 6 * (2 * L1 + 1)).
  { destruct L1 as [|k]; [simpl; lia|].
    set (a := S k) in *.
    assert (Ha : a * (2 * L2 + 1) <= L2 * (2 * a + 1)) by nia.
    assert (H5 : a ^ 5 <= L2 ^ 5) by (apply Nat.pow_le_mono_l; exact HL).
    change (a ^ 6) with (a * a ^ 5). change (L2 ^ 6) with (L2 * L2 ^ 5).
    transitivity (a ^ 5 * (L2 * (2 * a + 1))); [nia|].
    apply Nat.le_trans with (L2 ^ 5 * (L2 * (2 * a + 1))); [|lia].
    apply Nat.mul_le_mono_r. exact H5. }
  transitivity (m2 * (L2 ^ 6 * (2 * L1 + 1))); [nia|].
  transitivity (m1 * (L2 ^ 6 * (2 * L1 + 1))); [|lia].
  apply Nat.mul_le_mono_r. exact Hm.
Qed.

Lemma weight_quotients_le (a b c d : nat) :
  0 < b -> 0 < d -> a * d <= c * b -> (INR a / INR b <= INR c / INR d)%R.
Proof.
  intros Hb Hd H.
  assert (Hb' : (0 < INR b)%R) by (apply lt_0_INR; exact Hb).
  assert (Hd' : (0 < INR d)%R) by (apply lt_0_INR; exact Hd).
  apply le_INR in H. rewrite !mult_INR in H.
  apply Rmult_le_reg_r with (INR b * INR d)%R; [apply Rmult_lt_0_compat; lra|].
  replace (INR a / INR b * (INR b * INR d))%R with (INR a * INR d)%R by (field; lra).
  replace (INR c / INR d * (INR b * INR d))%R with (INR c * INR b)%R by (field; lra).
  exact H.
Qed.

Lemma weighable_nth Rs b : Forall weighable Rs -> b < length Rs -> weighable (nth b Rs (0, 0, 0%Z)).
Proof. intros H Hb. rewrite Forall_forall in H. apply H. apply nth_In. exact Hb. Qed.

(** C3, as amended.  For a non-negative scale, irreps that the loop can
    weigh and a tensor of the declared shape, the regulariser
    [order_param_loss] is monotone in the absolute values of the entries:
    raising absolute values entry by entry (in particular scaling the tensor
    by a factor of magnitude at least 1) never decreases it.  Of two entries
    of equal absolute value, the one in the block whose weight
    L ** 6 / (mul * (2 L + 1)) is at least the other's carries at least the
    penalty of the other: removing it lowers the loss by at least as much.
    A block of higher order L has the larger weight when its multiplicity is
    not larger. *)
Theorem order_param_loss_monotone (Rs : list Irrep) (x y : Tensor) (r : nat) (scale : R) :
  0 < r -> (0 <= scale)%R -> Rs <> [] -> Forall weighable Rs ->
  shape x = [r; rs_dim Rs] -> shape y = [r; rs_dim Rs] ->
  ((forall i j, i < r -> j < rs_dim Rs ->
      (Rabs (val x [i; j]) <= Rabs (val y [i; j]))%R) ->
   exists lx ly,
     order_param_loss x Rs scale = Ok (Some lx) /\
     order_param_loss y Rs scale = Ok (Some ly) /\ (lx <= ly)%R)
  /\
  (forall c, (1 <= Rabs c)%R ->
   exists lx lc,
     order_param_loss x Rs scale = Ok (Some lx) /\
     order_param_loss (tmap (Rmult c) x) Rs scale = Ok (Some lc) /\ (lx <= lc)%R)
  /\
  (forall b1 b2 i1 j1 i2 j2,
     b1 < length Rs -> b2 < length Rs ->
     block_L Rs b1 ^ 6 * block_width Rs b2 <= block_L Rs b2 ^ 6 * block_width Rs b1 ->
     block_start Rs b1 <= j1 < block_stop Rs b1 ->
     block_start Rs b2 <= j2 < block_stop Rs b2 ->
     i1 < r -> i2 < r ->
     Rabs (val x [i1; j1]) = Rabs (val x [i2; j2]) ->
     exists l l1 l2,
       order_param_loss x Rs scale = Ok (Some l) /\
       order_param_loss (set_entry x [i1; j1] 0) Rs scale = Ok (Some l1) /\
       order_param_loss (set_entry x [i2; j2] 0) Rs scale = Ok (Some l2) /\
       (l - l1 <= l - l2)%R)
  /\
  (forall b1 b2, b1 < length Rs -> b2 < length Rs ->
     block_L Rs b1 <= block_L Rs b2 -> block_mul Rs b2 <= block_mul Rs b1 ->
     block_L Rs b1 ^ 6 * block_width Rs b2 <= block_L Rs b2 ^ 6 * block_width Rs b1).
Proof.
  intros Hr Hs Hne Hw Hx Hy.
  pose proof (scale_factor_nonneg scale r Hs Hr) as Hu.
  assert (Hmono : forall z, shape z = [r; rs_dim Rs] ->
            (forall i j, i < r -> j < rs_dim Rs ->
               (Rabs (val x [i; j]) <= Rabs (val z [i; j]))%R) ->
            exists lx lz, order_param_loss x Rs scale = Ok (Some lx) /\
              order_param_loss z Rs scale = Ok (Some lz) /\ (lx <= lz)%R).
  { intros z Hz Hle.
    rewrite (order_param_loss_general x r Rs scale Hx Hr Hne Hw).
    rewrite (order_param_loss_general z r Rs scale Hz Hr Hne Hw).
    do 2 eexists. split; [reflexivity|]. split; [reflexivity|].
    apply Rmult_le_compat_l; [exact Hu|]. apply Rplus_le_compat.
    - apply Rmult_le_compat_r.
      + destruct (rs_dim Rs) eqn:E; [simpl; rewrite Rinv_0; lra|].
        left. apply Rinv_0_lt_compat. apply lt_0_INR. lia.
      + apply (abs_block_sum_le x z r 0 (rs_dim Rs) (rs_dim Rs)); [lia|exact Hle].
    - apply (block_terms_le x z r (rs_dim Rs) Hle); [lia|exact Hw]. }
  split; [|split; [|split]].
  - intros Hle. apply (Hmono y Hy Hle).
  - intros c Hc. apply (Hmono (tmap (Rmult c) x) Hx).
    intros i j _ _. simpl. rewrite Rabs_mult.
    pose proof (Rabs_pos (val x [i; j])). nra.
  - intros b1 b2 i1 j1 i2 j2 Hb1 Hb2 Hcrit Hj1 Hj2 Hi1 Hi2 Heq.
    destruct (order_param_loss_set_zero x r Rs scale b1 i1 j1 Hx Hr Hne Hw Hb1 Hj1 Hi1)
      as (l & l1 & El & E1 & D1).
    destruct (order_param_loss_set_zero x r Rs scale b2 i2 j2 Hx Hr Hne Hw Hb2 Hj2 Hi2)
      as (l' & l2 & El' & E2 & D2).
    rewrite El in El'. inversion El'; subst l'.
    exists l, l1, l2. repeat split; auto.
    rewrite D1, D2, Heq.
    pose proof (Rabs_pos (val x [i2; j2])) as Hm.
    assert (Hq : (INR (block_L Rs b1 ^ 6) / INR (block_width Rs b1)
                  <= INR (block_L Rs b2 ^ 6) / INR (block_width Rs b2))%R).
    { apply weight_quotients_le; [| |exact Hcrit];
        apply weighable_width, weighable_nth; assumption. }
    assert (Hp : (0 <= scale / INR r * Rabs (val x [i2; j2]))%R)
      by (apply Rmult_le_pos; assumption).
    apply Rmult_le_compat_l; [exact Hp|]. lra.
  - intros b1 b2 _ _ HL Hm. unfold block_width, irrep_width, block_L, block_mul in *.
    apply sixth_power_weight; assumption.
Qed.

Lemma Rs_irreps_weighable : Forall weighable Rs_irreps.
Proof.
  unfold Rs_irreps.
  repeat constructor; cbn [irrep_mul irrep_parity irrep_L fst snd]; try lia;
    vm_compute; discriminate.
Qed.

Lemma Rs_wide_weighable : Forall weighable Rs_wide.
Proof.
  unfold Rs_wide.
  repeat constructor; cbn [irrep_mul irrep_parity irrep_L fst snd]; try lia;
    vm_compute; discriminate.
Qed.

Lemma order_param_loss_monotone_witness :
  let x := mkTensor [4; 18] (fun _ => 1%R) in
  let y := tmap (Rmult 2) x in
  (exists lx ly,
     order_param_loss x Rs_irreps (1 / 100) = Ok (Some lx) /\
     order_param_loss y Rs_irreps (1 / 100) = Ok (Some ly) /\ (lx <= ly)%R)
  /\
  (exists lx lc,
     order_param_loss x Rs_irreps (1 / 100) = Ok (Some lx) /\
     order_param_loss (tmap (Rmult 2) x) Rs_irreps (1 / 100) = Ok (Some lc) /\
     (lx <= lc)%R)
  /\
  (exists l l1 l2,
     order_param_loss x Rs_irreps (1 / 100) = Ok (Some l) /\
     order_param_loss (set_entry x [0; 2] 0) Rs_irreps (1 / 100) = Ok (Some l1) /\
     order_param_loss (set_entry x [0; 8] 0) Rs_irreps (1 / 100) = Ok (Some l2) /\
     (l - l1 <= l - l2)%R).
Proof.
  cbv zeta.
  destruct (order_param_loss_monotone Rs_irreps
              (mkTensor [4; 18] (fun _ => 1%R))
              (tmap (Rmult 2) (mkTensor [4; 18] (fun _ => 1%R))) 4 (1 / 100))
    as (Hmono & Hscale & Horder & Hcrit).
  - lia.
  - lra.
  - discriminate.
  - exact Rs_irreps_weighable.
  - reflexivity.
  - reflexivity.
  - split; [|split].
    + apply Hmono. intros i j _ _. simpl.
      rewrite !Rabs_right by lra. lra.
    + apply Hscale. rewrite Rabs_right by lra. lra.
    + apply (Horder 2 4 0 2 0 8);
        [ simpl; lia | simpl; lia | apply Hcrit; cbv; lia | cbv; lia | cbv; lia
        | lia | lia | reflexivity ].
Defined.

(** C3, the claim as stated, fails: the loop weighs the mean of a block, which
    divides by the width of the block.  With one irrep of order 2 and nine of
    order 3, an entry of the order-3 block weighs 729 / 63, less than the
    64 / 5 of an entry of the order-2 block: removing it lowers the loss by
    less. *)
Lemma order_param_loss_wide_block_lighter :
  let x := mkTensor [1; 68] (fun _ => 1%R) in
  block_L Rs_wide 0 = 2 /\ block_L Rs_wide 1 = 3 /\
  block_start Rs_wide 0 <= 0 < block_stop Rs_wide 0 /\
  block_start Rs_wide 1 <= 5 < block_stop Rs_wide 1 /\
  exists l l2 l3,
    order_param_loss x Rs_wide (1 / 100) = Ok (Some l) /\
    order_param_loss (set_entry x [0; 0] 0) Rs_wide (1 / 100) = Ok (Some l2) /\
    order_param_loss (set_entry x [0; 5] 0) Rs_wide (1 / 100) = Ok (Some l3) /\
    (l - l3 < l - l2)%R.
Proof.
  cbv zeta.
  split; [reflexivity|]. split; [reflexivity|].
  split; [cbv; lia|]. split; [cbv; lia|].
  destruct (order_param_loss_set_zero (mkTensor [1; 68] (fun _ => 1%R)) 1 Rs_wide (1 / 100)
              0 0 0) as (l & l2 & El & E2 & D2);
    try reflexivity; try lia; try discriminate; try exact Rs_wide_weighable;
    try (cbv; lia).
  destruct (order_param_loss_set_zero (mkTensor [1; 68] (fun _ => 1%R)) 1 Rs_wide (1 / 100)
              1 0 5) as (l' & l3 & El' & E3 & D3);
    try reflexivity; try lia; try discriminate; try exact Rs_wide_weighable;
    try (cbv; lia).
  rewrite El in El'. inversion El'; subst l'.
  exists l, l2, l3. repeat split; auto.
  rewrite D2, D3.
  change (block_L Rs_wide 0 ^ 6) with 64.
  change (block_L Rs_wide 1 ^ 6) with 729.
  change (block_width Rs_wide 0) with 5.
  change (block_width Rs_wide 1) with 63.
  change (rs_dim Rs_wide) with 68.
  cbn [val]. rewrite Rabs_R1.
  rewrite !INR_IZR_INZ. cbn [Z.of_nat Pos.of_succ_nat Pos.succ].
  lra.
Qed.

(** ** The axis permutations of the loss and of the reconstruction *)

Lemma fsub_rows_same_length a b :
  length a = length b ->
  fsub_rows a b = Ok (map (fun p => sub3 (fst p) (snd p)) (combine a b)).
Proof.
  intros H. unfold fsub_rows.
  destruct a as [|x [|x' a]]; destruct b as [|y [|y' b]]; try discriminate; try reflexivity.
  rewrite H, Nat.eqb_refl. reflexivity.
Qed.

Lemma differences_permuted (o y : FRows) :
  map (fun p => sub3 (fst p) (snd p)) (combine (map cols_201 o) y)
  = map cols_201 (map (fun p => sub3 (fst p) (snd p)) (combine o (map cols_120 y))).
Proof.
  revert y. induction o as [|[[a b] c] o IH]; intros [|[[d e] f] y]; try reflexivity.
  simpl. rewrite IH. reflexivity.
Qed.

(** C9, as amended.  The permutation [1, 2, 0] applied to the targets in the
    training loss and the permutation [2, 0, 1] applied to the predictions in
    the reconstruction undo each other.  For a prediction [o] and a target [y]
    of the same shape (n, 3), the differences [o[:, [2, 0, 1]] - y] are the
    differences [o - y[:, [1, 2, 0]]] with their columns permuted by
    [2, 0, 1], in binary64 too, where each entry is the same subtraction.
    Hence, as real numbers, mean(|o - y[:, [1, 2, 0]]|) =
    mean(|o[:, [2, 0, 1]] - y|): the two means add the same numbers in a
    different order. *)
Theorem permutations_agree (o y : Tensor) (n : nat) :
  0 < n -> shape o = [n; 3] -> shape y = [n; 3] ->
  (exists y1 y2, index_cols y [1; 2; 0]%Z = Ok y1 /\ index_cols y1 [2; 0; 1]%Z = Ok y2 /\
     shape y1 = [n; 3] /\ shape y2 = [n; 3] /\
     forall i j, i < n -> j < 3 ->
       val y1 [i; j] = val y [i; nth j [1; 2; 0] 0] /\ val y2 [i; j] = val y [i; j])
  /\
  (exists o1 o2, index_cols o [2; 0; 1]%Z = Ok o1 /\ index_cols o1 [1; 2; 0]%Z = Ok o2 /\
     shape o1 = [n; 3] /\ shape o2 = [n; 3] /\
     forall i j, i < n -> j < 3 ->
       val o1 [i; j] = val o [i; nth j [2; 0; 1] 0] /\ val o2 [i; j] = val o [i; j])
  /\
  (exists y1 o1 d1 d2,
     index_cols y [1; 2; 0]%Z = Ok y1 /\ tsub o y1 = Ok d1 /\
     index_cols o [2; 0; 1]%Z = Ok o1 /\ tsub o1 y = Ok d2 /\
     forall i j, i < n -> j < 3 -> val d2 [i; j] = val d1 [i; nth j [2; 0; 1] 0])
  /\
  (exists m, reconstruction_loss o y = Ok (Some m) /\
             reconstruction_frame_loss o y = Ok (Some m))
  /\
  (forall fo fy : FRows, length fo = length fy ->
     exists d1 d2,
       fsub_rows fo (map cols_120 fy) = Ok d1 /\
       fsub_rows (map cols_201 fo) fy = Ok d2 /\
       d2 = map cols_201 d1).
Proof.
  intros Hn Ho Hy. split; [|split; [|split; [|split]]].
  - unfold index_cols, rank. rewrite Hy. run.
    do 2 eexists. split; [reflexivity|]. run. split; [reflexivity|].
    split; [reflexivity|]. split; [reflexivity|].
    intros i j Hi Hj. cbn [val nth set_at firstn skipn app].
    destruct j as [|[|[|j]]]; try lia; split; reflexivity.
  - unfold index_cols, rank. rewrite Ho. run.
    do 2 eexists. split; [reflexivity|]. run. split; [reflexivity|].
    split; [reflexivity|]. split; [reflexivity|].
    intros i j Hi Hj. cbn [val nth set_at firstn skipn app].
    destruct j as [|[|[|j]]]; try lia; split; reflexivity.
  - unfold index_cols, rank. rewrite Ho, Hy. run.
    do 4 eexists. split; [reflexivity|]. split.
    { unfold tsub, map2, broadcast_shapes. cbn [shape]. rewrite Ho. run_broadcast.
      reflexivity. }
    split; [reflexivity|]. split.
    { unfold tsub, map2, broadcast_shapes. cbn [shape]. rewrite Hy. run_broadcast.
      reflexivity. }
    intros i j Hi Hj.
    cbn [val bidx rev app bidx_rev Nat.eqb nth set_at firstn skipn shape].
    rewrite !(unit_index n i Hi).
    destruct j as [|[|[|j]]]; try lia; reflexivity.
  - unfold reconstruction_loss, reconstruction_frame_loss, index_cols, tsub, map2, rank,
      broadcast_shapes.
    rewrite Ho, Hy. run_broadcast.
    unfold tmean, tmap, numel. cbn [shape val fold_right sum_all].
    replace (n * (3 * 1) =? 0) with false by (symmetry; apply Nat.eqb_neq; lia).
    eexists. split; [reflexivity|]. do 3 f_equal.
    apply Rsum_ext. intros i Hi.
    cbn [Rsum bidx rev app bidx_rev Nat.eqb nth set_at firstn skipn].
    rewrite !(unit_index n i Hi). lra.
  - intros fo fy Hl. do 2 eexists.
    rewrite !fsub_rows_same_length by (rewrite ?length_map; exact Hl).
    split; [reflexivity|]. split; [reflexivity|].
    apply differences_permuted.
Qed.

Lemma permutations_agree_witness :
  let o := tensor2 [[1; 2; 3]; [4; 5; 6]]%R in
  let y := tensor2 [[0; 1; 0]; [2; 0; 2]]%R in
  (exists m, reconstruction_loss o y = Ok (Some m) /\
             reconstruction_frame_loss o y = Ok (Some m))
  /\
  (exists d1 d2,
     fsub_rows f64_prediction (map cols_120 f64_target) = Ok d1 /\
     fsub_rows (map cols_201 f64_prediction) f64_target = Ok d2 /\
     d2 = map cols_201 d1).
Proof.
  cbv zeta.
  destruct (permutations_agree (tensor2 [[1; 2; 3]; [4; 5; 6]]%R)
              (tensor2 [[0; 1; 0]; [2; 0; 2]]%R) 2) as (_ & _ & _ & Hm & Hf).
  - lia.
  - reflexivity.
  - reflexivity.
  - split; [exact Hm|]. apply Hf. reflexivity.
Defined.

(** C9, the claim as stated, fails in the 64-bit floats of the code: for the
    prediction (0.2, 0.3, 0.1) and the target zero, the training loss adds
    (0.2 + 0.3) + 0.1 and gives 0.19999999999999998, the reading of the
    reconstruction adds (0.1 + 0.2) + 0.3 and gives 0.20000000000000004. *)
Lemma permuted_means_differ :
  reconstruction_loss_f64 f64_prediction f64_target = Ok 0x1.9999999999999p-3%float /\
  reconstruction_frame_loss_f64 f64_prediction f64_target = Ok 0x1.999999999999bp-3%float /\
  PrimFloat.eqb 0x1.9999999999999p-3 0x1.999999999999bp-3 = false.
Proof.
  split; [vm_compute; reflexivity|]. split; [vm_compute; reflexivity|].
  vm_compute. reflexivity.
Qed.

(** The sums of the three numbers of the example in the order of the training
    loss and in the order of the reconstruction differ, whether a row is added
    up from its first entry or from its last. *)
Example two_orders_of_addition :
  let a := 0x1.999999999999ap-3%float in
  let b := 0x1.3333333333333p-2%float in
  let c := 0x1.999999999999ap-4%float in
  PrimFloat.add (PrimFloat.add a b) c = 0x1.3333333333333p-1%float /\
  PrimFloat.add (PrimFloat.add c a) b = 0x1.3333333333334p-1%float /\
  PrimFloat.add a (PrimFloat.add b c) = 0x1.3333333333334p-1%float /\
  PrimFloat.add c (PrimFloat.add a b) = 0x1.3333333333333p-1%float.
Proof. cbv zeta. repeat split; vm_compute; reflexivity. Qed.

(** ** The alignment step *)

(** The first entry of a stable sort is the earliest entry of minimal key. *)
Lemma sorted_head {A : Type} (key : A -> R) (l : list A) :
  l <> [] ->
  exists pre e post rest, l = pre ++ e :: post /\ sorted key l = e :: rest /\
    (forall x, In x pre -> (key e < key x)%R) /\
    (forall x, In x post -> (key e <= key x)%R).
Proof.
  induction l as [|a l IH]; [congruence|]. intros _.
  destruct l as [|b l'].
  - exists [], a, [], []. simpl. repeat split; intros x [].
  - destruct IH as (pre & e & post & rest & El & Es & Hpre & Hpost); [discriminate|].
    change (sorted key (a :: b :: l')) with (insert_sorted key a (sorted key (b :: l'))).
    rewrite Es. simpl. destruct (Rle_dec (key a) (key e)) as [Hle|Hgt].
    + exists [], a, (b :: l'), (e :: rest). repeat split; [intros x []|].
      intros x Hx. rewrite El in Hx. apply in_app_or in Hx as [Hx|[<-|Hx]]; auto.
      * specialize (Hpre x Hx). lra.
      * specialize (Hpost x Hx). lra.
    + exists (a :: pre), e, post, (insert_sorted key a rest). rewrite El.
      repeat split; auto. intros x [<-|Hx]; auto. lra.
Qed.

(** Entries of equal key keep their order. *)
Example sorted_is_stable :
  sorted (fun p : R * nat => fst p) [(2%R, 0); (1%R, 1); (2%R, 2); (1%R, 3)]
  = [(1%R, 1); (1%R, 3); (2%R, 0); (2%R, 2)].
Proof.
  unfold sorted. cbn [fold_right].
  repeat (progress (cbn [insert_sorted fst];
    repeat match goal with
    | |- context [Rle_dec ?a ?b] => destruct (Rle_dec a b); try (exfalso; lra)
    end)).
  reflexivity.
Qed.

Lemma in_combine_seq {A : Type} (l : list A) :
  forall k i x, In (i, x) (combine (seq k (length l)) l) ->
    k <= i /\ nth_error l (i - k) = Some x.
Proof.
  induction l as [|a l IH]; simpl; intros k i x H; [contradiction|].
  destruct H as [H|H].
  - inversion H; subst. rewrite Nat.sub_diag. split; auto.
  - apply IH in H as [Hk Hn]. split; [lia|].
    replace (i - k) with (S (i - S k)) by lia. exact Hn.
Qed.

Section AlignmentFacts.

Variable search : Structure -> Vec3 -> R -> list Neighbor.

Lemma displacement_no_sites s62 site :
  sites s62 = [] -> displacement search s62 site = Raise ValueError.
Proof. intros H. unfold displacement, sites_in_sphere. rewrite H. reflexivity. Qed.

Lemma displacement_unfold s62 site :
  sites s62 <> [] ->
  displacement search s62 site
  = match sorted nn_distance (search s62 (coords site) 1%R) with
    | [] => Raise IndexError
    | first :: _ => Ok (vsub (coords (nn_site first)) (coords site))
    end.
Proof.
  intros H. unfold displacement, sites_in_sphere.
  destruct (sites s62); [congruence|reflexivity].
Qed.

Lemma displacement_raises s62 site :
  sites s62 <> [] -> search s62 (coords site) 1%R = [] ->
  displacement search s62 site = Raise IndexError.
Proof. intros Hne H. rewrite displacement_unfold by exact Hne. rewrite H. reflexivity. Qed.

Lemma displacement_only_index_error s62 site e :
  sites s62 <> [] -> displacement search s62 site = Raise e -> e = IndexError.
Proof.
  intros Hne. rewrite displacement_unfold by exact Hne.
  destruct (sorted nn_distance _); intros H; congruence.
Qed.

Lemma mapM_no_sites s62 l :
  sites s62 = [] -> l <> [] -> mapM (displacement search s62) l = Raise ValueError.
Proof.
  intros H Hl. destruct l as [|a l]; [congruence|]. simpl.
  rewrite (displacement_no_sites s62 a H). reflexivity.
Qed.

Lemma mapM_raises s62 l site :
  sites s62 <> [] ->
  In site l -> displacement search s62 site = Raise IndexError ->
  mapM (displacement search s62) l = Raise IndexError.
Proof.
  intros Hne.
  induction l as [|a l IH]; intros Hin Hr; [contradiction|]. simpl.
  destruct (displacement search s62 a) eqn:Ea; simpl.
  - destruct Hin as [->|Hin]; [congruence|]. rewrite IH; auto.
  - f_equal. eapply displacement_only_index_error; eauto.
Qed.

Lemma displacement_ok s62 site :
  sites s62 <> [] ->
  search s62 (coords site) 1%R <> [] ->
  exists e, first_nearest (search s62 (coords site) 1%R) e /\
    displacement search s62 site = Ok (vsub (coords (nn_site e)) (coords site)).
Proof.
  intros Hs Hne.
  destruct (sorted_head nn_distance _ Hne) as (pre & e & post & rest & El & Es & H1 & H2).
  exists e. split; [exists pre, post; auto|].
  rewrite displacement_unfold by exact Hs. rewrite Es. reflexivity.
Qed.

Lemma mapM_displacement_ok s62 l :
  sites s62 <> [] ->
  (forall site, In site l -> search s62 (coords site) 1%R <> []) ->
  exists vecs, mapM (displacement search s62) l = Ok vecs /\
    length vecs = length l /\
    forall i site, nth_error l i = Some site ->
      exists e, first_nearest (search s62 (coords site) 1%R) e /\
        nth_error vecs i = Some (vsub (coords (nn_site e)) (coords site)).
Proof.
  intros Hs.
  induction l as [|a l IH]; intros H.
  - exists []. simpl. repeat split. intros [|i] site Hi; discriminate.
  - destruct IH as (vecs & E & Hlen & Hv); [intros; apply H; right; auto|].
    destruct (displacement_ok s62 a Hs) as (e & He & Ed); [apply H; left; auto|].
    eexists. simpl. rewrite Ed. simpl. rewrite E. simpl. split; [reflexivity|].
    split; [simpl; lia|].
    intros [|i] site Hi; simpl in *.
    + inversion Hi; subst. exists e. split; auto.
    + apply Hv; auto.
Qed.

(** An entry that the search vouches for is an image of a site, so the
    structure searched has sites. *)
Lemma search_sound_has_sites s pt r found e :
  search_sound s pt r found -> In e found -> sites s <> [].
Proof.
  intros Hs Hin Hnil. destruct (Hs e Hin) as (sj & Hj & _).
  rewrite Hnil in Hj. destruct (nn_index e); discriminate.
Qed.

(** C4, as amended.  When the search of radius 1 Angstrom around every
    reference atom returns a non-empty list of sites, each within the radius
    plus the tolerance [tol] of the search, the alignment step returns one
    displacement per reference atom: the vector from the atom to the nearest
    site that the search returned, whichever site of the distorted structure
    it is an image of (the index of the reference atom is not consulted);
    among equally near entries the one the search listed first is taken.
    Hence no displacement is longer than the vector to any other returned
    site, and every displacement is shorter than the radius plus the
    tolerance. *)
Theorem alignment_nearest_site (struct_221 struct_62 : Structure) (tol : R) :
  sites struct_221 <> [] ->
  (forall site, In site (sites struct_221) ->
     search struct_62 (coords site) 1%R <> [] /\
     search_sound struct_62 (coords site) (1 + tol)%R
       (search struct_62 (coords site) 1%R)) ->
  exists vecs, relative_vecs search struct_221 struct_62 = Ok vecs /\
    length vecs = length (sites struct_221) /\
    forall i site, nth_error (sites struct_221) i = Some site ->
      exists e v, first_nearest (search struct_62 (coords site) 1%R) e /\
        nth_error vecs i = Some v /\
        v = vsub (coords (nn_site e)) (coords site) /\
        (forall e', In e' (search struct_62 (coords site) 1%R) ->
           (vnorm v <= vnorm (vsub (coords (nn_site e')) (coords site)))%R) /\
        (vnorm v < 1 + tol)%R.
Proof.
  intros Hne H.
  assert (Hs62 : sites struct_62 <> []).
  { destruct (sites struct_221) as [|a l] eqn:Ea; [congruence|].
    destruct (H a (or_introl eq_refl)) as [Hn Hs].
    destruct (search struct_62 (coords a) 1%R) as [|e0 l0] eqn:E0; [congruence|].
    apply (search_sound_has_sites _ _ _ _ e0 Hs). left. reflexivity. }
  destruct (mapM_displacement_ok struct_62 (sites struct_221) Hs62) as (vecs & E & Hlen & Hv).
  { intros site Hs. apply H; auto. }
  exists vecs. unfold relative_vecs. rewrite E. simpl.
  split.
  { destruct vecs; [|reflexivity]. destruct (sites struct_221); [congruence|discriminate]. }
  split; auto.
  intros i site Hi. destruct (Hv i site Hi) as (e & He & Hn).
  exists e, (vsub (coords (nn_site e)) (coords site)).
  destruct (H site (nth_error_In _ _ Hi)) as [_ Hs].
  destruct He as (pre & post & El & Hpre & Hpost).
  assert (Hin : In e (search struct_62 (coords site) 1%R)).
  { rewrite El. apply in_or_app. right. left. reflexivity. }
  destruct (Hs e Hin) as (sj & _ & _ & Hd & Hlt).
  split; [exists pre, post; auto|]. split; [exact Hn|]. split; [reflexivity|]. split.
  - intros e' Hin'. destruct (Hs e' Hin') as (sj' & _ & _ & Hd' & _).
    rewrite <- Hd, <- Hd'. rewrite El in Hin'.
    apply in_app_or in Hin' as [Hx|[<-|Hx]].
    + apply Rlt_le, Hpre, Hx.
    + lra.
    + apply Hpost, Hx.
  - rewrite <- Hd. exact Hlt.
Qed.

(** C6, as amended.  If no site of the distorted structure, periodic images
    included, lies within the search radius of 1 Angstrom plus the tolerance
    [tol] of the search around some reference atom, the alignment step raises
    and returns no displacement array: an IndexError, from indexing the empty
    sorted list, or the ValueError of the search when the distorted structure
    has no site at all. *)
Theorem alignment_raises (struct_221 struct_62 : Structure) (site : Site) (tol : R) :
  In site (sites struct_221) ->
  search_sound struct_62 (coords site) (1 + tol)%R (search struct_62 (coords site) 1%R) ->
  no_site_within struct_62 (coords site) (1 + tol)%R ->
  relative_vecs search struct_221 struct_62
  = Raise (match sites struct_62 with [] => ValueError | _ :: _ => IndexError end) /\
  forall vecs, relative_vecs search struct_221 struct_62 <> Ok vecs.
Proof.
  intros Hin Hs Hno.
  assert (E : search struct_62 (coords site) 1%R = []).
  { destruct (search struct_62 (coords site) 1%R) as [|e l] eqn:E; auto.
    destruct (Hs e (or_introl eq_refl)) as (sj & Hj & Hc & Hd & Hlt).
    exfalso. apply (Hno _ _ (nn_image e) Hj). rewrite <- Hc, <- Hd. exact Hlt. }
  assert (R1 : relative_vecs search struct_221 struct_62
               = Raise (match sites struct_62 with [] => ValueError | _ :: _ => IndexError end)).
  { unfold relative_vecs. destruct (sites struct_62) as [|s0 l0] eqn:E62.
    - rewrite mapM_no_sites; [reflexivity|exact E62|].
      intros Hnil. rewrite Hnil in Hin. exact Hin.
    - rewrite (mapM_raises struct_62 _ site); [reflexivity| |exact Hin|].
      + rewrite E62. discriminate.
      + apply displacement_raises; [rewrite E62; discriminate|exact E]. }
  split; auto. intros vecs. rewrite R1. discriminate.
Qed.

End AlignmentFacts.

(** The home-cell search and the example structures. *)

Lemma translate_home latt p : translate latt p (0, 0, 0)%Z = p.
Proof.
  destruct latt as [[[[a1 a2] a3] [[b1 b2] b3]] [[c1 c2] c3]].
  destruct p as [[x y] z]. unfold translate, vadd, scale3. simpl.
  f_equal; [f_equal|]; ring.
Qed.

Lemma home_cell_search_sound s pt r : search_sound s pt r (home_cell_search s pt r).
Proof.
  intros e Hin. unfold home_cell_search in Hin.
  apply filter_In in Hin as [Hin Hlt].
  apply in_map_iff in Hin as ([i sj] & <- & Hin).
  apply in_combine_seq in Hin as [_ Hn]. rewrite Nat.sub_0_r in Hn.
  exists sj. cbn [nn_index nn_site nn_distance nn_image fst snd] in *.
  split; [exact Hn|]. split; [symmetry; apply translate_home|]. split; [reflexivity|].
  destruct (Rlt_dec _ _); [assumption|discriminate].
Qed.

Lemma tolerant_search_sound s pt r :
  search_sound s pt (r + numerical_tol)%R (tolerant_search s pt r).
Proof. apply home_cell_search_sound. Qed.

Lemma vnorm_axis x : vnorm (x, (0 - 0)%R, (0 - 0)%R) = Rabs x.
Proof.
  unfold vnorm. replace (x * x + (0 - 0) * (0 - 0) + (0 - 0) * (0 - 0))%R with (Rsqr x)
    by (unfold Rsqr; ring).
  apply sqrt_Rsqr_abs.
Qed.

Ltac decide_reals :=
  repeat match goal with
  | |- context [Rlt_dec ?a ?b] =>
      destruct (Rlt_dec a b);
      try (exfalso; unfold Rabs, numerical_tol in *; repeat destruct (Rcase_abs _); lra)
  | |- context [Rle_dec ?a ?b] =>
      destruct (Rle_dec a b);
      try (exfalso; unfold Rabs, numerical_tol in *; repeat destruct (Rcase_abs _); lra)
  end.

(** What the loop computes when three sites are returned around each atom,
    one of them at exactly 1 Angstrom and two at the same distance: the
    first atom gets the site listed first among the two nearest. *)
Lemma three_candidates_alignment :
  relative_vecs tolerant_search ref_close distorted_three
  = Ok [ (1 / 10 - 0, 0 - 0, 0 - 0)%R; (1 / 10 - 1 / 2, 0 - 0, 0 - 0)%R ].
Proof.
  unfold relative_vecs, ref_close, distorted_three, site_at. cbn [sites mapM].
  unfold displacement, sites_in_sphere, tolerant_search, home_cell_search.
  cbn [sites length seq combine map coords vsub fst snd bind].
  rewrite !vnorm_axis. cbn [filter nn_distance].
  repeat (progress (cbn [sorted fold_right insert_sorted nn_distance]; decide_reals)).
  reflexivity.
Qed.

Lemma three_candidates_found site :
  In site (sites ref_close) ->
  length (tolerant_search distorted_three (coords site) 1%R) = 3.
Proof.
  intros [<-|[<-|[]]];
    unfold tolerant_search, home_cell_search, distorted_three, site_at;
    cbn [sites length seq combine map coords vsub fst snd];
    rewrite !vnorm_axis; cbn [filter nn_distance]; decide_reals; reflexivity.
Qed.

Lemma alignment_nearest_site_witness :
  relative_vecs tolerant_search ref_close distorted_three
  = Ok [ (1 / 10 - 0, 0 - 0, 0 - 0)%R; (1 / 10 - 1 / 2, 0 - 0, 0 - 0)%R ] /\
  exists vecs, relative_vecs tolerant_search ref_close distorted_three = Ok vecs /\
    length vecs = length (sites ref_close) /\
    forall i site, nth_error (sites ref_close) i = Some site ->
      exists e v, first_nearest (tolerant_search distorted_three (coords site) 1%R) e /\
        nth_error vecs i = Some v /\
        v = vsub (coords (nn_site e)) (coords site) /\
        (forall e', In e' (tolerant_search distorted_three (coords site) 1%R) ->
           (vnorm v <= vnorm (vsub (coords (nn_site e')) (coords site)))%R) /\
        (vnorm v < 1 + numerical_tol)%R.
Proof.
  split; [exact three_candidates_alignment|].
  apply (alignment_nearest_site tolerant_search ref_close distorted_three numerical_tol).
  - discriminate.
  - intros site Hin. split.
    + intros Hnil. pose proof (three_candidates_found site Hin) as Hl.
      rewrite Hnil in Hl. discriminate.
    + apply tolerant_search_sound.
Defined.

(** What the loop computes on the structure that lists its sites in the
    other order. *)
Lemma swapped_alignment :
  relative_vecs home_cell_search ref_close distorted_swapped
  = Ok [ (1 / 10 - 0, 0 - 0, 0 - 0)%R; (3 / 5 - 1 / 2, 0 - 0, 0 - 0)%R ].
Proof.
  unfold relative_vecs, ref_close, distorted_swapped, site_at. cbn [sites mapM].
  unfold displacement, sites_in_sphere, home_cell_search.
  cbn [sites length seq combine map coords vsub fst snd bind].
  rewrite !vnorm_axis. cbn [filter nn_distance].
  decide_reals. cbn [sorted fold_right insert_sorted nn_distance].
  decide_reals. reflexivity.
Qed.

(** C4, the claim as stated, fails: with the sites of the distorted structure
    within reach but listed in the other order, the loop returns for the
    first reference atom the vector to the site of index 1 (at 1/10), not to
    the corresponding site of index 0 (at 3/5). *)
Lemma alignment_ignores_site_index :
  relative_vecs home_cell_search ref_close distorted_swapped
  = Ok [ (1 / 10 - 0, 0 - 0, 0 - 0)%R; (3 / 5 - 1 / 2, 0 - 0, 0 - 0)%R ] /\
  ~ aligned_by_index home_cell_search ref_close distorted_swapped
      [ (1 / 10 - 0, 0 - 0, 0 - 0)%R; (3 / 5 - 1 / 2, 0 - 0, 0 - 0)%R ].
Proof.
  split; [exact swapped_alignment|].
  intros H. destruct (H 0 (site_at "A" 0) eq_refl) as (e & Hin & Hidx & Hv & _).
  unfold home_cell_search in Hin. apply filter_In in Hin as [Hin _].
  apply in_map_iff in Hin as ([i sj] & <- & Hin).
  cbn [nn_index nn_site fst snd] in *. subst i.
  simpl in Hin. destruct Hin as [Hin|[Hin|[]]]; [|discriminate].
  inversion Hin; subst sj. simpl in Hv. inversion Hv. lra.
Qed.

(** The images of a site on the first axis of the 10 Angstrom cubic cell, seen
    from the origin: none is nearer than the nearer of the site itself and
    its left neighbour. *)
Lemma axis_images_beyond (x y z d : R) (img : Z * Z * Z) :
  (0 <= d)%R -> (d <= x)%R -> (x <= 10 - d)%R ->
  (d <= vnorm (vsub (translate (cubic 10) (x, y, z) img) (0, 0, 0)))%R.
Proof.
  intros Hd Hx1 Hx2. destruct img as [[a b] c].
  unfold cubic, translate, vadd, scale3, vsub, vnorm.
  rewrite <- (sqrt_Rsqr d Hd). apply sqrt_le_1_alt. unfold Rsqr.
  match goal with
  | |- (_ <= ?X * ?X + ?Y * ?Y + ?Z * ?Z)%R =>
      pose proof (Rle_0_sqr Y) as HY; pose proof (Rle_0_sqr Z) as HZ;
      assert (HX : (d * d <= X * X)%R)
  end.
  { destruct (Z_le_gt_dec 0 a) as [Ha|Ha].
    - apply IZR_le in Ha. nra.
    - assert (Ha' : (a <= -1)%Z) by lia. apply IZR_le in Ha'. nra. }
  unfold Rsqr in HY, HZ. lra.
Qed.

Lemma far_single_out_of_reach r :
  (r <= 5)%R -> no_site_within far_single (coords (site_at "A" 0)) r.
Proof.
  intros Hr j sj img Hn Hlt.
  destruct j as [|j]; [|destruct j; discriminate].
  inversion Hn; subst sj. clear Hn.
  pose proof (axis_images_beyond 5 5 5 5 img ltac:(lra) ltac:(lra) ltac:(lra)) as H.
  unfold far_single, site_at in Hlt. cbn [lattice coords] in Hlt. lra.
Qed.

Lemma alignment_raises_witness :
  relative_vecs tolerant_search ref_single far_single = Raise IndexError /\
  forall vecs, relative_vecs tolerant_search ref_single far_single <> Ok vecs.
Proof.
  apply (alignment_raises tolerant_search ref_single far_single (site_at "A" 0) numerical_tol).
  - left. reflexivity.
  - apply tolerant_search_sound.
  - apply far_single_out_of_reach. unfold numerical_tol. lra.
Defined.

(** C6, the claim as stated, fails: the only site of the distorted structure
    lies at 1.000000001 Angstrom from the reference atom, and every periodic
    image of it is farther than 1 Angstrom; the search, which keeps sites up to
    its tolerance beyond the radius, returns it, and the loop yields a
    displacement without raising. *)
Lemma alignment_silent_beyond_radius :
  all_images_beyond just_outside (coords (site_at "A" 0)) 1%R /\
  relative_vecs tolerant_search ref_single just_outside
  = Ok [ (1 + 1 / 1000000000 - 0, 0 - 0, 0 - 0)%R ].
Proof.
  split.
  - intros j sj img Hn.
    destruct j as [|j]; [|destruct j; discriminate].
    inversion Hn; subst sj. clear Hn.
    pose proof (axis_images_beyond (1 + 1 / 1000000000) 0 0 (1 + 1 / 1000000000) img
                  ltac:(lra) ltac:(lra) ltac:(lra)) as H.
    unfold just_outside, site_at. cbn [lattice coords]. unfold site_at in H. lra.
  - unfold relative_vecs, ref_single, just_outside, site_at. cbn [sites mapM].
    unfold displacement, sites_in_sphere, tolerant_search, home_cell_search.
    cbn [sites length seq combine map coords vsub fst snd bind].
    rewrite !vnorm_axis. cbn [filter nn_distance].
    decide_reals. cbn [sorted fold_right insert_sorted nn_distance]. reflexivity.
Qed.

(** ** The two phases of the training loop *)

Section TrainingFacts.

Variables (Wts Ord SW SO : Type).
Variable addW : Wts -> Wts -> Wts.
Variable addO : Ord -> Ord -> Ord.
Variable zeroW : Wts -> Wts.
Variable zeroO : Ord -> Ord.
Variable model_loss_grads : Wts -> Ord -> Wts * Ord.
Variable order_loss_grads : Wts -> Ord -> Wts * Ord.
Variable adam_w : SW -> Wts -> Wts -> SW * Wts.
Variable adam_o : SO -> Ord -> Ord -> SO * Ord.

(** Adding a gradient to a cleared buffer gives the gradient. *)
Hypothesis addW_zero : forall z g, addW (zeroW z) g = g.
Hypothesis addO_zero : forall z g, addO (zeroO z) g = g.

Lemma train_succ (k : nat) (s : TrainState Wts Ord SW SO) :
  train addW addO zeroW zeroO model_loss_grads order_loss_grads adam_w adam_o (S k) s
  = iteration addW addO zeroW zeroO model_loss_grads order_loss_grads adam_w adam_o
      (train addW addO zeroW zeroO model_loss_grads order_loss_grads adam_w adam_o k s).
Proof.
  revert s. induction k as [|k IH]; intros s; [reflexivity|].
  change (train addW addO zeroW zeroO model_loss_grads order_loss_grads adam_w adam_o
            (S (S k)) s)
    with (train addW addO zeroW zeroO model_loss_grads order_loss_grads adam_w adam_o
            (S k) (iteration addW addO zeroW zeroO model_loss_grads order_loss_grads
                     adam_w adam_o s)).
  rewrite IH. reflexivity.
Qed.

(** C1, as amended.  In every iteration of the loop (the one that follows
    [k] completed iterations, from any initial state) the model-update phase
    applies one optimizer step to the network weights, with the gradient of
    the reconstruction loss in the weights, and leaves the order parameters
    and their optimizer unchanged; the order-update phase that follows
    applies one optimizer step to the order parameters, with the gradient of
    its loss in the order parameters, and leaves the weights and their
    optimizer unchanged.  The backward pass of either phase reaches both
    groups: it adds to the gradient buffer of the group that is not stepped
    as well. *)
Theorem phases_step_their_own_parameters (s0 : TrainState Wts Ord SW SO) (k : nat) :
  let s :=
    train addW addO zeroW zeroO model_loss_grads order_loss_grads adam_w adam_o k s0 in
  let s1 := model_update addW addO zeroW model_loss_grads adam_w s in
  let s2 := order_update addW addO zeroO order_loss_grads adam_o s1 in
  let gm := model_loss_grads (weights s) (order_param s) in
  let go := order_loss_grads (weights s1) (order_param s1) in
  train addW addO zeroW zeroO model_loss_grads order_loss_grads adam_w adam_o (S k) s0
  = s2 /\
  ((opt s1, weights s1) = adam_w (opt s) (weights s) (fst gm) /\
   order_param s1 = order_param s /\
   order_opt s1 = order_opt s /\
   order_grad s1 = accumulate addO (order_grad s) (snd gm)) /\
  ((order_opt s2, order_param s2) = adam_o (order_opt s1) (order_param s1) (snd go) /\
   weights s2 = weights s1 /\
   opt s2 = opt s1 /\
   weights_grad s2 = accumulate addW (weights_grad s1) (fst go)).
Proof.
  cbv zeta. split; [apply train_succ|].
  generalize (train addW addO zeroW zeroO model_loss_grads order_loss_grads
                adam_w adam_o k s0).
  intros s. split.
  - destruct s as [w gw o go sw so].
    unfold model_update, opt_step, backward, opt_zero_grad. cbn.
    destruct gw as [gw|]; cbn; rewrite ?addW_zero;
      destruct (adam_w _ _ _) as [st w']; cbn; auto.
  - generalize (model_update addW addO zeroW model_loss_grads adam_w s).
    intros [w gw o go sw so].
    unfold order_update, order_opt_step, backward, order_opt_zero_grad. cbn.
    destruct go as [go|]; cbn; rewrite ?addO_zero;
      destruct (adam_o _ _ _) as [st o']; cbn; auto.
Qed.

End TrainingFacts.

Lemma phases_step_their_own_parameters_witness :
  let s := toy_train 1 toy_initial in
  let s1 := toy_model_update s in
  let s2 := toy_order_update s1 in
  let gm := toy_model_grads (weights s) (order_param s) in
  let go := toy_order_grads (weights s1) (order_param s1) in
  toy_train 2 toy_initial = s2 /\
  ((opt s1, weights s1) = toy_step (opt s) (weights s) (fst gm) /\
   order_param s1 = order_param s /\
   order_opt s1 = order_opt s /\
   order_grad s1 = accumulate Z.add (order_grad s) (snd gm)) /\
  ((order_opt s2, order_param s2) = toy_step (order_opt s1) (order_param s1) (snd go) /\
   weights s2 = weights s1 /\
   opt s2 = opt s1 /\
   weights_grad s2 = accumulate Z.add (weights_grad s1) (fst go)).
Proof.
  cbv zeta.
  apply (phases_step_their_own_parameters Z Z nat nat Z.add Z.add toy_zero toy_zero
           toy_model_grads toy_order_grads toy_step toy_step).
  - intros z g. unfold toy_zero. lia.
  - intros z g. unfold toy_zero. lia.
Defined.

(** C1, the claim as stated, fails: backpropagation is not confined to the
    group that is stepped.  On the scalar stand-in, the first model-update
    phase leaves a gradient of 3 in the order parameter, which had none, and
    the order-update phase of the second iteration moves the gradient of the
    weight from -4 to -8. *)
Lemma backward_reaches_both_groups :
  let s1 := toy_model_update toy_initial in
  let s3 := toy_model_update (toy_train 1 toy_initial) in
  (order_grad toy_initial = None /\ order_grad s1 = Some 3%Z /\
   order_grad s1 <> order_grad toy_initial)
  /\
  (weights_grad s3 = Some (-4)%Z /\ weights_grad (toy_order_update s3) = Some (-8)%Z /\
   weights_grad (toy_order_update s3) <> weights_grad s3).
Proof.
  cbv zeta. split; (split; [reflexivity|]; split; [reflexivity|]); vm_compute; discriminate.
Qed.

(** ** Reconstruction *)

Lemma cart_coords_row (s : Structure) i site :
  nth_error (sites s) i = Some site ->
  (val (cart_coords s) [i; 0], val (cart_coords s) [i; 1], val (cart_coords s) [i; 2])
  = coords site.
Proof.
  intros H. unfold cart_coords, tensor_of_vecs, tensor2. cbn [val nth].
  rewrite map_map.
  rewrite (nth_indep _ [] ((fun x => let '(x0, y, z) := coords x in [x0; y; z]) site)).
  2:{ rewrite length_map. apply nth_error_Some. congruence. }
  rewrite (map_nth (fun x => let '(x0, y, z) := coords x in [x0; y; z])).
  rewrite (nth_error_nth _ _ _ H).
  destruct (coords site) as [[x y] z]. reflexivity.
Qed.

Lemma nth_error_indexed {A B : Type} (f : nat -> A -> B) (l : list A) :
  forall k i a, nth_error l i = Some a ->
    nth_error (map (fun p => f (fst p) (snd p)) (combine (seq k (length l)) l)) i
    = Some (f (k + i) a).
Proof.
  induction l as [|x l IH]; intros k [|i] a H; simpl in *; try discriminate.
  - inversion H; subst. rewrite Nat.add_0_r. reflexivity.
  - rewrite (IH (S k) i a H). f_equal. f_equal. lia.
Qed.

Section ReconstructionFacts.

Variable detector : Structure -> R -> nat.

(** C5. The reconstructed structure has, atom for atom, the Cartesian
    coordinates of the reference structure plus the predicted displacement
    read with the axis permutation [2, 0, 1] (species and order of the atoms
    are those of the reference, the lattice is the rotated one); the space
    group reported is the answer of the symmetry detector on that
    structure. *)
Theorem reconstruction_adds_permuted_output
  (new_lattice : Vec3 * Vec3 * Vec3) (struct_221 : Structure) (output : Tensor)
  (symprec : R) :
  shape output = [length (sites struct_221); 3] ->
  exists s, new_struct new_lattice struct_221 output = Ok s /\
    lattice s = new_lattice /\
    length (sites s) = length (sites struct_221) /\
    (forall i site, nth_error (sites struct_221) i = Some site ->
       nth_error (sites s) i =
       Some (mkSite (species site)
               (vadd (coords site)
                  (val output [i; 2], val output [i; 0], val output [i; 1])))) /\
    recovered_space_group detector new_lattice struct_221 output symprec
    = Ok (detector s symprec).
Proof.
  intros Ho.
  assert (Hc : shape (cart_coords struct_221) = [length (sites struct_221); 3])
    by reflexivity.
  assert (E : exists s, new_struct new_lattice struct_221 output = Ok s /\
    lattice s = new_lattice /\
    length (sites s) = length (sites struct_221) /\
    (forall i site, nth_error (sites struct_221) i = Some site ->
       nth_error (sites s) i =
       Some (mkSite (species site)
               (vadd (coords site)
                  (val output [i; 2], val output [i; 0], val output [i; 1]))))).
  { unfold new_struct, index_cols, tadd, map2, rank, broadcast_shapes.
    rewrite Ho, Hc. run_broadcast.
    unfold make_structure. cbn [shape]. rewrite length_map, shape_eqb_refl. cbn [bind].
    eexists. split; [reflexivity|]. cbn [lattice sites]. split; [reflexivity|].
    split.
    { rewrite length_map, length_combine, length_seq, !length_map. lia. }
    intros i site Hi.
    assert (Hlt : i < length (sites struct_221)) by (apply nth_error_Some; congruence).
    assert (Hsp : nth_error (map species (sites struct_221)) i = Some (species site))
      by (rewrite nth_error_map, Hi; reflexivity).
    rewrite <- (length_map species (sites struct_221)) at 1.
    rewrite (nth_error_indexed (fun k sp => mkSite sp (row3 _ k)) _ 0 i _ Hsp).
    cbn [Nat.add]. f_equal. f_equal.
    unfold row3. cbn [val bidx rev app bidx_rev Nat.eqb nth set_at firstn skipn].
    rewrite !(unit_index _ i Hlt).
    rewrite <- (cart_coords_row struct_221 i site Hi). reflexivity. }
  destruct E as (s & E & H1 & H2 & H3). exists s. repeat split; auto.
  unfold recovered_space_group. rewrite E. reflexivity.
Qed.

End ReconstructionFacts.

Lemma reconstruction_adds_permuted_output_witness :
  let output := tensor2 [[1; 2; 3]; [4; 5; 6]]%R in
  let detector := fun (_ : Structure) (_ : R) => 62 in
  exists s, new_struct (cubic 10) ref_pair output = Ok s /\
    lattice s = cubic 10 /\
    length (sites s) = length (sites ref_pair) /\
    (forall i site, nth_error (sites ref_pair) i = Some site ->
       nth_error (sites s) i =
       Some (mkSite (species site)
               (vadd (coords site)
                  (val output [i; 2], val output [i; 0], val output [i; 1])))) /\
    recovered_space_group detector (cubic 10) ref_pair output (1 / 100)
    = Ok (detector s (1 / 100)%R).
Proof.
  cbv zeta.
  apply (reconstruction_adds_permuted_output (fun _ _ => 62) (cubic 10) ref_pair
           (tensor2 [[1; 2; 3]; [4; 5; 6]]%R) (1 / 100)).
  reflexivity.
Defined.

(** * Further properties *)

(** ** More on the feature composer *)

Lemma kvec_block_rows (kvecs pseudo coords : Tensor) (K n : nat) :
  shape kvecs = [K; 3] -> shape pseudo = [K; 3] -> shape coords = [n; 3] ->
  exists t, kvec_block kvecs pseudo coords = Ok t /\ shape t = [n; 3] /\
    forall r c, r < n -> c < 3 ->
      val t [r; c]
      = Rsum K (fun k => cos (2 * PI * kvec_phase kvecs coords k r) * val pseudo [k; c])%R.
Proof.
  intros Hk Hp Hc.
  unfold kvec_block, index_cols, unsqueeze, tmul, map2, tsum, tmap, rank, broadcast_shapes.
  rewrite Hc, Hk, Hp. run_broadcast.
  eexists. split; [reflexivity|]. cbn [shape val remove_at firstn skipn app nth].
  split; [reflexivity|].
  intros r c Hr Hc3. unfold kvec_phase.
  apply Rsum_ext. intros k Hk'.
  cbn [insert_at firstn skipn app bidx rev bidx_rev Nat.eqb remove_at set_at nth].
  cbn [Rsum]. rewrite !(unit_index K k Hk'), !(unit_index n r Hr).
  f_equal. f_equal. field.
Qed.

(** Every entry of the k-vector composer's output. *)
Lemma create_features_kvec_entries atom_indices Rs (kvecs pseudo coords : Tensor) (K : nat) :
  4 <= N_atoms atom_indices -> Forall (fun a => a < 3) atom_indices -> rs_dim Rs = 3 ->
  shape kvecs = [K; 3] -> shape pseudo = [K; 3] -> shape coords = [4; 3] ->
  exists f, create_features_kvec atom_indices Rs kvecs pseudo coords = Ok f /\
    shape f = [N_atoms atom_indices; 6] /\
    (forall i j, i < N_atoms atom_indices -> j < 3 ->
       val f [i; j] = onehot (nth i atom_indices 0) j) /\
    (forall i c, i < N_atoms atom_indices - 4 -> c < 3 -> val f [i; 3 + c] = 0%R) /\
    (forall r c, r < 4 -> c < 3 ->
       val f [N_atoms atom_indices - 4 + r; 3 + c]
       = Rsum K (fun k => cos (2 * PI * kvec_phase kvecs coords k r)
                          * val pseudo [k; c])%R).
Proof.
  intros HN Hai Hd Hk Hp Hc.
  destruct (kvec_block_rows kvecs pseudo coords K 4 Hk Hp Hc) as (t & Et & St & Vt).
  destruct (stitch_ok atom_indices Rs t HN Hai) as (f & Ef & Sf & Of & Zf & Bf).
  { rewrite St, Hd. reflexivity. }
  exists f. unfold create_features_kvec. rewrite Et. cbn [bind].
  rewrite St. cbn [shape_eqb Nat.eqb andb assert bind].
  split; [exact Ef|]. split; [rewrite Sf, Hd; reflexivity|]. split; [exact Of|]. split.
  - intros i c Hi Hc3. apply Zf; lia.
  - intros r c Hr Hc3. rewrite Bf by lia. apply Vt; auto.
Qed.

Lemma create_features_constrained_entries atom_indices Rs (op : Tensor) :
  4 <= N_atoms atom_indices -> Forall (fun a => a < 3) atom_indices -> rs_dim Rs = 3 ->
  shape op = [2; 2] ->
  exists f, create_features_constrained atom_indices Rs op = Ok f /\
    (forall i j, i < N_atoms atom_indices -> j < 3 ->
       val f [i; j] = onehot (nth i atom_indices 0) j) /\
    (forall r, r < 4 ->
       val f [N_atoms atom_indices - 4 + r; 3] = val op [r mod 2; 0] /\
       val f [N_atoms atom_indices - 4 + r; 4] = 0%R /\
       val f [N_atoms atom_indices - 4 + r; 5] = val op [r mod 2; 1]).
Proof.
  intros HN Hai Hd Hop.
  destruct (constrained_block_ok op Hop) as (t & Et & St & Vt).
  destruct (stitch_ok atom_indices Rs t HN Hai) as (f & Ef & Sf & Of & _ & Bf).
  { rewrite St, Hd. reflexivity. }
  exists f. unfold create_features_constrained. rewrite Et. cbn [bind].
  split; [exact Ef|]. split; [exact Of|].
  intros r Hr. destruct (Vt r Hr) as (V0 & V1 & V2).
  rewrite <- V0, <- V2, <- V1 at 1.
  pose proof (Bf r 0 Hr ltac:(lia)) as B0.
  pose proof (Bf r 1 Hr ltac:(lia)) as B1.
  pose proof (Bf r 2 Hr ltac:(lia)) as B2.
  cbn [Nat.add] in B0, B1, B2. repeat split; assumption.
Qed.

(** X1. In all three variants of [create_features] the first three columns of
    every row are the one-hot encoding of the atom's type: 1 in the column of
    its index in [atom_indices], 0 in the two others. *)
Theorem atom_type_columns_one_hot (atom_indices : list nat) (Rs : list Irrep) :
  4 <= N_atoms atom_indices -> Forall (fun a => a < 3) atom_indices ->
  (forall op, shape op = [4; rs_dim Rs] ->
     exists f, create_features atom_indices Rs op = Ok f /\
       forall i j, i < N_atoms atom_indices -> j < 3 ->
         val f [i; j] = onehot (nth i atom_indices 0) j)
  /\
  (rs_dim Rs = 3 -> forall op, shape op = [2; 2] ->
     exists f, create_features_constrained atom_indices Rs op = Ok f /\
       forall i j, i < N_atoms atom_indices -> j < 3 ->
         val f [i; j] = onehot (nth i atom_indices 0) j)
  /\
  (rs_dim Rs = 3 -> forall kvecs pseudo coords K,
     shape kvecs = [K; 3] -> shape pseudo = [K; 3] -> shape coords = [4; 3] ->
     exists f, create_features_kvec atom_indices Rs kvecs pseudo coords = Ok f /\
       forall i j, i < N_atoms atom_indices -> j < 3 ->
         val f [i; j] = onehot (nth i atom_indices 0) j).
Proof.
  intros HN Hai. split; [|split].
  - intros op Hop.
    destruct (stitch_ok atom_indices Rs op HN Hai Hop) as (f & Ef & _ & Of & _).
    exists f. split; auto.
  - intros Hd op Hop.
    destruct (create_features_constrained_entries atom_indices Rs op HN Hai Hd Hop)
      as (f & Ef & Of & _).
    exists f. split; auto.
  - intros Hd kvecs pseudo coords K Hk Hp Hc.
    destruct (create_features_kvec_entries atom_indices Rs kvecs pseudo coords K
                HN Hai Hd Hk Hp Hc) as (f & Ef & _ & Of & _).
    exists f. split; auto.
Qed.

(** X2. In the direct variant the rows of the last four atoms carry the
    order-parameter tensor unchanged, to the right of the atom-type columns. *)
Theorem special_rows_carry_order_parameter
  (atom_indices : list nat) (Rs : list Irrep) (op : Tensor) :
  4 <= N_atoms atom_indices -> Forall (fun a => a < 3) atom_indices ->
  shape op = [4; rs_dim Rs] ->
  exists f, create_features atom_indices Rs op = Ok f /\
    forall r c, r < 4 -> c < rs_dim Rs ->
      val f [N_atoms atom_indices - 4 + r; 3 + c] = val op [r; c].
Proof.
  intros HN Hai Hop.
  destruct (stitch_ok atom_indices Rs op HN Hai Hop) as (f & Ef & _ & _ & _ & Bf).
  exists f. split; auto.
Qed.

(** X3. In the constrained variant the block of special site [r] is
    (op[r mod 2][0], 0, op[r mod 2][1]): the middle component is zero for every
    learnable value, and the sites r and r + 2 carry the same block. *)
Theorem constrained_special_rows (atom_indices : list nat) (Rs : list Irrep) (op : Tensor) :
  4 <= N_atoms atom_indices -> Forall (fun a => a < 3) atom_indices -> rs_dim Rs = 3 ->
  shape op = [2; 2] ->
  exists f, create_features_constrained atom_indices Rs op = Ok f /\
    (forall r, r < 4 ->
       val f [N_atoms atom_indices - 4 + r; 3] = val op [r mod 2; 0] /\
       val f [N_atoms atom_indices - 4 + r; 4] = 0%R /\
       val f [N_atoms atom_indices - 4 + r; 5] = val op [r mod 2; 1]) /\
    (forall r c, r < 2 -> c < 3 ->
       val f [N_atoms atom_indices - 4 + (r + 2); 3 + c]
       = val f [N_atoms atom_indices - 4 + r; 3 + c]).
Proof.
  intros HN Hai Hd Hop.
  destruct (create_features_constrained_entries atom_indices Rs op HN Hai Hd Hop)
    as (f & Ef & _ & Vf).
  exists f. split; [exact Ef|]. split; [exact Vf|].
  intros r c Hr Hc.
  destruct (Vf r ltac:(lia)) as (A0 & A1 & A2).
  destruct (Vf (r + 2) ltac:(lia)) as (B0 & B1 & B2).
  assert (Hm : (r + 2) mod 2 = r mod 2).
  { destruct r as [|[|r]]; try lia; reflexivity. }
  rewrite Hm in B0, B2.
  destruct c as [|[|[|c]]]; try lia; cbn [Nat.add]; congruence.
Qed.

(** X4. The setup of the zero padding raises a RuntimeError for a structure of
    fewer than four atoms, and the direct composer raises a RuntimeError for a
    two-dimensional order-parameter tensor whose number of columns is not
    [rs.dim(Rs_order_param)] or, with that number of columns, whose number of
    rows is not 4. *)
Theorem create_features_rejects (atom_indices : list nat) (Rs : list Irrep) (op : Tensor) :
  (N_atoms atom_indices < 4 -> zeros_block atom_indices Rs = Raise RuntimeError)
  /\
  (4 <= N_atoms atom_indices -> Forall (fun a => a < 3) atom_indices ->
     forall m, shape op = [m; rs_dim Rs] -> m <> 4 ->
     create_features atom_indices Rs op = Raise RuntimeError)
  /\
  (4 <= N_atoms atom_indices ->
     forall m c, shape op = [m; c] -> c <> rs_dim Rs ->
     create_features atom_indices Rs op = Raise RuntimeError).
Proof.
  split; [|split].
  - intros HN. unfold zeros_block, zeros. simpl forallb.
    replace (0 <=? Z.of_nat (N_atoms atom_indices) - 4)%Z with false
      by (symmetry; apply Z.leb_gt; lia).
    reflexivity.
  - intros HN Hai m Hop Hm.
    destruct (inputs_ok atom_indices Hai) as (inputs & Ein & Hlen & Hsh & _).
    unfold create_features, stitch. rewrite (zeros_block_ok atom_indices Rs HN). cbn [bind].
    unfold cat at 1. unfold rank. run.
    simpl forallb. rewrite Hop. unfold same_except. simpl shape_eqb.
    rewrite Nat.eqb_refl. simpl andb. cbn [bind].
    rewrite Ein. cbn [bind].
    assert (Hne : inputs <> []) by (intros ->; simpl in Hlen; lia).
    rewrite (cat_rows_ok 3 inputs Hne Hsh). cbn [bind].
    unfold cat. unfold rank. run.
    simpl forallb. unfold same_except, set_at. simpl firstn. simpl skipn. simpl app.
    cbn [cat_size shape nth]. rewrite Hop. cbn [nth].
    rewrite Hlen. cbn [shape_eqb]. rewrite Nat.eqb_refl.
    replace (N_atoms atom_indices =? N_atoms atom_indices - 4 + (m + 0)) with false
      by (symmetry; apply Nat.eqb_neq; lia).
    reflexivity.
  - intros HN m c Hop Hc.
    unfold create_features, stitch. rewrite (zeros_block_ok atom_indices Rs HN). cbn [bind].
    unfold cat at 1. unfold rank. run.
    simpl forallb. rewrite Hop. unfold same_except. simpl shape_eqb.
    rewrite Nat.eqb_refl.
    replace (rs_dim Rs =? c) with false by (symmetry; apply Nat.eqb_neq; lia).
    reflexivity.
Qed.

(** X5. In the k-vector variant, coordinates with a number of sites other than
    four make the shape assertion fail. *)
Theorem kvec_assertion_fails (atom_indices : list nat) (Rs : list Irrep)
  (kvecs pseudo coords : Tensor) (K n : nat) :
  shape kvecs = [K; 3] -> shape pseudo = [K; 3] -> shape coords = [n; 3] -> n <> 4 ->
  create_features_kvec atom_indices Rs kvecs pseudo coords = Raise AssertionError.
Proof.
  intros Hk Hp Hc Hn.
  destruct (kvec_block_rows kvecs pseudo coords K n Hk Hp Hc) as (t & Et & St & _).
  unfold create_features_kvec. rewrite Et. cbn [bind]. rewrite St. cbn [shape_eqb].
  replace (n =? 4) with false by (symmetry; apply Nat.eqb_neq; lia).
  reflexivity.
Qed.

(** Two coordinate arrays whose phases agree up to sign and whole turns give
    the same features. *)
Lemma kvec_features_same_cosines atom_indices Rs (kvecs pseudo coords coords' : Tensor)
  (K : nat) :
  4 <= N_atoms atom_indices -> Forall (fun a => a < 3) atom_indices -> rs_dim Rs = 3 ->
  shape kvecs = [K; 3] -> shape pseudo = [K; 3] ->
  shape coords = [4; 3] -> shape coords' = [4; 3] ->
  (forall r k, r < 4 -> k < K ->
     cos (2 * PI * kvec_phase kvecs coords' k r) = cos (2 * PI * kvec_phase kvecs coords k r)) ->
  exists f f', create_features_kvec atom_indices Rs kvecs pseudo coords = Ok f /\
    create_features_kvec atom_indices Rs kvecs pseudo coords' = Ok f' /\
    forall i j, i < N_atoms atom_indices -> j < 6 -> val f' [i; j] = val f [i; j].
Proof.
  intros HN Hai Hd Hk Hp Hc Hc' Hcos.
  destruct (create_features_kvec_entries atom_indices Rs kvecs pseudo coords K
              HN Hai Hd Hk Hp Hc) as (f & Ef & _ & Of & Zf & Bf).
  destruct (create_features_kvec_entries atom_indices Rs kvecs pseudo coords' K
              HN Hai Hd Hk Hp Hc') as (f' & Ef' & _ & Of' & Zf' & Bf').
  exists f, f'. split; [exact Ef|]. split; [exact Ef'|].
  intros i j Hi Hj.
  destruct (Nat.lt_ge_cases j 3) as [Hj3|Hj3].
  - rewrite Of, Of'; auto.
  - replace j with (3 + (j - 3)) by lia.
    destruct (Nat.lt_ge_cases i (N_atoms atom_indices - 4)) as [Hi4|Hi4].
    + rewrite Zf, Zf'; auto; lia.
    + replace i with (N_atoms atom_indices - 4 + (i - (N_atoms atom_indices - 4))) by lia.
      rewrite Bf, Bf' by lia. apply Rsum_ext. intros k Hk'.
      rewrite Hcos; auto. lia.
Qed.

(** X6. The k-vector features are unchanged when every normalized coordinate
    is negated (the cosine is even). *)
Theorem kvec_features_inversion_invariant (atom_indices : list nat) (Rs : list Irrep)
  (kvecs pseudo coords : Tensor) (K : nat) :
  4 <= N_atoms atom_indices -> Forall (fun a => a < 3) atom_indices -> rs_dim Rs = 3 ->
  shape kvecs = [K; 3] -> shape pseudo = [K; 3] -> shape coords = [4; 3] ->
  exists f f', create_features_kvec atom_indices Rs kvecs pseudo coords = Ok f /\
    create_features_kvec atom_indices Rs kvecs pseudo (negated coords) = Ok f' /\
    forall i j, i < N_atoms atom_indices -> j < 6 -> val f' [i; j] = val f [i; j].
Proof.
  intros HN Hai Hd Hk Hp Hc.
  apply (kvec_features_same_cosines atom_indices Rs kvecs pseudo coords (negated coords) K);
    auto.
  intros r k _ _. unfold kvec_phase, negated, tmap. cbn [val].
  rewrite <- (cos_neg (2 * PI * _)). f_equal. ring.
Qed.

(** ** Atom types from labels *)


Lemma atom_index_ok site a :
  atom_index site = Ok a ->
  a < 3 /\ exists c rest, species site = String c rest /\
             nth_error atom_types_list a = Some (String c EmptyString).
Proof.
  unfold atom_index, first_char. destruct (species site) as [|c rest]; [discriminate|].
  cbn [bind list_index atom_types_list].
  destruct (String.eqb (String c "") "A") eqn:EA.
  { intros H. inversion H; subst. apply String.eqb_eq in EA. split; [lia|].
    exists c, rest. rewrite EA. split; reflexivity. }
  destruct (String.eqb (String c "") "B") eqn:EB.
  { intros H. inversion H; subst. apply String.eqb_eq in EB. split; [lia|].
    exists c, rest. rewrite EB. split; reflexivity. }
  destruct (String.eqb (String c "") "X") eqn:EX.
  { intros H. inversion H; subst. apply String.eqb_eq in EX. split; [lia|].
    exists c, rest. rewrite EX. split; reflexivity. }
  discriminate.
Qed.



Lemma atom_indices_of_ok l :
  forall ai, mapM atom_index l = Ok ai ->
    length ai = length l /\ Forall (fun a => a < 3) ai /\
    forall i site, nth_error l i = Some site ->
      exists c rest, species site = String c rest /\
        nth_error atom_types_list (nth i ai 0) = Some (String c EmptyString).
Proof.
  induction l as [|s l IH]; intros ai H; simpl in H.
  - inversion H; subst. repeat split; auto. intros [|i] site Hi; discriminate.
  - destruct (atom_index s) as [a|e] eqn:Ea; [|discriminate]. cbn [bind] in H.
    destruct (mapM atom_index l) as [ai'|e] eqn:El; [|discriminate]. cbn [bind] in H.
    inversion H; subst. destruct (IH ai' eq_refl) as (Hlen & Hall & Hnth).
    destruct (atom_index_ok s a Ea) as (Ha & Hlab).
    repeat split; [simpl; lia|constructor; auto|].
    intros [|i] site Hi; simpl in *.
    + inversion Hi; subst. exact Hlab.
    + apply Hnth; auto.
Qed.


(** X10. Whenever the atom indices are computed without error from a
    structure of at least four sites, [create_features] returns a matrix with
    one row per site and [rs.dim(Rs_in)] columns, whose atom-type columns mark
    the first character of each site's label. *)
Theorem features_from_labelled_structure (struct_221 : Structure) (Rs : list Irrep)
  (ai : list nat) (op : Tensor) :
  atom_indices_of struct_221 = Ok ai -> 4 <= length (sites struct_221) ->
  shape op = [4; rs_dim Rs] ->
  exists f, create_features ai Rs op = Ok f /\
    shape f = [length (sites struct_221); rs_dim (Rs_in Rs)] /\
    forall i site, nth_error (sites struct_221) i = Some site ->
      exists c rest, species site = String c rest /\
        forall j, j < 3 ->
          val f [i; j] = if String.eqb (nth j atom_types_list EmptyString) (String c EmptyString)
                         then 1%R else 0%R.
Proof.
  intros Hai HN Hop.
  destruct (atom_indices_of_ok _ _ Hai) as (Hlen & Hall & Hlab).
  assert (HN' : 4 <= N_atoms ai) by (unfold N_atoms; lia).
  destruct (stitch_ok ai Rs op HN' Hall Hop) as (f & Ef & Sf & Of & _).
  exists f. split; [exact Ef|]. split.
  { rewrite Sf. unfold N_atoms. rewrite Hlen. reflexivity. }
  intros i site Hi. destruct (Hlab i site Hi) as (c & rest & Hs & Hn).
  exists c, rest. split; [exact Hs|]. intros j Hj.
  assert (Hlt : i < N_atoms ai).
  { unfold N_atoms. rewrite Hlen. apply nth_error_Some. congruence. }
  rewrite (Of i j Hlt Hj). unfold onehot.
  assert (Ha : nth i ai 0 < 3).
  { apply Forall_nth; auto. }
  destruct (nth i ai 0) as [|[|[|a]]] eqn:Ea; try lia;
    cbn in Hn; inversion Hn; subst;
    destruct j as [|[|[|j]]]; try lia; reflexivity.
Qed.

(** ** The origin of the distortion *)

Lemma normalized_B_coords_ok (s : Structure) :
  4 <= length (sites s) ->
  exists t, normalized_B_coords s = Ok t /\ shape t = [4; 3] /\
    forall r c, r < 4 -> c < 3 ->
      val t [r; c]
      = ((entry (cart_coords s) (length (sites s) - 4 + r) c
          - entry (cart_coords s) (length (sites s) - 4) c) / lat)%R.
Proof.
  intros HN.
  assert (Hc : shape (cart_coords s) = [length (sites s); 3]) by reflexivity.
  unfold normalized_B_coords, slice_rows, rank. rewrite Hc. run.
  unfold slice_bound. cbn [Z.ltb Z.compare].
  replace (Z.to_nat (Z.max (-4 + Z.of_nat (length (sites s))) 0))
    with (length (sites s) - 4) by lia.
  replace (Z.to_nat (Z.max (-3 + Z.of_nat (length (sites s))) 0))
    with (length (sites s) - 3) by lia.
  replace (length (sites s) - (length (sites s) - 4)) with 4 by lia.
  replace (length (sites s) - 3 - (length (sites s) - 4)) with 1 by lia.
  unfold tsub, map2, broadcast_shapes. run_broadcast.
  eexists. split; [reflexivity|]. split; [reflexivity|].
  intros r c Hr Hc3.
  cbn [tmap val shape bidx rev app bidx_rev Nat.eqb set_at firstn skipn nth].
  rewrite Nat.add_0_r. reflexivity.
Qed.

Lemma cart_coords_entries (s : Structure) i site :
  nth_error (sites s) i = Some site ->
  coords site
  = (val (cart_coords s) [i; 0], val (cart_coords s) [i; 1], val (cart_coords s) [i; 2]).
Proof. intros H. symmetry. apply cart_coords_row. exact H. Qed.

(** X11. For a structure of at least four sites [normalized_B_coords] has
    shape (4, 3); its first row is zero and row r is the offset of the r-th of
    the last four sites from the first of them, divided by [lat]. *)
Theorem normalized_B_coords_origin (struct_62 : Structure) :
  4 <= length (sites struct_62) ->
  exists t, normalized_B_coords struct_62 = Ok t /\ shape t = [4; 3] /\
    (forall c, c < 3 -> val t [0; c] = 0%R) /\
    (forall r c, r < 4 -> c < 3 ->
       val t [r; c]
       = ((entry (cart_coords struct_62) (length (sites struct_62) - 4 + r) c
           - entry (cart_coords struct_62) (length (sites struct_62) - 4) c) / lat)%R).
Proof.
  intros HN. destruct (normalized_B_coords_ok struct_62 HN) as (t & Et & St & Vt).
  exists t. repeat split; auto.
  intros c Hc. rewrite Vt by lia. rewrite Nat.add_0_r. unfold Rdiv. ring.
Qed.

Lemma Rsum_scale_one n (f g : nat -> R) :
  (forall k, k < n -> f k = (1 * g k)%R) -> Rsum n f = Rsum n g.
Proof. intros H. apply Rsum_ext. intros k Hk. rewrite H by auto. ring. Qed.

(** X13. With the coordinates computed by [normalized_B_coords], the first
    special site receives the plain sum of the pseudo order parameters over
    the k-vectors. *)
Theorem kvec_features_at_origin (atom_indices : list nat) (Rs : list Irrep)
  (struct_62 : Structure) (kvecs pseudo : Tensor) (K : nat) :
  4 <= N_atoms atom_indices -> Forall (fun a => a < 3) atom_indices -> rs_dim Rs = 3 ->
  4 <= length (sites struct_62) ->
  shape kvecs = [K; 3] -> shape pseudo = [K; 3] ->
  exists coords f, normalized_B_coords struct_62 = Ok coords /\
    create_features_kvec atom_indices Rs kvecs pseudo coords = Ok f /\
    forall c, c < 3 ->
      val f [N_atoms atom_indices - 4; 3 + c] = Rsum K (fun k => val pseudo [k; c]).
Proof.
  intros HN Hai Hd HN62 Hk Hp.
  destruct (normalized_B_coords_ok struct_62 HN62) as (t & Et & St & Vt).
  destruct (create_features_kvec_entries atom_indices Rs kvecs pseudo t K
              HN Hai Hd Hk Hp St) as (f & Ef & _ & _ & _ & Bf).
  exists t, f. split; [exact Et|]. split; [exact Ef|].
  intros c Hc. pose proof (Bf 0 c ltac:(lia) Hc) as B. rewrite Nat.add_0_r in B.
  rewrite B. apply Rsum_scale_one. intros k Hk'.
  assert (Hz : forall a, a < 3 -> val t [0; a] = 0%R).
  { intros a Ha. rewrite Vt by lia. rewrite Nat.add_0_r. unfold Rdiv. ring. }
  unfold kvec_phase. rewrite !Hz by lia.
  match goal with
  | |- (cos ?a * _ = _)%R => replace a with 0%R by ring
  end.
  rewrite cos_0. reflexivity.
Qed.

(** ** More on the regulariser *)

Lemma Rsum_nonneg n f :
  (forall i, i < n -> (0 <= f i)%R) -> (0 <= Rsum n f)%R.
Proof.
  induction n as [|n IH]; simpl; intros H; [lra|].
  apply Rplus_le_le_0_compat; auto.
Qed.

Lemma Rsum_zero_terms n f :
  (forall i, i < n -> (0 <= f i)%R) -> Rsum n f = 0%R -> forall i, i < n -> f i = 0%R.
Proof.
  induction n as [|n IH]; intros Hpos Hsum i Hi; [lia|]. simpl in Hsum.
  assert (H1 : (0 <= Rsum n f)%R) by (apply Rsum_nonneg; auto).
  assert (H2 : (0 <= f n)%R) by auto.
  destruct (Nat.eq_dec i n) as [->|Hne]; [lra|].
  apply IH; auto; [lra|lia].
Qed.

Lemma abs_block_sum_nonneg x r a n : (0 <= abs_block_sum x r a n)%R.
Proof.
  unfold abs_block_sum. apply Rsum_nonneg. intros i _. apply Rsum_nonneg.
  intros j _. apply Rabs_pos.
Qed.

Lemma weighted_blocks_bounds x r :
  (0 <= abs_block_sum x r 0 18 / 18 <= weighted_blocks x r)%R.
Proof.
  unfold weighted_blocks.
  pose proof (abs_block_sum_nonneg x r 0 18).
  pose proof (abs_block_sum_nonneg x r 2 3).
  pose proof (abs_block_sum_nonneg x r 5 3).
  pose proof (abs_block_sum_nonneg x r 8 5).
  pose proof (abs_block_sum_nonneg x r 13 5).
  lra.
Qed.

(** X14. The value of [order_param_loss] on the irreps of the notebook, for a
    tensor of r > 0 rows and 18 columns: scale / r times the sum of the
    absolute values of all columns over 18, of the two L = 1 blocks over 3 and
    of the two L = 2 blocks times 64 over 5; the L = 0 columns carry no weight
    of their own. *)
Theorem order_param_loss_value (x : Tensor) (r : nat) (scale : R) :
  shape x = [r; 18] -> 0 < r ->
  order_param_loss x Rs_irreps scale
  = Ok (Some (scale / INR r
              * (abs_block_sum x r 0 18 / 18
                 + (abs_block_sum x r 2 3 + abs_block_sum x r 5 3) / 3
                 + 64 * (abs_block_sum x r 8 5 + abs_block_sum x r 13 5) / 5))%R).
Proof. intros Hx Hr. apply (order_param_loss_closed x r scale Hx Hr). Qed.

(** X15. For a positive scale [order_param_loss] is at least the plain penalty
    scale * mean(|x|), which is non-negative, and it is zero exactly when every
    entry of the tensor is zero. *)
Theorem order_param_loss_vanishes_at_zero_only (x : Tensor) (r : nat) (scale : R) :
  shape x = [r; 18] -> 0 < r -> (0 < scale)%R ->
  exists l p, order_param_loss x Rs_irreps scale = Ok (Some l) /\
    fmul scale (tmean (tmap Rabs x)) = Some p /\
    (0 <= p <= l)%R /\
    (l = 0%R <-> forall i j, i < r -> j < 18 -> val x [i; j] = 0%R).
Proof.
  intros Hx Hr Hs.
  rewrite (order_param_loss_closed x r scale Hx Hr).
  rewrite (tmean_abs_full x r 18 Hx Hr) by lia. cbn [fmul option_map].
  do 2 eexists. split; [reflexivity|]. split; [reflexivity|].
  assert (Hr' : (0 < INR r)%R) by (apply lt_0_INR; lia).
  assert (Hu : (0 < scale / INR r)%R) by (apply Rdiv_lt_0_compat; auto).
  pose proof (weighted_blocks_bounds x r) as [Hb0 Hb1].
  assert (Hp : (scale * (abs_block_sum x r 0 18 / INR (r * 18))
                = scale / INR r * (abs_block_sum x r 0 18 / 18))%R).
  { rewrite mult_INR. simpl INR. field. lra. }
  split.
  { rewrite Hp. split.
    - apply Rmult_le_pos; lra.
    - apply Rmult_le_compat_l; lra. }
  split.
  - intros Hl i j Hi Hj.
    assert (Hw : weighted_blocks x r = 0%R).
    { apply Rmult_integral in Hl. destruct Hl; lra. }
    assert (H0 : abs_block_sum x r 0 18 = 0%R) by lra.
    unfold abs_block_sum in H0.
    pose proof (Rsum_zero_terms r _ (fun i _ => Rsum_nonneg 18 _ (fun j _ => Rabs_pos _))
                  H0 i Hi) as Hrow.
    cbv beta in Hrow.
    pose proof (Rsum_zero_terms 18 _ (fun j _ => Rabs_pos _) Hrow j Hj) as He.
    cbv beta in He. cbn [Nat.add] in He.
    destruct (Req_dec (val x [i; j]) 0) as [|Hne]; auto.
    apply Rabs_no_R0 in Hne. contradiction.
  - intros Hz.
    assert (Hb : forall a n, a + n <= 18 -> abs_block_sum x r a n = 0%R).
    { intros a n Han. unfold abs_block_sum.
      rewrite (Rsum_ext r _ (fun _ => 0%R)).
      - clear. induction r; simpl; lra.
      - intros i Hi. rewrite (Rsum_ext n _ (fun _ => 0%R)).
        + clear. induction n; simpl; lra.
        + intros j Hj. rewrite Hz by lia. apply Rabs_R0. }
    unfold weighted_blocks. rewrite !Hb by lia. unfold Rdiv. ring.
Qed.

Lemma fadd_none_r x : fadd x None = None.
Proof. destruct x; reflexivity. Qed.

(** On a two-dimensional tensor the loop raises nothing, and a loss that is
    not a number stays so. *)
Lemma penalty_loop_total x Rs scale r c :
  shape x = [r; c] ->
  forall todo i loss, exists l,
    penalty_loop x Rs scale i todo loss = Ok l /\ (loss = None -> l = None).
Proof.
  intros Hx. induction todo as [|b todo IH]; intros i loss.
  - exists loss. split; auto.
  - cbn [penalty_loop]. unfold slice_cols at 1, rank. rewrite Hx. run.
    match goal with
    | |- context [penalty_loop x Rs scale (S i) todo ?acc] =>
        destruct (IH (S i) acc) as (l & El & Hl)
    end.
    exists l. split; [exact El|]. intros ->. apply Hl. reflexivity.
Qed.

Lemma slice_mean_some x r c a b :
  shape x = [r; c] -> 0 < r -> a < b -> a < c ->
  exists s m, slice_cols x a b = Ok s /\ tmean (tmap Rabs s) = Some m.
Proof.
  intros Hx Hr Hab Hac. unfold slice_cols, rank. rewrite Hx. run.
  do 2 eexists. split; [reflexivity|].
  unfold tmean, tmap, numel. cbn [shape val fold_right].
  replace (r * ((Nat.min b c - Nat.min a c) * 1) =? 0) with false
    by (symmetry; apply Nat.eqb_neq; nia).
  reflexivity.
Qed.

Lemma slice_mean_none x r c a b :
  shape x = [r; c] -> c <= a ->
  exists s, slice_cols x a b = Ok s /\ tmean (tmap Rabs s) = None.
Proof.
  intros Hx Hca. unfold slice_cols, rank. rewrite Hx. run.
  eexists. split; [reflexivity|].
  unfold tmean, tmap, numel. cbn [shape val fold_right].
  replace (r * ((Nat.min b c - Nat.min a c) * 1) =? 0) with true
    by (symmetry; apply Nat.eqb_eq; nia).
  reflexivity.
Qed.

(** X17. On the irreps of the notebook, [order_param_loss] raises nothing on
    a two-dimensional tensor, whatever its shape.  It is not-a-number for a
    tensor without rows and for a tensor of at most 13 columns (the last block
    is empty); with rows and at least 14 columns it is a number, whatever the
    number of columns.  On a one-dimensional tensor it raises an IndexError. *)
Theorem order_param_loss_on_other_shapes (x : Tensor) (scale : R) :
  (forall r c, shape x = [r; c] -> exists l, order_param_loss x Rs_irreps scale = Ok l)
  /\
  (forall c, shape x = [0; c] -> order_param_loss x Rs_irreps scale = Ok None)
  /\
  (forall r c, shape x = [r; c] -> c <= 13 ->
     order_param_loss x Rs_irreps scale = Ok None)
  /\
  (forall r c, shape x = [r; c] -> 0 < r -> 14 <= c ->
     exists l, order_param_loss x Rs_irreps scale = Ok (Some l))
  /\
  (forall n, shape x = [n] -> order_param_loss x Rs_irreps scale = Raise IndexError).
Proof.
  split; [|split; [|split; [|split]]].
  - intros r c Hx. unfold order_param_loss.
    destruct (penalty_loop_total x Rs_irreps scale r c Hx Rs_irreps 0
                (fmul scale (tmean (tmap Rabs x)))) as (l & El & _).
    exists l. exact El.
  - intros c Hx. unfold order_param_loss.
    assert (Hm : tmean (tmap Rabs x) = None).
    { unfold tmean, tmap, numel. cbn [shape]. rewrite Hx. reflexivity. }
    rewrite Hm. cbn [fmul option_map].
    destruct (penalty_loop_total x Rs_irreps scale 0 c Hx Rs_irreps 0 None) as (l & El & Hl).
    rewrite El, Hl; reflexivity.
  - intros r c Hx Hc. unfold order_param_loss, Rs_irreps.
    cbn [penalty_loop firstn rs_dim irrep_mul irrep_L fst snd Nat.add Nat.mul Nat.pow].
    unfold slice_cols at 1 2 3 4 5, rank. rewrite Hx. run.
    destruct (slice_mean_none x r c 13 18 Hx Hc) as (s & Es & Em).
    rewrite Es. cbn [bind]. rewrite Em. cbn [fmul option_map].
    rewrite fadd_none_r. reflexivity.
  - intros r c Hx Hr Hc. unfold order_param_loss, Rs_irreps.
    cbn [penalty_loop firstn rs_dim irrep_mul irrep_L fst snd Nat.add Nat.mul Nat.pow].
    assert (Hm : exists m, tmean (tmap Rabs x) = Some m).
    { unfold tmean, tmap, numel. cbn [shape val]. rewrite Hx. cbn [fold_right].
      replace (r * (c * 1) =? 0) with false by (symmetry; apply Nat.eqb_neq; nia).
      eexists. reflexivity. }
    destruct Hm as (m & ->).
    repeat match goal with
    | |- context [slice_cols x ?a ?b] =>
        let H := fresh in
        let Hm := fresh in
        destruct (slice_mean_some x r c a b Hx Hr ltac:(lia) ltac:(lia)) as (? & ? & H & Hm);
        rewrite H; cbn [bind]; rewrite Hm; clear H Hm
    end.
    cbn [fmul fadd option_map]. eexists. reflexivity.
  - intros n Hx. unfold order_param_loss, Rs_irreps.
    cbn [penalty_loop]. unfold slice_cols, rank. rewrite Hx. reflexivity.
Qed.

Lemma firstn_succ_nth {A : Type} (l : list A) (d : A) :
  forall b, b < length l -> firstn (b + 1) l = firstn b l ++ [nth b l d].
Proof.
  induction l as [|x l IH]; intros b Hb; simpl in Hb; [lia|].
  destruct b as [|b]; simpl; [destruct l; reflexivity|].
  rewrite IH by lia. reflexivity.
Qed.

(** X18. The column ranges that [order_param_loss] slices, for any list of
    irreps: the first starts at 0, each has the width mul * (2 L + 1) of its
    irrep and ends where the next one starts, none ends beyond
    [rs.dim(Rs_order_param)], and the last ends exactly there. *)
Theorem order_param_blocks_tile (Rs : list Irrep) :
  block_start Rs 0 = 0 /\
  (forall b, b < length Rs ->
     block_stop Rs b
     = block_start Rs b
       + irrep_mul (nth b Rs (0, 0, 0%Z)) * (2 * block_L Rs b + 1) /\
     block_start Rs (S b) = block_stop Rs b) /\
  (Rs <> [] -> block_stop Rs (length Rs - 1) = rs_dim Rs) /\
  (forall b, b < length Rs -> block_stop Rs b <= rs_dim Rs).
Proof.
  split; [reflexivity|]. split; [|split].
  - intros b Hb. unfold block_start, block_stop, block_L. split.
    + rewrite (firstn_succ_nth Rs (0, 0, 0%Z) b Hb), rs_dim_app. simpl. lia.
    + rewrite Nat.add_1_r. reflexivity.
  - intros Hne. unfold block_stop.
    replace (length Rs - 1 + 1) with (length Rs)
      by (destruct Rs; [congruence|simpl; lia]).
    rewrite firstn_all. reflexivity.
  - intros b Hb. unfold block_stop.
    rewrite <- (firstn_skipn (b + 1) Rs) at 2. rewrite rs_dim_app. lia.
Qed.

(** ** More on the reconstruction loss *)


(** The loss as a sum over rows. *)
Lemma reconstruction_loss_sum (o y : Tensor) (n : nat) :
  0 < n -> shape o = [n; 3] -> shape y = [n; 3] ->
  reconstruction_loss o y
  = Ok (Some (Rsum n (fun i => Rsum 3 (fun j =>
                Rabs (val o [i; j] - val y [i; loss_column j]))) / INR (n * 3))%R).
Proof.
  intros Hn Ho Hy.
  unfold reconstruction_loss, index_cols, tsub, map2, rank, broadcast_shapes.
  rewrite Ho, Hy. run_broadcast.
  unfold tmean, tmap, numel. cbn [shape val fold_right sum_all].
  replace (n * (3 * 1) =? 0) with false by (symmetry; apply Nat.eqb_neq; lia).
  do 3 f_equal; try (f_equal; lia).
  apply Rsum_ext. intros i Hi.
  cbn [Rsum bidx rev app bidx_rev Nat.eqb nth set_at firstn skipn loss_column].
  rewrite !(unit_index n i Hi). reflexivity.
Qed.

Lemma abs_rows_nonneg (o y : Tensor) (n : nat) :
  (0 <= Rsum n (fun i => Rsum 3 (fun j =>
          Rabs (val o [i; j] - val y [i; loss_column j]))))%R.
Proof.
  apply Rsum_nonneg. intros i _. apply Rsum_nonneg. intros j _. apply Rabs_pos.
Qed.

Lemma reconstruction_loss_zero_iff (o y : Tensor) (n : nat) :
  0 < n -> shape o = [n; 3] -> shape y = [n; 3] ->
  exists m, reconstruction_loss o y = Ok (Some m) /\ (0 <= m)%R /\
    (m = 0%R <-> forall i j, i < n -> j < 3 -> val o [i; j] = val y [i; loss_column j]).
Proof.
  intros Hn Ho Hy. rewrite (reconstruction_loss_sum o y n Hn Ho Hy).
  eexists. split; [reflexivity|].
  assert (Hd : (0 < INR (n * 3))%R) by (apply lt_0_INR; lia).
  pose proof (abs_rows_nonneg o y n) as Hs.
  split; [apply Rmult_le_pos; [exact Hs|apply Rlt_le, Rinv_0_lt_compat; exact Hd]|].
  split.
  - intros Hm i j Hi Hj.
    assert (H0 : Rsum n (fun i => Rsum 3 (fun j =>
                   Rabs (val o [i; j] - val y [i; loss_column j]))) = 0%R).
    { apply Rmult_integral in Hm. destruct Hm as [Hm|Hm]; [exact Hm|].
      exfalso. apply (Rinv_neq_0_compat (INR (n * 3))); lra. }
    pose proof (Rsum_zero_terms n _ (fun i _ => Rsum_nonneg 3 _ (fun j _ => Rabs_pos _))
                  H0 i Hi) as Hrow.
    cbv beta in Hrow.
    pose proof (Rsum_zero_terms 3 _ (fun j _ => Rabs_pos _) Hrow j Hj) as He.
    cbv beta in He.
    destruct (Req_dec (val o [i; j] - val y [i; loss_column j]) 0) as [H|Hne]; [lra|].
    apply Rabs_no_R0 in Hne. contradiction.
  - intros Heq.
    rewrite (Rsum_ext n _ (fun _ => 0%R)).
    + replace (Rsum n (fun _ => 0%R)) with 0%R by (clear; induction n; simpl; lra).
      unfold Rdiv. ring.
    + intros i Hi. cbn [Rsum]. rewrite !Heq by lia.
      rewrite !Rminus_diag, Rabs_R0. ring.
Qed.

(** X19. For a prediction and a target of shape (n, 3), n > 0, the
    reconstruction loss is a non-negative number, and it is zero exactly when
    in every row the prediction is the target with its components in the order
    [1, 2, 0]. *)
Theorem reconstruction_loss_zero_exactly_at_target (o y : Tensor) (n : nat) :
  0 < n -> shape o = [n; 3] -> shape y = [n; 3] ->
  exists m, reconstruction_loss o y = Ok (Some m) /\ (0 <= m)%R /\
    (m = 0%R <-> forall i, i < n ->
       val o [i; 0] = val y [i; 1] /\ val o [i; 1] = val y [i; 2] /\
       val o [i; 2] = val y [i; 0]).
Proof.
  intros Hn Ho Hy.
  destruct (reconstruction_loss_zero_iff o y n Hn Ho Hy) as (m & Em & Hm & Hiff).
  exists m. split; [exact Em|]. split; [exact Hm|]. rewrite Hiff. split.
  - intros H i Hi.
    pose proof (H i 0 Hi ltac:(lia)) as H0.
    pose proof (H i 1 Hi ltac:(lia)) as H1.
    pose proof (H i 2 Hi ltac:(lia)) as H2.
    repeat split; assumption.
  - intros H i j Hi Hj. destruct (H i Hi) as (H0 & H1 & H2).
    destruct j as [|[|[|j]]]; try lia; assumption.
Qed.


(** X21. The loss of the order-update phase is the reconstruction loss plus a
    non-negative penalty, and equals the reconstruction loss when the order
    parameter is zero (as at the first iteration). *)
Theorem order_update_loss_adds_penalty (o y op : Tensor) (n r : nat) :
  0 < n -> shape o = [n; 3] -> shape y = [n; 3] -> 0 < r -> shape op = [r; 18] ->
  exists l t, reconstruction_loss o y = Ok (Some l) /\
    order_update_loss o y op Rs_irreps = Ok (Some t) /\
    (l <= t)%R /\
    ((forall i j, i < r -> j < 18 -> val op [i; j] = 0%R) -> t = l).
Proof.
  intros Hn Ho Hy Hr Hop.
  destruct (reconstruction_loss_zero_iff o y n Hn Ho Hy) as (l & El & _ & _).
  unfold order_update_loss. rewrite El. cbn [bind].
  rewrite (order_param_loss_closed op r (1 / 100) Hop Hr). cbn [bind fadd].
  do 2 eexists. split; [reflexivity|]. split; [reflexivity|].
  pose proof (weighted_blocks_bounds op r) as [Hb0 Hb1].
  assert (Hu : (0 <= 1 / 100 / INR r)%R).
  { apply scale_factor_nonneg; [lra|exact Hr]. }
  split.
  - pose proof (Rmult_le_pos _ _ Hu (Rle_trans _ _ _ Hb0 Hb1)). lra.
  - intros Hz.
    assert (Hb : forall a k, a + k <= 18 -> abs_block_sum op r a k = 0%R).
    { intros a k Hak. unfold abs_block_sum.
      rewrite (Rsum_ext r _ (fun _ => 0%R)).
      - clear. induction r; simpl; lra.
      - intros i Hi. rewrite (Rsum_ext k _ (fun _ => 0%R)).
        + clear. induction k; simpl; lra.
        + intros j Hj. rewrite Hz by lia. apply Rabs_R0. }
    unfold weighted_blocks. rewrite !Hb by lia. unfold Rdiv. ring.
Qed.

(** ** More on the alignment step *)

Lemma first_nearest_minimal found e :
  first_nearest found e ->
  In e found /\ forall x, In x found -> (nn_distance e <= nn_distance x)%R.
Proof.
  intros (pre & post & El & Hpre & Hpost). split.
  - rewrite El. apply in_or_app. right. left. reflexivity.
  - intros x Hx. rewrite El in Hx. apply in_app_or in Hx as [Hx|[<-|Hx]].
    + apply Rlt_le, Hpre, Hx.
    + lra.
    + apply Hpost, Hx.
Qed.



Section AlignmentMore.

Variable search : Structure -> Vec3 -> R -> list Neighbor.

Lemma displacement_ok_sites s62 site v :
  displacement search s62 site = Ok v -> sites s62 <> [].
Proof.
  intros H Hnil. rewrite (displacement_no_sites search s62 site Hnil) in H. discriminate.
Qed.

Lemma mapM_displacement_inv s62 l :
  forall vecs, mapM (displacement search s62) l = Ok vecs ->
    length vecs = length l /\
    forall i site, nth_error l i = Some site ->
      exists e, first_nearest (search s62 (coords site) 1%R) e /\
        nth_error vecs i = Some (vsub (coords (nn_site e)) (coords site)).
Proof.
  induction l as [|a l IH]; intros vecs H; simpl in H.
  - inversion H; subst. split; auto. intros [|i] site Hi; discriminate.
  - destruct (displacement search s62 a) as [v|e] eqn:Ea; [|discriminate]. cbn [bind] in H.
    destruct (mapM (displacement search s62) l) as [vs|e] eqn:El; [|discriminate].
    cbn [bind] in H. inversion H; subst.
    destruct (IH vs eq_refl) as (Hlen & Hv).
    split; [simpl; lia|].
    intros [|i] site Hi; simpl in *.
    + inversion Hi; subst.
      pose proof (displacement_ok_sites _ _ _ Ea) as Hs.
      destruct (search s62 (coords site) 1%R) as [|x xs] eqn:Es.
      { rewrite (displacement_raises search s62 site Hs Es) in Ea. discriminate. }
      destruct (displacement_ok search s62 site Hs) as (e & He & Ed);
        [rewrite Es; discriminate|].
      rewrite Es in He. exists e. split; [exact He|]. congruence.
    + apply Hv; auto.
Qed.

(** X22. The outcomes of the alignment step: a ValueError exactly when the
    reference structure or the distorted structure has no site, an IndexError
    exactly when the distorted structure has sites and the search around some
    reference atom returns nothing, and otherwise an array with one
    displacement per reference atom. *)
Theorem alignment_outcomes (struct_221 struct_62 : Structure) :
  (relative_vecs search struct_221 struct_62 = Raise ValueError
   <-> sites struct_221 = [] \/ sites struct_62 = [])
  /\
  (relative_vecs search struct_221 struct_62 = Raise IndexError
   <-> sites struct_62 <> [] /\
       exists site, In site (sites struct_221) /\
         search struct_62 (coords site) 1%R = [])
  /\
  ((exists vecs, relative_vecs search struct_221 struct_62 = Ok vecs)
   <-> sites struct_221 <> [] /\ sites struct_62 <> [] /\
       forall site, In site (sites struct_221) ->
         search struct_62 (coords site) 1%R <> [])
  /\
  (forall vecs, relative_vecs search struct_221 struct_62 = Ok vecs ->
     length vecs = length (sites struct_221)).
Proof.
  unfold relative_vecs.
  assert (Hdec : (forall site, In site (sites struct_221) ->
                    search struct_62 (coords site) 1%R <> []) \/
                 (exists site, In site (sites struct_221) /\
                    search struct_62 (coords site) 1%R = [])).
  { induction (sites struct_221) as [|a l IH]; [left; intros ? []|].
    destruct (search struct_62 (coords a) 1%R) as [|x xs] eqn:Ea.
    - right. exists a. split; [left; reflexivity|exact Ea].
    - destruct IH as [IH|(site & Hin & Hs)].
      + left. intros site [<-|Hin]; [rewrite Ea; discriminate|apply IH; exact Hin].
      + right. exists site. split; [right; exact Hin|exact Hs]. }
  assert (Hnone : sites struct_221 <> [] -> sites struct_62 = [] ->
            mapM (displacement search struct_62) (sites struct_221) = Raise ValueError).
  { intros H1 H2. apply mapM_no_sites; assumption. }
  assert (Hempty : sites struct_62 <> [] ->
            forall site, In site (sites struct_221) ->
            search struct_62 (coords site) 1%R = [] ->
            mapM (displacement search struct_62) (sites struct_221) = Raise IndexError).
  { intros H62 site Hin Hs. apply (mapM_raises search struct_62 _ site H62 Hin).
    apply displacement_raises; assumption. }
  assert (Hfull : sites struct_62 <> [] ->
            (forall site, In site (sites struct_221) ->
                     search struct_62 (coords site) 1%R <> []) ->
            exists vecs, mapM (displacement search struct_62) (sites struct_221) = Ok vecs
                         /\ length vecs = length (sites struct_221)).
  { intros H62 H. destruct (mapM_displacement_ok search struct_62 _ H62 H) as (vs & E & Hl & _).
    exists vs. auto. }
  assert (D62 : sites struct_62 = [] \/ sites struct_62 <> []).
  { destruct (sites struct_62); [left; reflexivity|right; discriminate]. }
  assert (D221 : sites struct_221 = [] \/ sites struct_221 <> []).
  { destruct (sites struct_221); [left; reflexivity|right; discriminate]. }
  split; [|split; [|split]].
  - split.
    + intros H. destruct D221 as [E221|N221]; [left; exact E221|].
      destruct D62 as [E62|N62]; [right; exact E62|]. exfalso.
      destruct Hdec as [Hd|(site & Hin & Hs)].
      * destruct (Hfull N62 Hd) as (vs & E & Hl). rewrite E in H. cbn [bind] in H.
        destruct vs; [|discriminate].
        destruct (sites struct_221); [congruence|discriminate].
      * rewrite (Hempty N62 site Hin Hs) in H. discriminate.
    + intros [E221|E62].
      * rewrite E221. reflexivity.
      * destruct D221 as [E221|N221]; [rewrite E221; reflexivity|].
        rewrite (Hnone N221 E62). reflexivity.
  - split.
    + intros H. destruct D221 as [E221|N221]; [rewrite E221 in H; discriminate|].
      destruct D62 as [E62|N62]; [rewrite (Hnone N221 E62) in H; discriminate|].
      split; [exact N62|].
      destruct Hdec as [Hd|He]; [|exact He]. exfalso.
      destruct (Hfull N62 Hd) as (vs & E & Hl). rewrite E in H. cbn [bind] in H.
      destruct vs; discriminate.
    + intros (N62 & site & Hin & Hs). rewrite (Hempty N62 site Hin Hs). reflexivity.
  - split.
    + intros (vecs & H).
      destruct D221 as [E221|N221]; [rewrite E221 in H; discriminate|].
      destruct D62 as [E62|N62]; [rewrite (Hnone N221 E62) in H; discriminate|].
      split; [exact N221|]. split; [exact N62|].
      intros site Hin Hs. rewrite (Hempty N62 site Hin Hs) in H. discriminate.
    + intros (Hne & N62 & Hd). destruct (Hfull N62 Hd) as (vs & E & Hl). rewrite E. cbn [bind].
      exists vs. destruct vs; [|reflexivity].
      destruct (sites struct_221); [congruence|discriminate].
  - intros vecs H.
    destruct (mapM (displacement search struct_62) (sites struct_221)) as [vs|e] eqn:E;
      [|discriminate].
    cbn [bind] in H. destruct (mapM_displacement_inv struct_62 _ vs E) as (Hl & _).
    destruct vs; [discriminate|]. inversion H; subst. exact Hl.
Qed.


End AlignmentMore.

Lemma mapM_ext {A B : Type} (f g : A -> Result B) (l : list A) :
  (forall a, In a l -> f a = g a) -> mapM f l = mapM g l.
Proof.
  induction l as [|a l IH]; intros H; [reflexivity|]. simpl.
  rewrite (H a (or_introl eq_refl)). rewrite IH; [reflexivity|].
  intros b Hb. apply H. right. exact Hb.
Qed.

(** X24. When no two of the sites found around a reference atom are at the
    same distance, the result of the alignment does not depend on the order in
    which the search lists them. *)
Theorem alignment_independent_of_listing_order
  (search search' : Structure -> Vec3 -> R -> list Neighbor)
  (struct_221 struct_62 : Structure) :
  (forall site, In site (sites struct_221) ->
     Permutation (search struct_62 (coords site) 1%R)
                 (search' struct_62 (coords site) 1%R) /\
     forall e e', In e (search struct_62 (coords site) 1%R) ->
                  In e' (search struct_62 (coords site) 1%R) ->
                  nn_distance e = nn_distance e' -> e = e') ->
  relative_vecs search' struct_221 struct_62 = relative_vecs search struct_221 struct_62.
Proof.
  intros H. unfold relative_vecs. f_equal.
  apply mapM_ext. intros site Hin. destruct (H site Hin) as (Hp & Hinj).
  assert (D62 : sites struct_62 = [] \/ sites struct_62 <> []).
  { destruct (sites struct_62); [left; reflexivity|right; discriminate]. }
  destruct D62 as [E62|N62].
  { rewrite !displacement_no_sites by exact E62. reflexivity. }
  destruct (search struct_62 (coords site) 1%R) as [|x xs] eqn:Es.
  - apply Permutation_nil in Hp.
    rewrite (displacement_raises search struct_62 site N62 Es).
    rewrite (displacement_raises search' struct_62 site N62 Hp). reflexivity.
  - destruct (displacement_ok search struct_62 site N62) as (e & He & Ed);
      [rewrite Es; discriminate|].
    destruct (displacement_ok search' struct_62 site N62) as (e' & He' & Ed').
    { intros Hn. rewrite Hn in Hp. apply Permutation_sym, Permutation_nil in Hp.
      discriminate. }
    rewrite Ed, Ed'. rewrite Es in He.
    destruct (first_nearest_minimal _ _ He) as (Hie & Hme).
    destruct (first_nearest_minimal _ _ He') as (Hie' & Hme').
    assert (Hin' : In e' (x :: xs)) by (apply (Permutation_in _ (Permutation_sym Hp)); exact Hie').
    assert (Hin2 : In e (search' struct_62 (coords site) 1%R))
      by (apply (Permutation_in _ Hp); exact Hie).
    assert (Heq : e' = e).
    { apply Hinj; auto. pose proof (Hme e' Hin'). pose proof (Hme' e Hin2). lra. }
    rewrite Heq. reflexivity.
Qed.

(** ** The loop without its gradient buffers *)

Section TwoPhaseFacts.

Variables (Wts Ord SW SO : Type).
Variable addW : Wts -> Wts -> Wts.
Variable addO : Ord -> Ord -> Ord.
Variable zeroW : Wts -> Wts.
Variable zeroO : Ord -> Ord.
Variable model_loss_grads : Wts -> Ord -> Wts * Ord.
Variable order_loss_grads : Wts -> Ord -> Wts * Ord.
Variable adam_w : SW -> Wts -> Wts -> SW * Wts.
Variable adam_o : SO -> Ord -> Ord -> SO * Ord.

Hypothesis addW_zero : forall z g, addW (zeroW z) g = g.
Hypothesis addO_zero : forall z g, addO (zeroO z) g = g.

Lemma iteration_learned (s : TrainState Wts Ord SW SO) :
  learned (iteration addW addO zeroW zeroO model_loss_grads order_loss_grads
             adam_w adam_o s)
  = two_phase_step model_loss_grads order_loss_grads adam_w adam_o (learned s).
Proof.
  destruct s as [w gw o go sw so].
  unfold iteration, model_update, order_update, opt_step, order_opt_step, backward,
    opt_zero_grad, order_opt_zero_grad, learned, two_phase_step. cbn.
  destruct gw as [gw|], go as [go|]; cbn; rewrite ?addW_zero;
    destruct (adam_w sw w (fst (model_loss_grads w o))) as [sw' w']; cbn;
    rewrite ?addO_zero;
    destruct (adam_o so o (snd (order_loss_grads w' o))) as [so' o']; reflexivity.
Qed.

(** X25. What the training loop learns (weights, order parameters and the two
    optimizer states) is what the loop without gradient buffers computes: a
    step of the weights on the gradient of the model loss, then a step of the
    order parameters on the gradient of the order loss at the new weights.  In
    particular it does not depend on the gradient buffers of the initial
    state. *)
Theorem train_is_two_phase_loop (n : nat) (s s' : TrainState Wts Ord SW SO) :
  learned (train addW addO zeroW zeroO model_loss_grads order_loss_grads
             adam_w adam_o n s)
  = two_phase_loop model_loss_grads order_loss_grads adam_w adam_o n (learned s)
  /\
  (learned s = learned s' ->
   learned (train addW addO zeroW zeroO model_loss_grads order_loss_grads
              adam_w adam_o n s)
   = learned (train addW addO zeroW zeroO model_loss_grads order_loss_grads
                adam_w adam_o n s')).
Proof.
  assert (H : forall k t,
            learned (train addW addO zeroW zeroO model_loss_grads order_loss_grads
                       adam_w adam_o k t)
            = two_phase_loop model_loss_grads order_loss_grads adam_w adam_o k (learned t)).
  { induction k as [|k IH]; intros t; [reflexivity|].
    cbn [train two_phase_loop]. rewrite IH, iteration_learned. reflexivity. }
  split; [apply H|]. intros E. rewrite !H, E. reflexivity.
Qed.

End TwoPhaseFacts.

(** ** More on the reconstruction *)

(** The sites of the new structure, for an output with one row per atom or
    with a single row (which broadcasting repeats). *)
Lemma new_struct_sites (new_lattice : Vec3 * Vec3 * Vec3) (struct_221 : Structure)
  (output : Tensor) (n : nat) :
  shape output = [n; 3] -> n = length (sites struct_221) \/ n = 1 ->
  0 < length (sites struct_221) ->
  exists s, new_struct new_lattice struct_221 output = Ok s /\
    lattice s = new_lattice /\
    length (sites s) = length (sites struct_221) /\
    forall i site, nth_error (sites struct_221) i = Some site ->
      nth_error (sites s) i =
      Some (mkSite (species site)
              (vadd (coords site)
                 (let k := if n =? 1 then 0 else i in
                  (val output [k; 2], val output [k; 0], val output [k; 1])))).
Proof.
  intros Ho Hn HN.
  assert (Hc : shape (cart_coords struct_221) = [length (sites struct_221); 3])
    by reflexivity.
  assert (Hb : bdim (length (sites struct_221)) n = Some (length (sites struct_221))).
  { destruct Hn as [->| ->]; [apply bdim_refl|apply bdim_1_r]. }
  unfold new_struct, index_cols, tadd, map2, rank, broadcast_shapes.
  rewrite Ho, Hc. run. cbn [bshape_rev bdim Nat.eqb]. rewrite Hb. run.
  unfold make_structure. cbn [shape]. rewrite length_map, shape_eqb_refl. cbn [bind].
  eexists. split; [reflexivity|]. cbn [lattice sites]. split; [reflexivity|].
  split.
  { rewrite length_map, length_combine, length_seq, !length_map. lia. }
  intros i site Hi.
  assert (Hlt : i < length (sites struct_221)) by (apply nth_error_Some; congruence).
  assert (Hsp : nth_error (map species (sites struct_221)) i = Some (species site))
    by (rewrite nth_error_map, Hi; reflexivity).
  rewrite <- (length_map species (sites struct_221)) at 1.
  rewrite (nth_error_indexed (fun k sp => mkSite sp (row3 _ k)) _ 0 i _ Hsp).
  cbn [Nat.add]. f_equal. f_equal.
  unfold row3. cbn [val bidx rev app bidx_rev Nat.eqb nth set_at firstn skipn].
  rewrite !(unit_index _ i Hlt).
  rewrite <- (cart_coords_row struct_221 i site Hi). reflexivity.
Qed.

Lemma list_eq_nth_error {A : Type} (l l' : list A) :
  length l = length l' ->
  (forall i a, nth_error l' i = Some a -> nth_error l i = Some a) -> l = l'.
Proof.
  revert l'. induction l as [|x l IH]; intros [|y l'] Hlen H; simpl in Hlen;
    try discriminate; [reflexivity|].
  pose proof (H 0 y eq_refl) as H0. simpl in H0. inversion H0; subst.
  f_equal. apply IH; [lia|]. intros i a Hi. apply (H (S i) a). exact Hi.
Qed.

(** X26. A predicted displacement that is zero everywhere reconstructs the
    reference structure: same sites, with the given lattice. *)
Theorem zero_output_reproduces_reference
  (new_lattice : Vec3 * Vec3 * Vec3) (struct_221 : Structure) (output : Tensor) :
  0 < length (sites struct_221) ->
  shape output = [length (sites struct_221); 3] ->
  (forall i j, i < length (sites struct_221) -> j < 3 -> val output [i; j] = 0%R) ->
  new_struct new_lattice struct_221 output
  = Ok (mkStructure new_lattice (sites struct_221)).
Proof.
  intros HN Ho Hz.
  destruct (new_struct_sites new_lattice struct_221 output _ Ho (or_introl eq_refl) HN)
    as (s & Es & Hl & Hlen & Hs).
  rewrite Es. f_equal. destruct s as [latt ss]. cbn [lattice sites] in *. subst latt.
  f_equal. apply list_eq_nth_error; [exact Hlen|].
  intros i site Hi. rewrite (Hs i site Hi). f_equal.
  assert (Hlt : i < length (sites struct_221)) by (apply nth_error_Some; congruence).
  cbv zeta. rewrite (unit_index _ i Hlt). rewrite !Hz by lia.
  destruct site as [sp [[x y] z]]. cbn [species coords vadd]. f_equal.
  f_equal; [f_equal|]; ring.
Qed.



Section PerfectFit.

Variable search : Structure -> Vec3 -> R -> list Neighbor.


End PerfectFit.


(** ** Instances *)

Lemma atom_type_columns_one_hot_witness :
  (exists f, create_features atom_indices_example Rs_irreps ones_order_param = Ok f /\
     forall i j, i < 20 -> j < 3 -> val f [i; j] = onehot (nth i atom_indices_example 0) j)
  /\
  (exists f, create_features_constrained atom_indices_example Rs_pseudovector
               (tensor2 [[1; 2]; [3; 4]]%R) = Ok f /\
     forall i j, i < 20 -> j < 3 -> val f [i; j] = onehot (nth i atom_indices_example 0) j)
  /\
  (exists f, create_features_kvec atom_indices_example Rs_pseudovector
               kvecs_example pseudo_example B_coords_example = Ok f /\
     forall i j, i < 20 -> j < 3 -> val f [i; j] = onehot (nth i atom_indices_example 0) j).
Proof.
  destruct atom_indices_example_valid as [HN Hai].
  split; [|split].
  - apply (atom_type_columns_one_hot atom_indices_example Rs_irreps HN Hai); reflexivity.
  - apply (atom_type_columns_one_hot atom_indices_example Rs_pseudovector HN Hai);
      reflexivity.
  - apply (atom_type_columns_one_hot atom_indices_example Rs_pseudovector HN Hai)
      with (K := 2); reflexivity.
Defined.

Lemma special_rows_carry_order_parameter_witness :
  exists f, create_features atom_indices_example Rs_irreps ones_order_param = Ok f /\
    forall r c, r < 4 -> c < 18 -> val f [16 + r; 3 + c] = val ones_order_param [r; c].
Proof.
  destruct atom_indices_example_valid as [HN Hai].
  apply (special_rows_carry_order_parameter atom_indices_example Rs_irreps
           ones_order_param HN Hai).
  reflexivity.
Defined.

Lemma constrained_special_rows_witness :
  let op := tensor2 [[1; 2]; [3; 4]]%R in
  exists f, create_features_constrained atom_indices_example Rs_pseudovector op = Ok f /\
    (forall r, r < 4 ->
       val f [16 + r; 3] = val op [r mod 2; 0] /\
       val f [16 + r; 4] = 0%R /\
       val f [16 + r; 5] = val op [r mod 2; 1]) /\
    (forall r c, r < 2 -> c < 3 -> val f [16 + (r + 2); 3 + c] = val f [16 + r; 3 + c]).
Proof.
  cbv zeta. destruct atom_indices_example_valid as [HN Hai].
  apply (constrained_special_rows atom_indices_example Rs_pseudovector
           (tensor2 [[1; 2]; [3; 4]]%R) HN Hai); reflexivity.
Defined.

Lemma create_features_rejects_witness :
  zeros_block [0; 1; 2] Rs_irreps = Raise RuntimeError /\
  create_features atom_indices_example Rs_irreps (zero_tensor [20; 18])
  = Raise RuntimeError /\
  create_features atom_indices_example Rs_irreps (zero_tensor [4; 3])
  = Raise RuntimeError.
Proof.
  destruct atom_indices_example_valid as [HN Hai].
  split; [|split].
  - apply (create_features_rejects [0; 1; 2] Rs_irreps (zero_tensor [4; 18])).
    unfold N_atoms. simpl. lia.
  - apply (create_features_rejects atom_indices_example Rs_irreps (zero_tensor [20; 18]))
      with (m := 20); auto; lia.
  - apply (create_features_rejects atom_indices_example Rs_irreps (zero_tensor [4; 3]))
      with (m := 4) (c := 3); auto; simpl; lia.
Defined.

Lemma kvec_assertion_fails_witness :
  create_features_kvec atom_indices_example Rs_pseudovector kvecs_example pseudo_example
    (tensor2 [[0; 0; 0]; [0; 0; 1]; [0; 1; 0]]%R)
  = Raise AssertionError.
Proof.
  apply (kvec_assertion_fails atom_indices_example Rs_pseudovector kvecs_example
           pseudo_example (tensor2 [[0; 0; 0]; [0; 0; 1]; [0; 1; 0]]%R) 2 3);
    try reflexivity. lia.
Defined.

Lemma kvec_features_inversion_invariant_witness :
  exists f f', create_features_kvec atom_indices_example Rs_pseudovector
                 kvecs_example pseudo_example B_coords_example = Ok f /\
    create_features_kvec atom_indices_example Rs_pseudovector
      kvecs_example pseudo_example (negated B_coords_example) = Ok f' /\
    forall i j, i < 20 -> j < 6 -> val f' [i; j] = val f [i; j].
Proof.
  destruct atom_indices_example_valid as [HN Hai].
  apply (kvec_features_inversion_invariant atom_indices_example Rs_pseudovector
           kvecs_example pseudo_example B_coords_example 2 HN Hai); reflexivity.
Defined.

Lemma labelled_cell_indices : atom_indices_of labelled_cell = Ok [0; 1; 1; 1; 1].
Proof. reflexivity. Qed.


Lemma features_from_labelled_structure_witness :
  exists f, create_features [0; 1; 1; 1; 1] Rs_irreps ones_order_param = Ok f /\
    shape f = [5; 21] /\
    forall i site, nth_error (sites labelled_cell) i = Some site ->
      exists c rest, species site = String c rest /\
        forall j, j < 3 ->
          val f [i; j] = if String.eqb (nth j atom_types_list EmptyString) (String c EmptyString)
                         then 1%R else 0%R.
Proof.
  apply (features_from_labelled_structure labelled_cell Rs_irreps [0; 1; 1; 1; 1]
           ones_order_param).
  - exact labelled_cell_indices.
  - simpl. lia.
  - reflexivity.
Defined.

Lemma normalized_B_coords_origin_witness :
  exists t, normalized_B_coords labelled_cell = Ok t /\ shape t = [4; 3] /\
    (forall c, c < 3 -> val t [0; c] = 0%R) /\
    (forall r c, r < 4 -> c < 3 ->
       val t [r; c]
       = ((entry (cart_coords labelled_cell) (1 + r) c
           - entry (cart_coords labelled_cell) 1 c) / lat)%R).
Proof.
  apply (normalized_B_coords_origin labelled_cell). simpl. lia.
Defined.

Lemma kvec_features_at_origin_witness :
  exists coords f, normalized_B_coords labelled_cell = Ok coords /\
    create_features_kvec atom_indices_example Rs_pseudovector
      kvecs_example pseudo_example coords = Ok f /\
    forall c, c < 3 -> val f [16; 3 + c] = Rsum 2 (fun k => val pseudo_example [k; c]).
Proof.
  destruct atom_indices_example_valid as [HN Hai].
  apply (kvec_features_at_origin atom_indices_example Rs_pseudovector labelled_cell
           kvecs_example pseudo_example 2 HN Hai); try reflexivity.
  simpl. lia.
Defined.

Lemma order_param_loss_value_witness :
  order_param_loss ones_order_param Rs_irreps (1 / 100)
  = Ok (Some (1 / 100 / INR 4
              * (abs_block_sum ones_order_param 4 0 18 / 18
                 + (abs_block_sum ones_order_param 4 2 3
                    + abs_block_sum ones_order_param 4 5 3) / 3
                 + 64 * (abs_block_sum ones_order_param 4 8 5
                         + abs_block_sum ones_order_param 4 13 5) / 5))%R).
Proof.
  apply (order_param_loss_value ones_order_param 4 (1 / 100)).
  - reflexivity.
  - lia.
Defined.

Lemma order_param_loss_vanishes_at_zero_only_witness :
  exists l p, order_param_loss ones_order_param Rs_irreps (1 / 100) = Ok (Some l) /\
    fmul (1 / 100) (tmean (tmap Rabs ones_order_param)) = Some p /\
    (0 <= p <= l)%R /\
    (l = 0%R <-> forall i j, i < 4 -> j < 18 -> val ones_order_param [i; j] = 0%R).
Proof.
  apply (order_param_loss_vanishes_at_zero_only ones_order_param 4 (1 / 100)).
  - reflexivity.
  - lia.
  - lra.
Defined.

Lemma reconstruction_loss_zero_exactly_at_target_witness :
  let o := tensor2 [[1; 2; 3]; [4; 5; 6]]%R in
  let y := tensor2 [[3; 1; 2]; [6; 4; 5]]%R in
  exists m, reconstruction_loss o y = Ok (Some m) /\ (0 <= m)%R /\
    (m = 0%R <-> forall i, i < 2 ->
       val o [i; 0] = val y [i; 1] /\ val o [i; 1] = val y [i; 2] /\
       val o [i; 2] = val y [i; 0]).
Proof.
  cbv zeta.
  apply (reconstruction_loss_zero_exactly_at_target
           (tensor2 [[1; 2; 3]; [4; 5; 6]]%R) (tensor2 [[3; 1; 2]; [6; 4; 5]]%R) 2).
  - lia.
  - reflexivity.
  - reflexivity.
Defined.

Lemma order_update_loss_adds_penalty_witness :
  let o := tensor2 [[1; 2; 3]; [4; 5; 6]]%R in
  let y := tensor2 [[0; 1; 0]; [2; 0; 2]]%R in
  exists l t, reconstruction_loss o y = Ok (Some l) /\
    order_update_loss o y (zero_tensor [4; 18]) Rs_irreps = Ok (Some t) /\
    (l <= t)%R /\ t = l.
Proof.
  cbv zeta.
  destruct (order_update_loss_adds_penalty
              (tensor2 [[1; 2; 3]; [4; 5; 6]]%R) (tensor2 [[0; 1; 0]; [2; 0; 2]]%R)
              (zero_tensor [4; 18]) 2 4)
    as (l & t & El & Et & Hle & Hz); try reflexivity; try lia.
  exists l, t. repeat split; auto.
Defined.


(** What the home-cell search finds around the two close reference atoms. *)
Lemma swapped_found site :
  In site (sites ref_close) ->
  exists d0 d1,
    home_cell_search distorted_swapped (coords site) 1%R
    = [ mkNeighbor (site_at "A" (3 / 5)) d0 0 (0, 0, 0)%Z;
        mkNeighbor (site_at "B" (1 / 10)) d1 1 (0, 0, 0)%Z ] /\ d0 <> d1.
Proof.
  intros [<-|[<-|[]]];
    unfold home_cell_search, distorted_swapped, site_at;
    cbn [sites length seq combine map coords vsub fst snd];
    rewrite !vnorm_axis; cbn [filter nn_distance]; decide_reals;
    do 2 eexists; (split; [reflexivity|]);
    unfold Rabs; repeat destruct (Rcase_abs _); lra.
Qed.

Lemma alignment_independent_of_listing_order_witness :
  relative_vecs reversed_search ref_close distorted_swapped
  = relative_vecs home_cell_search ref_close distorted_swapped.
Proof.
  apply (alignment_independent_of_listing_order home_cell_search reversed_search
           ref_close distorted_swapped).
  intros site Hin. split; [apply Permutation_rev|].
  destruct (swapped_found site Hin) as (d0 & d1 & -> & Hd).
  intros e e' [<-|[<-|[]]] [<-|[<-|[]]] He; cbn [nn_distance] in He;
    try reflexivity; exfalso; apply Hd; congruence.
Defined.

Lemma train_is_two_phase_loop_witness :
  learned (toy_train 3 toy_initial)
  = two_phase_loop toy_model_grads toy_order_grads toy_step toy_step 3
      (learned toy_initial)
  /\
  learned (toy_train 3 toy_initial)
  = learned (toy_train 3 (mkTrainState 3%Z (Some 7%Z) 0%Z (Some (-5)%Z) 0 0)).
Proof.
  destruct (train_is_two_phase_loop Z Z nat nat Z.add Z.add toy_zero toy_zero
              toy_model_grads toy_order_grads toy_step toy_step) with
    (n := 3) (s := toy_initial)
    (s' := mkTrainState 3%Z (Some 7%Z) 0%Z (Some (-5)%Z) 0 0) as [H1 H2].
  - intros z g. unfold toy_zero. lia.
  - intros z g. unfold toy_zero. lia.
  - split; [exact H1|]. apply H2. reflexivity.
Defined.

Lemma zero_output_reproduces_reference_witness :
  new_struct (cubic 10) ref_pair (zero_tensor [2; 3])
  = Ok (mkStructure (cubic 10) (sites ref_pair)).
Proof.
  apply (zero_output_reproduces_reference (cubic 10) ref_pair (zero_tensor [2; 3])).
  - simpl. lia.
  - reflexivity.
  - intros i j _ _. reflexivity.
Defined.






